(** * Batch orchestration and resilience engine of the TTS batch processor

    A shallow embedding of [src/core/error_handler.py] and of the
    orchestration classes of [src/core/tts_batch_processor.py], followed by
    the properties of the engine.  The functions that make the file names
    and read the input file, and the two callers of the orchestrator
    ([main] and [process_job] of [src/web/web_interface.py]), come after
    the orchestrator.

    Conventions of the embedding.
    - A Python [str] is a Rocq [string] holding its UTF-8 encoding; [py_len]
      counts code points, as [len] does.  The functions that work on the
      characters of a text ([_create_safe_filename], [load_sentences]) are
      modelled on the list of its code points, in modules of their own.
    - A Python [float] is an exact rational ([Q]); rounding is not modelled.
    - A Python callable with effects is a function on an explicit [World]
      that returns an [outcome] (a value or a raised exception) and the new
      world.  Threads are not modelled: calls are taken one at a time, so
      the locks of the source ([self.lock], [voice_lock], [results_lock])
      do not appear.
    - Calls to [logger] have no effect on the modelled state and are left
      out. *)

From Stdlib Require Import Ascii QArith Qpower Qminmax Lqa.
From stdpp Require Import base gmap sets list strings pretty sorting.

Local Open Scope Z_scope.

(** ** Python values *)

Module Py.

(** An exception object: the names of the classes of its type, most
    specific first (its method resolution order), and [str(e)]. *)
Record exn := Exn { mro : list string; message : string }.

Definition isinstance (e : exn) (cls : string) : bool :=
  bool_decide (cls ∈ mro e).

(** [type(e).__name__] *)
Definition type_name (e : exn) : string := default "object" (head (mro e)).

Definition Exception_ (cls msg : string) : exn :=
  Exn [cls; "Exception"; "BaseException"] msg.

Definition TypeError (msg : string) : exn := Exception_ "TypeError" msg.
Definition ValueError (msg : string) : exn := Exception_ "ValueError" msg.
Definition KeyError (msg : string) : exn :=
  Exn ["KeyError"; "LookupError"; "Exception"; "BaseException"] msg.
Definition AttributeError (msg : string) : exn :=
  Exception_ "AttributeError" msg.
Definition GoogleAPIError (msg : string) : exn :=
  Exception_ "GoogleAPIError" msg.
Definition KeyboardInterrupt : exn :=
  Exn ["KeyboardInterrupt"; "BaseException"] "".

Inductive outcome (A : Type) : Type :=
| Return (a : A)
| Raise (e : exn).
Arguments Return {A} a.
Arguments Raise {A} e.

(** *** Strings *)

(** A byte that starts a code point (anything but a UTF-8 continuation
    byte [10xxxxxx]). *)
Definition starts_code_point (a : ascii) : bool :=
  let n := Z.of_N (N_of_ascii a) in negb ((128 <=? n) && (n <? 192)).

(** [len(s)] *)
Fixpoint py_len (s : string) : Z :=
  match s with
  | EmptyString => 0
  | String a s' => (if starts_code_point a then 1 else 0) + py_len s'
  end.

Fixpoint is_prefix (p s : string) : bool :=
  match p, s with
  | EmptyString, _ => true
  | String a p', String b s' => bool_decide (a = b) && is_prefix p' s'
  | String _ _, EmptyString => false
  end.

(** [s.count(sub)] for a non-empty [sub]: occurrences are counted from
    the left and do not overlap; [skip] bytes of a counted occurrence are
    still to be passed over. *)
Fixpoint count_from (sub s : string) (skip : nat) : Z :=
  match s with
  | EmptyString => 0
  | String _ s' =>
      match skip with
      | S k => count_from sub s' k
      | O => if is_prefix sub s
             then 1 + count_from sub s' (String.length sub - 1)%nat
             else count_from sub s' 0%nat
      end
  end.
Definition py_count (s sub : string) : Z := count_from sub s 0%nat.

(** [sub in s] *)
Fixpoint contains (s sub : string) : bool :=
  is_prefix sub s ||
  match s with
  | EmptyString => false
  | String _ s' => contains s' sub
  end.

Definition lower_ascii (a : ascii) : ascii :=
  let n := N_of_ascii a in
  if ((65 <=? n) && (n <=? 90))%N then ascii_of_N (n + 32) else a.

(** [s.lower()] on the ASCII letters; other code points are kept as they
    are.  The engine lowers an audio format name and an error message in
    which it then looks for the ASCII words "quota" and "rate"; no code
    point outside ASCII lowers to a letter of these words. *)
Fixpoint lower (s : string) : string :=
  match s with
  | EmptyString => EmptyString
  | String a s' => String (lower_ascii a) (lower s')
  end.

Definition upper_ascii (a : ascii) : ascii :=
  let n := N_of_ascii a in
  if ((97 <=? n) && (n <=? 122))%N then ascii_of_N (n - 32) else a.

(** [s.upper()], on the ASCII letters as [lower]. *)
Fixpoint upper (s : string) : string :=
  match s with
  | EmptyString => EmptyString
  | String a s' => String (upper_ascii a) (upper s')
  end.

(** [range(n)] *)
Definition range (n : Z) : list Z := seqZ 0 n.

End Py.
Export Py.

(** ** [error_handler.py] *)

Module ErrorHandler.

Inductive CircuitState := CLOSED | OPEN | HALF_OPEN.

#[global] Instance CircuitState_eq_dec : EqDecision CircuitState.
Proof. solve_decision. Defined.

Record CircuitBreakerConfig := mkCircuitBreakerConfig {
  failure_threshold : Z;
  recovery_timeout : Q;
  expected_exception : string;
  monitor_interval : Q
}.

(** The defaults of the dataclass. *)
Definition CircuitBreakerConfig_default : CircuitBreakerConfig :=
  mkCircuitBreakerConfig 5 60 "Exception" 10.

(** The attributes of a [CircuitBreaker] object.  The monitoring thread
    started by [__init__] only logs the status and is left out. *)
Record CircuitBreaker := mkCircuitBreaker {
  config : CircuitBreakerConfig;
  failure_count : Z;
  last_failure_time : option Q;
  state : CircuitState
}.

(** [CircuitBreaker.__init__] *)
Definition CircuitBreaker_init (cfg : CircuitBreakerConfig) : CircuitBreaker :=
  mkCircuitBreaker cfg 0 None CLOSED.

Record RetryConfig := mkRetryConfig {
  max_attempts : Z;
  base_delay : Q;
  max_delay : Q;
  exponential_base : Q;
  jitter : bool
}.


(** One entry of [stats['errors']]. *)
Record ErrorEntry := mkErrorEntry {
  timestamp : Q;
  error : string;
  context : list (string * string)
}.

(** One value of the [error_stats] dict. *)
Record ErrorStats := mkErrorStats {
  count : Z;
  last_occurrence : option Q;
  errors : list ErrorEntry
}.

(** The attributes of the [ErrorHandler] object.  A [CircuitBreaker]
    object is reached through its name in [circuit_breakers]. *)
Record ErrorHandlerState := mkErrorHandler {
  circuit_breakers : gmap string CircuitBreaker;
  error_stats : gmap string ErrorStats
}.

(** [ErrorHandler.__init__] *)
Definition ErrorHandler_init : ErrorHandlerState := mkErrorHandler ∅ ∅.

(** *** The world a call runs in *)

Record World := mkWorld {
  clock : Q;                  (* what [time.time()] returns *)
  entropy : nat -> Q;         (* the results of [random.random()], in order *)
  drawn : nat;                (* how many of them were consumed *)
  slept : list Q;             (* the arguments of [time.sleep], oldest first *)
  invoked : nat;              (* calls of the wrapped provider function so far *)
  error_handler : ErrorHandlerState   (* the module-level [error_handler] *)
}.

Definition Callable (A : Type) : Type := World -> outcome A * World.

Definition set_clock (t : Q) (w : World) : World :=
  mkWorld t (entropy w) (drawn w) (slept w) (invoked w) (error_handler w).
Definition set_error_handler (h : ErrorHandlerState) (w : World) : World :=
  mkWorld (clock w) (entropy w) (drawn w) (slept w) (invoked w) h.

(** [random.random()] *)
Definition random (w : World) : Q * World :=
  (entropy w (drawn w),
   mkWorld (clock w) (entropy w) (S (drawn w)) (slept w) (invoked w)
           (error_handler w)).

(** [time.sleep(d)]: a negative [d] raises [ValueError]; otherwise the
    clock advances by [d]. *)
Definition sleep (d : Q) (w : World) : outcome unit * World :=
  if Qlt_le_dec d 0
  then (Raise (ValueError "sleep length must be non-negative"), w)
  else (Return tt,
        mkWorld (clock w + d)%Q (entropy w) (drawn w) (slept w ++ [d])
                (invoked w) (error_handler w)).

(** A wrapped function given by the outcome of each of its invocations:
    [script k] is what its [k]-th invocation (counted from 0 over the
    life of the world) does.  Every invocation is counted in
    [invoked]. *)
Definition scripted {A} (script : nat -> outcome A) : Callable A :=
  fun w =>
    (script (invoked w),
     mkWorld (clock w) (entropy w) (drawn w) (slept w) (S (invoked w))
             (error_handler w)).

(** *** [CircuitBreaker] *)

(** [_on_success] *)
Definition _on_success (cb : CircuitBreaker) : CircuitBreaker :=
  let st := if decide (state cb = HALF_OPEN) then CLOSED else state cb in
  mkCircuitBreaker (config cb) 0 (last_failure_time cb) st.

(** [_on_failure], [now] being [time.time()] *)
Definition _on_failure (now : Q) (cb : CircuitBreaker) : CircuitBreaker :=
  let n := failure_count cb + 1 in
  let st := if decide (failure_threshold (config cb) <= n) then OPEN
            else state cb in
  mkCircuitBreaker (config cb) n (Some now) st.

(** The first statement of [call]: what happens to the breaker before the
    function is tried.  [inr] is the exception raised instead of trying
    it. *)
Definition gate_call (now : Q) (cb : CircuitBreaker) : CircuitBreaker + exn :=
  if decide (state cb = OPEN) then
    match last_failure_time cb with
    | None =>
        inr (TypeError "unsupported operand type(s) for -: 'float' and 'NoneType'")
    | Some t =>
        if Qlt_le_dec (recovery_timeout (config cb)) (now - t)%Q
        then inl (mkCircuitBreaker (config cb) (failure_count cb)
                                   (last_failure_time cb) HALF_OPEN)
        else inr (Exception_ "CircuitBreakerOpenException"
                             "Circuit breaker is OPEN")
    end
  else inl cb.

Definition set_breaker (name : string) (cb : CircuitBreaker) (w : World) : World :=
  set_error_handler
    (mkErrorHandler (<[name := cb]> (circuit_breakers (error_handler w)))
                    (error_stats (error_handler w))) w.

Definition update_breaker (name : string) (f : CircuitBreaker -> CircuitBreaker)
    (w : World) : World :=
  match circuit_breakers (error_handler w) !! name with
  | Some cb => set_breaker name (f cb) w
  | None => w
  end.

(** [CircuitBreaker.call] on the breaker registered as [name].  A name
    that is not registered stands for no object; the engine only calls
    breakers it got from [get_circuit_breaker]. *)
Definition call {A} (name : string) (func : Callable A) : Callable A :=
  fun w =>
    match circuit_breakers (error_handler w) !! name with
    | None => (Raise (KeyError name), w)
    | Some cb =>
        match gate_call (clock w) cb with
        | inr e => (Raise e, w)
        | inl cb1 =>
            match func (set_breaker name cb1 w) with
            | (Return r, w2) => (Return r, update_breaker name _on_success w2)
            | (Raise e, w2) =>
                if isinstance e (expected_exception (config cb))
                then (Raise e, update_breaker name (_on_failure (clock w2)) w2)
                else (Raise e, w2)
            end
        end
    end.

(** *** [retry_with_backoff] *)

(** The delay computed after the failure of attempt [attempt], before
    jitter. *)
Definition backoff_delay (cfg : RetryConfig) (attempt : Z) : Q :=
  Qmin (base_delay cfg * exponential_base cfg ^ attempt)%Q (max_delay cfg).

(** [0.5 + random.random() * 0.5] *)
Definition jitter_factor (r : Q) : Q := ((1 # 2) + r * (1 # 2))%Q.

(** The [for attempt in range(config.max_attempts)] loop of [wrapper],
    over the attempts still to be made; [last_exception] as in the
    source. *)
Fixpoint retry_loop {A} (cfg : RetryConfig) (func : Callable A)
    (attempts : list Z) (last_exception : option exn) (w : World)
    : outcome A * World :=
  match attempts with
  | [] =>
      (* raise last_exception *)
      match last_exception with
      | Some e => (Raise e, w)
      | None => (Raise (TypeError "exceptions must derive from BaseException"), w)
      end
  | attempt :: rest =>
      match func w with
      | (Return r, w1) => (Return r, w1)
      | (Raise e, w1) =>
          if isinstance e "Exception" then
            if decide (attempt = max_attempts cfg - 1) then (Raise e, w1)
            else
              let delay := backoff_delay cfg attempt in
              let '(delay, w2) :=
                if jitter cfg
                then let '(r, w') := random w1 in
                     ((delay * jitter_factor r)%Q, w')
                else (delay, w1) in
              match sleep delay w2 with
              | (Return _, w3) => retry_loop cfg func rest (Some e) w3
              | (Raise e', w3) => (Raise e', w3)
              end
          else (Raise e, w1)
      end
  end.

Definition retry_with_backoff {A} (cfg : RetryConfig) (func : Callable A)
    : Callable A :=
  fun w => retry_loop cfg func (range (max_attempts cfg)) None w.

(** *** [ErrorHandler] *)

(** [get_circuit_breaker]: the name of the breaker and the world in which
    it is registered. *)
Definition get_circuit_breaker (name : string)
    (cfg : option CircuitBreakerConfig) (w : World) : World :=
  match circuit_breakers (error_handler w) !! name with
  | Some _ => w
  | None =>
      set_breaker name
        (CircuitBreaker_init (default CircuitBreakerConfig_default cfg)) w
  end.

(** [stats['errors'][-100:]] *)
Definition last_100 {A} (l : list A) : list A := drop (length l - 100)%nat l.

(** [record_error] *)
Definition record_error (error_type : string) (e : exn)
    (ctx : list (string * string)) (w : World) : World :=
  let h := error_handler w in
  let stats := default (mkErrorStats 0 None []) (error_stats h !! error_type) in
  let errs := errors stats ++ [mkErrorEntry (clock w) (message e) ctx] in
  let errs := if decide (100 < length errs)%nat then last_100 errs else errs in
  let stats' := mkErrorStats (count stats + 1) (Some (clock w)) errs in
  set_error_handler
    (mkErrorHandler (circuit_breakers h) (<[error_type := stats']> (error_stats h)))
    w.

(** [reset_circuit_breaker] *)
Definition reset_circuit_breaker (name : string) (w : World) : World :=
  update_breaker name
    (fun cb => mkCircuitBreaker (config cb) 0 None CLOSED) w.

(** [handle_tts_errors], for a function called [fname] called with the
    arguments printed as [args] and [kwargs]. *)
Definition handle_tts_errors {A} (fname args kwargs : string)
    (func : Callable A) : Callable A :=
  fun w =>
    match func w with
    | (Return r, w1) => (Return r, w1)
    | (Raise e, w1) =>
        if isinstance e "Exception"
        then (Raise e,
              record_error (type_name e) e
                [("function", fname); ("args", args); ("kwargs", kwargs)] w1)
        else (Raise e, w1)
    end.

(** [safe_tts_call]; [func] stands for the function applied to the
    arguments it was given, which is what the inner [safe_func] runs. *)
Definition safe_tts_call {A} (func : Callable A) : Callable A :=
  fun w =>
    let w := get_circuit_breaker "tts_api" None w in
    retry_with_backoff (mkRetryConfig 3 1 60 2 true)
      (call "tts_api" (handle_tts_errors "safe_func" "()" "{}" func)) w.

End ErrorHandler.

(** ** Paths and files *)

Module Pathlib.

(** [s.split('/')] *)
Fixpoint components (s : string) : list string :=
  match s with
  | EmptyString => [EmptyString]
  | String a s' =>
      if bool_decide (a = "/"%char) then EmptyString :: components s'
      else match components s' with
           | c :: cs => String a c :: cs
           | [] => [String a EmptyString]
           end
  end.

Fixpoint leading_slashes (s : string) : nat :=
  match s with
  | String a s' => if bool_decide (a = "/"%char) then S (leading_slashes s') else O
  | EmptyString => O
  end.

(** A [pathlib.PurePosixPath]: its root and its parts after the root. *)
Record Path := mkPath { root : string; parts : list string }.

(** [Path(s)]: empty components and "." components are dropped; exactly
    two leading slashes are kept as the root "//", one or more than two
    give the root "/". *)
Definition Path_of (s : string) : Path :=
  mkPath
    (match leading_slashes s with
     | O => ""
     | 2%nat => "//"
     | _ => "/"
     end)
    (filter (fun c => c ≠ "" ∧ c ≠ ".") (components s)).

Fixpoint join_slash (l : list string) : string :=
  match l with
  | [] => ""
  | [c] => c
  | c :: cs => c +:+ "/" +:+ join_slash cs
  end.

(** [str(p)] *)
Definition str (p : Path) : string :=
  match root p, parts p with
  | EmptyString, [] => "."
  | r, ps => r +:+ join_slash ps
  end.

(** [p / name] *)
Definition joinpath (p : Path) (name : string) : Path :=
  let q := Path_of name in
  if bool_decide (root q = "") then mkPath (root p) (parts p ++ parts q) else q.

(** The files of the storage: the text of a path that names a file, and
    the content of the file.  Two texts that reach one file through
    "..", a link or the working directory are not identified. *)
Abbreviation Files := (gmap string string).

(** [p.exists()] *)
Definition exists_ (fs : Files) (p : Path) : bool :=
  bool_decide (is_Some (fs !! str p)).

(** [shutil.copy2(src, dst)] of a file that exists; a missing source
    raises and leaves the storage as it is. *)
Definition copy2 (src dst : Path) (fs : Files) : outcome unit * Files :=
  match fs !! str src with
  | Some content => (Return tt, <[str dst := content]> fs)
  | None => (Raise (Exn ["FileNotFoundError"; "OSError"; "Exception"; "BaseException"]
                        (str src)), fs)
  end.

(** [with open(p, "wb") as out: out.write(content)] *)
Definition write_bytes (p : Path) (content : string) (fs : Files) : Files :=
  <[str p := content]> fs.

End Pathlib.

(** ** [tts_batch_processor.py]: the result cache *)

Module AudioCache.

Import Pathlib.

(** A row of the table [audio_cache]. *)
Record CacheRow := mkCacheRow {
  sentence_hash : string;     (* TEXT PRIMARY KEY *)
  voice_name : string;
  audio_format : string;
  sample_rate : Z;
  file_path : string;
  created_at : Q              (* DEFAULT CURRENT_TIMESTAMP *)
}.

(** The table, rows in insertion order. *)
Abbreviation Table := (list CacheRow).

(** [SELECT ... WHERE sentence_hash = ?] followed by [fetchone()] *)
Definition select_one (h : string) (t : Table) : option CacheRow :=
  head (filter (fun r => sentence_hash r = h) t).

(** [DELETE FROM audio_cache WHERE sentence_hash = ?] *)
Definition delete_where (h : string) (t : Table) : Table :=
  filter (fun r => sentence_hash r ≠ h) t.

(** [INSERT OR REPLACE]: the row that holds the same primary key, if
    any, is deleted and the new row is inserted. *)
Definition insert_or_replace (r : CacheRow) (t : Table) : Table :=
  delete_where (sentence_hash r) t ++ [r].

Section WithHash.

(** [hashlib.sha256(b).hexdigest()] *)
Variable sha256_hexdigest : string -> string.

(** [_get_sentence_hash] *)
Definition _get_sentence_hash (sentence voice_name audio_format : string)
    (sample_rate : Z) : string :=
  sha256_hexdigest
    (sentence +:+ "|" +:+ voice_name +:+ "|" +:+ audio_format +:+ "|"
       +:+ pretty sample_rate).

(** [get_cached_audio]: the result and the table it leaves. *)
Definition get_cached_audio (sentence voice_name audio_format : string)
    (sample_rate : Z) (fs : Files) (t : Table) : option string * Table :=
  let h := _get_sentence_hash sentence voice_name audio_format sample_rate in
  match select_one h t with
  | Some result =>
      let file_path := Path_of (file_path result) in
      if exists_ fs file_path then (Some (str file_path), t)
      else (None, delete_where h t)
  | None => (None, t)
  end.

(** [cache_audio], at time [now]. *)
Definition cache_audio (sentence voice_name audio_format : string)
    (sample_rate : Z) (file_path : string) (now : Q) (t : Table) : Table :=
  let h := _get_sentence_hash sentence voice_name audio_format sample_rate in
  insert_or_replace
    (mkCacheRow h voice_name audio_format sample_rate file_path now) t.

End WithHash.

End AudioCache.

(** ** The checkpoint store *)

Module CheckpointManager.

(** The dict written by [save_checkpoint]. *)
Record checkpoint_data := mkCheckpointData {
  cp_processed_indices : list Z;
  cp_total_count : Z;
  cp_timestamp : Q
}.

(** What [checkpoint_file] holds: nothing, the whole JSON text of a
    checkpoint, or a text from which [json.load] or the lookup of the
    two keys raises (such as the empty text left by [open(..., 'w')], or
    a part of a JSON text). *)
Inductive CheckpointFile :=
| Absent
| Unreadable
| Written (data : checkpoint_data).

(** The states of the file during [save_checkpoint], in order: as it
    was found; after [open(self.checkpoint_file, 'w')], which empties
    the file; after [json.dump] and the close of the file. *)
Definition save_checkpoint_steps (processed_indices : gset Z)
    (total_count : Z) (now : Q) (file : CheckpointFile)
    : list CheckpointFile :=
  [ file;
    Unreadable;
    Written (mkCheckpointData (elements processed_indices) total_count now) ].

(** [save_checkpoint], at time [now], run to its end. *)
Definition save_checkpoint (processed_indices : gset Z) (total_count : Z)
    (now : Q) (file : CheckpointFile) : CheckpointFile :=
  Written (mkCheckpointData (elements processed_indices) total_count now).

(** [load_checkpoint] *)
Definition load_checkpoint (file : CheckpointFile) : gset Z * Z :=
  match file with
  | Absent => (∅, 0)
  | Unreadable => (∅, 0)
  | Written data => (list_to_set (cp_processed_indices data), cp_total_count data)
  end.

(** [clear_checkpoint] *)
Definition clear_checkpoint (file : CheckpointFile) : CheckpointFile := Absent.

End CheckpointManager.

(** ** The batch planner *)

Module IntelligentBatcher.

(** [_calculate_complexity_score] *)
Definition _calculate_complexity_score (sentence : string) : Q :=
  (0 + inject_Z (py_len sentence) * (1 # 10)
     + inject_Z (py_count sentence "。" * 5)
     + inject_Z (py_count sentence "、" * 2)
     + inject_Z (py_count sentence "「" * 3)
     + inject_Z (py_count sentence "」" * 3))%Q.

(** An element of [sentence_scores]. *)
Abbreviation Scored := (Z * string * Q)%type.

Definition score_of (x : Scored) : Q := snd x.

(** [sentence_scores.sort(key=lambda x: x[2], reverse=True)]: the sort
    is stable, elements of equal score keep their order. *)
Fixpoint insert_desc (x : Scored) (l : list Scored) : list Scored :=
  match l with
  | [] => [x]
  | y :: l' =>
      if Qlt_le_dec (score_of x) (score_of y) then y :: insert_desc x l'
      else x :: y :: l'
  end.

Fixpoint sort_desc (l : list Scored) : list Scored :=
  match l with
  | [] => []
  | x :: l' => insert_desc x (sort_desc l')
  end.

(** The loop [for i, sentence in enumerate(sentences)], [i] from
    [start]. *)
Fixpoint score_sentences (start : Z) (sentences : list string) : list Scored :=
  match sentences with
  | [] => []
  | sentence :: rest =>
      (start + 1, sentence, _calculate_complexity_score sentence)
        :: score_sentences (start + 1) rest
  end.

Abbreviation Batch := (list (Z * string)).

(** [if current_batch: batches.append(current_batch)] *)
Definition append_if_any (batches : list Batch) (current_batch : Batch)
    : list Batch :=
  match current_batch with
  | [] => batches
  | _ => batches ++ [current_batch]
  end.

(** The loop [for index, sentence, score in sentence_scores] and the
    statements after it. *)
Fixpoint pack (max_batch_size : Z) (items : list Scored)
    (batches : list Batch) (current_batch : Batch) (current_batch_score : Q)
    : list Batch :=
  match items with
  | [] => append_if_any batches current_batch
  | (index, sentence, score) :: rest =>
      if bool_decide (max_batch_size <= Z.of_nat (length current_batch))
         || (if Qlt_le_dec 100 current_batch_score then true else false)
      then pack max_batch_size rest (append_if_any batches current_batch)
                [(index, sentence)] score
      else pack max_batch_size rest batches
                (current_batch ++ [(index, sentence)])
                (current_batch_score + score)%Q
  end.

(** [create_optimized_batches] *)
Definition create_optimized_batches (max_batch_size : Z)
    (sentences : list string) : list Batch :=
  match sentences with
  | [] => []
  | _ => pack max_batch_size (sort_desc (score_sentences 0 sentences)) [] [] 0%Q
  end.

End IntelligentBatcher.

(** ** The voice rotator *)

Module VoiceRotator.

(** The attributes of a [VoiceRotator]; [cycle_position] is the number
    of voices already taken from [voice_cycle]. *)
Record VoiceRotator := mkVoiceRotator {
  rotation_enabled : bool;
  language_code : string;
  available_voices : list string;
  cycle_position : nat;
  current_voice_index : Z
}.

(** [self.voice_sets] *)
Definition voice_sets : list (string * list string) :=
  [ ("en-US", ["en-US-Neural2-A"; "en-US-Neural2-C"; "en-US-Neural2-D";
               "en-US-Neural2-E"; "en-US-Neural2-F"; "en-US-Neural2-G";
               "en-US-Neural2-H"; "en-US-Neural2-I"; "en-US-Neural2-J"]);
    ("ja-JP", ["ja-JP-Neural2-B"; "ja-JP-Neural2-C"; "ja-JP-Neural2-D";
               "ja-JP-Neural2-E"]);
    ("es-ES", ["es-ES-Neural2-A"; "es-ES-Neural2-B"; "es-ES-Neural2-C";
               "es-ES-Neural2-D"]);
    ("fr-FR", ["fr-FR-Neural2-A"; "fr-FR-Neural2-B"; "fr-FR-Neural2-C";
               "fr-FR-Neural2-D"]);
    ("de-DE", ["de-DE-Neural2-A"; "de-DE-Neural2-B"; "de-DE-Neural2-C";
               "de-DE-Neural2-D"]) ].

Definition voices_of (language_code : string) : option (list string) :=
  snd <$> head (filter (fun kv => fst kv = language_code) voice_sets).

(** [VoiceRotator.__init__] *)
Definition VoiceRotator_init (rotation_enabled : bool) (language_code : string)
    : VoiceRotator :=
  mkVoiceRotator rotation_enabled language_code
    (default (default [] (voices_of "en-US")) (voices_of language_code))
    0 0.

(** [get_next_voice] *)
Definition get_next_voice (r : VoiceRotator) : outcome string * VoiceRotator :=
  if negb (rotation_enabled r) then
    match available_voices r with
    | v :: _ => (Return v, r)
    | [] => (Raise (Exn ["IndexError"; "LookupError"; "Exception"; "BaseException"]
                        "list index out of range"), r)
    end
  else
    match available_voices r with
    | [] => (Raise (Exn ["StopIteration"; "Exception"; "BaseException"] ""), r)
    | v0 :: _ =>
        let n := length (available_voices r) in
        (Return (default v0 (available_voices r !! (cycle_position r mod n)%nat)),
         mkVoiceRotator (rotation_enabled r) (language_code r)
           (available_voices r) (S (cycle_position r))
           ((current_voice_index r + 1) `mod` Z.of_nat n))
    end.

(** [l[i]] on a list: a negative index counts from the end; [None]
    stands for the [IndexError] of an index out of range. *)
Definition py_getitem {B} (l : list B) (i : Z) : option B :=
  if bool_decide (0 <= i) then l !! Z.to_nat i
  else if bool_decide (- Z.of_nat (length l) <= i)
       then l !! Z.to_nat (Z.of_nat (length l) + i)
       else None.

Definition IndexError : exn :=
  Exn ["IndexError"; "LookupError"; "Exception"; "BaseException"]
      "list index out of range".

(** [get_current_voice] *)
Definition get_current_voice (r : VoiceRotator) : outcome string :=
  if negb (rotation_enabled r) then
    match available_voices r with
    | v :: _ => Return v
    | [] => Raise IndexError
    end
  else
    match py_getitem (available_voices r) (current_voice_index r) with
    | Some v => Return v
    | None => Raise IndexError
    end.

(** [get_available_voices] *)
Definition get_available_voices (r : VoiceRotator) : list string :=
  available_voices r.

(** [set_rotation_enabled] *)
Definition set_rotation_enabled (enabled : bool) (r : VoiceRotator) : VoiceRotator :=
  mkVoiceRotator enabled (language_code r) (available_voices r)
    (cycle_position r) (current_voice_index r).

End VoiceRotator.

(** ** The orchestrator *)

Module AdvancedTTSProcessor.

Import ErrorHandler Pathlib AudioCache CheckpointManager.

Record UltraProcessingConfig := mkUltraProcessingConfig {
  cfg_voice_name : string;
  cfg_audio_format : string;
  cfg_sample_rate : Z;
  delay : Q;
  max_workers : Z;
  batch_size : Z;
  retry_attempts : Z;
  retry_delay : Q;
  enable_caching : bool;
  enable_async : bool;
  connection_pool_size : Z;
  max_concurrent_requests : Z;
  intelligent_batching : bool;
  resume_from_checkpoint : bool;
  checkpoint_interval : Z;
  voice_rotation_enabled : bool
}.

(** The defaults of the dataclass. *)
Definition UltraProcessingConfig_default : UltraProcessingConfig :=
  mkUltraProcessingConfig "en-US-Neural2-A" "MP3" 24000 (5 # 100) 5 20 3 (1 # 2)
    true true 10 15 true true 50 true.

Inductive AudioEncoding := MP3 | LINEAR16 | OGG_OPUS.

(** The arguments of one [client.synthesize_speech] call. *)
Record SynthesisRequest := mkSynthesisRequest {
  req_text : string;
  req_language_code : string;
  req_voice : string;
  req_encoding : AudioEncoding;
  req_sample_rate_hertz : Z
}.

(** The external provider: what [synthesize_speech] does with a request
    at its [k]-th invocation, the audio content or an error. *)
Definition Client : Type := SynthesisRequest -> nat -> outcome string.

(** The attributes of an [AdvancedTTSProcessor].  [cache] and
    [checkpoint_manager] tell whether the attribute holds an object or
    [None]; [batcher] holds the [max_batch_size] of the batcher.  An
    attribute that may be missing from the object is an [option]. *)
Record Processor := mkProcessor {
  output_dir : Path;
  config : UltraProcessingConfig;
  cache : bool;
  checkpoint_manager : bool;
  batcher : option Z;
  voice_rotator : VoiceRotator.VoiceRotator;
  client : Client;
  processed_indices : gset Z;
  attr_language_code : option string;
  attr_sentences : option (list string)
}.

(** [__init__], [client] being the provider client it creates. *)
Definition __init__ (output_dir : string) (config : UltraProcessingConfig)
    (client : Client) : Processor :=
  mkProcessor (Path_of output_dir) config
    (enable_caching config)
    (resume_from_checkpoint config)
    (if intelligent_batching config then Some (batch_size config) else None)
    (VoiceRotator.VoiceRotator_init (voice_rotation_enabled config) "en-US")
    client ∅ None None.

(** The storage: the files, the table of the cache data base and the
    checkpoint file. *)
Record Storage := mkStorage {
  files : Files;
  audio_cache : Table;
  checkpoint_file : CheckpointFile
}.

Record State := mkState {
  self : Processor;
  storage : Storage;
  world : World
}.

Definition set_self (p : Processor) (st : State) : State :=
  mkState p (storage st) (world st).
Definition set_storage (s : Storage) (st : State) : State :=
  mkState (self st) s (world st).
Definition set_world (w : World) (st : State) : State :=
  mkState (self st) (storage st) w.
Definition set_voice_rotator (r : VoiceRotator.VoiceRotator) (p : Processor)
    : Processor :=
  mkProcessor (output_dir p) (config p) (cache p) (checkpoint_manager p)
    (batcher p) r (client p) (processed_indices p) (attr_language_code p)
    (attr_sentences p).
Definition set_processed_indices (s : gset Z) (p : Processor) : Processor :=
  mkProcessor (output_dir p) (config p) (cache p) (checkpoint_manager p)
    (batcher p) (voice_rotator p) (client p) s (attr_language_code p)
    (attr_sentences p).
Definition set_sentences (l : list string) (p : Processor) : Processor :=
  mkProcessor (output_dir p) (config p) (cache p) (checkpoint_manager p)
    (batcher p) (voice_rotator p) (client p) (processed_indices p)
    (attr_language_code p) (Some l).
Definition set_language_code (lc : string) (p : Processor) : Processor :=
  mkProcessor (output_dir p) (config p) (cache p) (checkpoint_manager p)
    (batcher p) (voice_rotator p) (client p) (processed_indices p)
    (Some lc) (attr_sentences p).
Definition set_checkpoint_file (f : CheckpointFile) (s : Storage) : Storage :=
  mkStorage (files s) (audio_cache s) f.

(** [get_audio_encoding] *)
Definition get_audio_encoding (p : Processor) : AudioEncoding :=
  let f := upper (cfg_audio_format (config p)) in
  if bool_decide (f = "MP3") then MP3
  else if bool_decide (f = "WAV") then LINEAR16
  else if bool_decide (f = "OGG") then OGG_OPUS
  else if bool_decide (f = "FLAC") then MP3
  else MP3.

(** [self.client.synthesize_speech(...)]: one more invocation of the
    provider. *)
Definition synthesize_speech (req : SynthesisRequest) (st : State)
    : outcome string * State :=
  let w := world st in
  (client (self st) req (invoked w),
   set_world (mkWorld (clock w) (entropy w) (drawn w) (slept w)
                      (S (invoked w)) (error_handler w)) st).


Section WithExternals.

(** [hashlib.sha256(b).hexdigest()] *)
Variable sha256_hexdigest : string -> string.

(** [_create_safe_filename]: the name of the output file of a sentence.
    Nothing below depends on how the name is derived. *)
Variable _create_safe_filename : string -> Z -> string.

(** [s.strip()] *)
Variable strip : string -> string.

(** [self.output_dir / f"{safe_filename}.{self.config.audio_format.lower()}"] *)
Definition output_path_of (p : Processor) (safe_filename : string) : Path :=
  joinpath (output_dir p)
    (safe_filename +:+ "." +:+ lower (cfg_audio_format (config p))).

(** The body of the [try] of [synthesize_sentence_ultra]. *)
Definition try_synthesis (sentence current_voice safe_filename : string)
    (st : State) : outcome string * State :=
  let p := self st in
  match attr_language_code p with
  | None =>
      (Raise (AttributeError
         "'AdvancedTTSProcessor' object has no attribute 'language_code'"), st)
  | Some language_code =>
      let req := mkSynthesisRequest sentence language_code current_voice
                   (get_audio_encoding p) (cfg_sample_rate (config p)) in
      match synthesize_speech req st with
      | (Raise e, st1) => (Raise e, st1)
      | (Return audio_content, st1) =>
          let filepath := output_path_of p safe_filename in
          let sto := storage st1 in
          let fs := write_bytes filepath audio_content (files sto) in
          let tbl :=
            if cache p
            then cache_audio sha256_hexdigest sentence current_voice
                   (cfg_audio_format (config p)) (cfg_sample_rate (config p))
                   (str filepath) (clock (world st1)) (audio_cache sto)
            else audio_cache sto in
          (Return (str filepath),
           set_storage (mkStorage fs tbl (checkpoint_file sto)) st1)
      end
  end.

Definition sleep_in (d : Q) (st : State) : outcome unit * State :=
  let '(r, w) := sleep d (world st) in (r, set_world w st).

(** The loop [for attempt in range(self.config.retry_attempts)] and the
    [return None] after it. *)
Fixpoint synthesis_loop (sentence current_voice safe_filename : string)
    (attempts : list Z) (st : State) : outcome (option string) * State :=
  match attempts with
  | [] => (Return None, st)
  | attempt :: rest =>
      match try_synthesis sentence current_voice safe_filename st with
      | (Return filepath, st1) => (Return (Some filepath), st1)
      | (Raise e, st1) =>
          let cfg := config (self st1) in
          if isinstance e "GoogleAPIError" then
            if contains (lower (message e)) "quota"
               || contains (lower (message e)) "rate"
            then
              match sleep_in (retry_delay cfg * inject_Z (2 ^ attempt))%Q st1 with
              | (Return _, st2) =>
                  synthesis_loop sentence current_voice safe_filename rest st2
              | (Raise e', st2) => (Raise e', st2)
              end
            else (Return None, st1)
          else if isinstance e "Exception" then
            if bool_decide (attempt < retry_attempts cfg - 1) then
              match sleep_in (retry_delay cfg) st1 with
              | (Return _, st2) =>
                  synthesis_loop sentence current_voice safe_filename rest st2
              | (Raise e', st2) => (Raise e', st2)
              end
            else (Return None, st1)
          else (Raise e, st1)
      end
  end.

(** [synthesize_sentence_ultra] *)
Definition synthesize_sentence_ultra (sentence : string) (index : Z)
    (st : State) : outcome (option string) * State :=
  let p := self st in
  match VoiceRotator.get_next_voice (voice_rotator p) with
  | (Raise e, r) => (Raise e, set_self (set_voice_rotator r p) st)
  | (Return current_voice, r) =>
      let st := set_self (set_voice_rotator r p) st in
      let p := self st in
      let safe_filename := _create_safe_filename sentence index in
      let miss st :=
        synthesis_loop sentence current_voice safe_filename
          (range (retry_attempts (config p))) st in
      if cache p then
        let sto := storage st in
        let '(cached_file, tbl) :=
          get_cached_audio sha256_hexdigest sentence current_voice
            (cfg_audio_format (config p)) (cfg_sample_rate (config p))
            (files sto) (audio_cache sto) in
        let st := set_storage (mkStorage (files sto) tbl (checkpoint_file sto)) st in
        match cached_file with
        | Some cached_file =>
            if bool_decide (cached_file = "") then miss st
            else
              let cached_path := Path_of cached_file in
              let output_path := output_path_of p safe_filename in
              if exists_ (files (storage st)) output_path
              then (Return (Some (str output_path)), st)
              else
                match copy2 cached_path output_path (files (storage st)) with
                | (Return _, fs) =>
                    (Return (Some (str output_path)),
                     set_storage (mkStorage fs tbl (checkpoint_file sto)) st)
                | (Raise e, fs) => (Raise e, st)
                end
        | None => miss st
        end
      else miss st
  end.

(** *** Batches *)

Inductive Status := success | failed.

(** An element of the list returned by [process_batch_ultra_async]. *)
Record ItemResult := mkItemResult {
  r_index : Z;
  r_sentence : string;
  r_filepath : option string;
  r_status : Status;
  r_error : option string
}.

(** [next(s for i, s in batch if i == index)] *)
Definition sentence_of (batch : IntelligentBatcher.Batch) (index : Z) : string :=
  default "" (snd <$> head (filter (fun it => fst it = index) batch)).

(** [process_batch_ultra_async].  The pool runs the items of a batch
    concurrently and yields them as they complete; here they run and
    complete one after the other, in the order of the batch.  An
    exception of a task that is not an [Exception] leaves the
    function. *)
Fixpoint collect_results (batch todo : IntelligentBatcher.Batch)
    (results : list ItemResult) (st : State)
    : outcome (list ItemResult) * State :=
  match todo with
  | [] => (Return results, st)
  | (index, sentence) :: rest =>
      let sentence' := sentence_of batch index in
      match synthesize_sentence_ultra sentence index st with
      | (Return (Some filepath), st1) =>
          let r := if bool_decide (filepath = "")
                   then mkItemResult index sentence' None failed None
                   else mkItemResult index sentence' (Some filepath) success None in
          collect_results batch rest (results ++ [r]) st1
      | (Return None, st1) =>
          collect_results batch rest
            (results ++ [mkItemResult index sentence' None failed None]) st1
      | (Raise e, st1) =>
          if isinstance e "Exception" then
            collect_results batch rest
              (results ++ [mkItemResult index sentence' None failed
                                        (Some (message e))]) st1
          else (Raise e, st1)
      end
  end.

Definition process_batch_ultra_async (batch : IntelligentBatcher.Batch)
    (st : State) : outcome (list ItemResult) * State :=
  collect_results batch batch [] st.

(** The dict [results] of [process_batch_ultra], without its timing
    entries. *)
Record Results := mkResults {
  total : Z;
  successful : Z;
  failed_count : Z;
  result_files : list ItemResult;
  result_errors : list string
}.

(** The loop [for result in batch_results] *)
Fixpoint merge_results (batch_results : list ItemResult) (results : Results)
    (processed : gset Z) : Results * gset Z :=
  match batch_results with
  | [] => (results, processed)
  | result :: rest =>
      match r_status result with
      | success =>
          merge_results rest
            (mkResults (total results) (successful results + 1)
               (failed_count results) (result_files results ++ [result])
               (result_errors results))
            (processed ∪ {[ r_index result ]})
      | failed =>
          merge_results rest
            (mkResults (total results) (successful results)
               (failed_count results + 1) (result_files results)
               (result_errors results
                  ++ ["Index " +:+ pretty (r_index result) +:+ ": "
                        +:+ r_sentence result]))
            processed
      end
  end.

(** The simple batching of [process_batch_ultra]:
    [for i in range(0, len(sentences), batch_size)], over the sentences
    from position [i] on. *)
Fixpoint slice_batches (fuel : nat) (batch_size : nat) (i : Z)
    (sentences : list string) : list IntelligentBatcher.Batch :=
  match fuel, sentences with
  | O, _ | _, [] => []
  | S fuel', _ =>
      imap (fun j sentence => (i + Z.of_nat j + 1, strip sentence))
           (take batch_size sentences)
        :: slice_batches fuel' batch_size (i + Z.of_nat batch_size)
             (drop batch_size sentences)
  end.

Definition simple_batches (batch_size : Z) (sentences : list string)
    : outcome (list IntelligentBatcher.Batch) :=
  if bool_decide (batch_size = 0)
  then Raise (ValueError "range() arg 3 must not be zero")
  else if bool_decide (batch_size < 0) then Return []
  else Return (slice_batches (length sentences) (Z.to_nat batch_size) 0 sentences).

(** The statements of [process_batch_ultra] before its loop: the
    checkpoint is loaded and the batches are made. *)
Definition start_run (sentences : list string) (st : State)
    : outcome (list IntelligentBatcher.Batch) * State :=
  let st := set_self (set_sentences sentences (self st)) st in
  let st :=
    if checkpoint_manager (self st) then
      let '(processed_indices, total_count) :=
        load_checkpoint (checkpoint_file (storage st)) in
      if bool_decide (processed_indices ≠ ∅)
         && bool_decide (total_count = Z.of_nat (length sentences))
      then set_self (set_processed_indices processed_indices (self st)) st
      else set_storage
             (set_checkpoint_file
                (clear_checkpoint (checkpoint_file (storage st))) (storage st)) st
    else st in
  match batcher (self st) with
  | Some max_batch_size =>
      (Return (IntelligentBatcher.create_optimized_batches max_batch_size sentences),
       st)
  | None => (simple_batches (batch_size (config (self st))) sentences, st)
  end.

(** One turn of the loop [for batch_num, batch in enumerate(batches, 1)];
    [n_batches] is [len(batches)] and [n_sentences] is
    [len(sentences)]. *)
Definition process_one_batch (n_batches n_sentences : Z) (batch_num : Z)
    (batch : IntelligentBatcher.Batch) (results : Results) (st : State)
    : outcome Results * State :=
  let batch :=
    if checkpoint_manager (self st)
    then filter (fun it => fst it ∉ processed_indices (self st)) batch
    else batch in
  if checkpoint_manager (self st) && bool_decide (batch = [])
  then (Return results, st)
  else
    match process_batch_ultra_async batch st with
    | (Raise e, st1) => (Raise e, st1)
    | (Return batch_results, st1) =>
        let '(results, processed) :=
          merge_results batch_results results (processed_indices (self st1)) in
        let st2 := set_self (set_processed_indices processed (self st1)) st1 in
        let cfg := config (self st2) in
        let saved :=
          if checkpoint_manager (self st2) then
            if bool_decide (checkpoint_interval cfg = 0)
            then Raise (Exn ["ZeroDivisionError"; "ArithmeticError"; "Exception";
                             "BaseException"]
                            "integer division or modulo by zero")
            else if bool_decide (batch_num `mod` checkpoint_interval cfg = 0)
            then Return
                   (set_storage
                      (set_checkpoint_file
                         (save_checkpoint (processed_indices (self st2))
                            n_sentences (clock (world st2))
                            (checkpoint_file (storage st2)))
                         (storage st2)) st2)
            else Return st2
          else Return st2 in
        match saved with
        | Raise e => (Raise e, st2)
        | Return st3 =>
            if (if Qlt_le_dec 0 (delay cfg) then true else false)
               && bool_decide (batch_num < n_batches)
            then
              match sleep_in (delay cfg) st3 with
              | (Return _, st4) => (Return results, st4)
              | (Raise e, st4) => (Raise e, st4)
              end
            else (Return results, st3)
        end
    end.

(** The loop over the batches still to be processed, numbered from
    [batch_num]. *)
Fixpoint process_batches (n_batches n_sentences : Z) (batch_num : Z)
    (batches : list IntelligentBatcher.Batch) (results : Results) (st : State)
    : outcome Results * State :=
  match batches with
  | [] => (Return results, st)
  | batch :: rest =>
      match process_one_batch n_batches n_sentences batch_num batch results st with
      | (Return results, st1) =>
          process_batches n_batches n_sentences (batch_num + 1) rest results st1
      | (Raise e, st1) => (Raise e, st1)
      end
  end.

(** The statements of [process_batch_ultra] after its loop. *)
Definition finish_run (results : Results) (st : State) : Results * State :=
  (results,
   if checkpoint_manager (self st)
   then set_storage
          (set_checkpoint_file
             (clear_checkpoint (checkpoint_file (storage st))) (storage st)) st
   else st).

Definition empty_results (sentences : list string) : Results :=
  mkResults (Z.of_nat (length sentences)) 0 0 [] [].

(** [process_batch_ultra] *)
Definition process_batch_ultra (sentences : list string) (st : State)
    : outcome Results * State :=
  match start_run sentences st with
  | (Raise e, st1) => (Raise e, st1)
  | (Return batches, st1) =>
      let n := Z.of_nat (length sentences) in
      match process_batches (Z.of_nat (length batches)) n 1 batches
              (empty_results sentences) st1 with
      | (Raise e, st2) => (Raise e, st2)
      | (Return results, st2) =>
          let '(results, st3) := finish_run results st2 in
          (Return results, st3)
      end
  end.



End WithExternals.

End AdvancedTTSProcessor.

(** ** Texts as code points: file names and input files *)

Module Text.

(** In this module a [str] is the list of its code points, which is what
    [len], slicing, [strip] and [re.sub] work on. *)
Abbreviation text := (list N).

(** The code points of a text of ASCII characters. *)
Definition of_ascii (s : string) : text :=
  N_of_ascii <$> String.list_ascii_of_string s.

(** [c.isspace()], which is also the class [\s] of [re] on a [str]
    pattern and what [strip()] removes: the code points of bidirectional
    type WS, B or S or of category Zs. *)
Definition isspace (c : N) : bool :=
  bool_decide (c ∈ [9; 10; 11; 12; 13; 28; 29; 30; 31; 32; 133; 160; 5760;
                    8232; 8233; 8239; 8287; 12288]%N)
  || ((8192 <=? c) && (c <=? 8202))%N.

(** [s.lstrip(chars)], [s.rstrip(chars)] and [s.strip(chars)], the
    characters to remove given as a test. *)
Fixpoint lstrip_by (p : N -> bool) (s : text) : text :=
  match s with
  | c :: s' => if p c then lstrip_by p s' else s
  | [] => []
  end.

Definition rstrip_by (p : N -> bool) (s : text) : text :=
  reverse (lstrip_by p (reverse s)).

Definition strip_by (p : N -> bool) (s : text) : text :=
  rstrip_by p (lstrip_by p s).

(** [s.strip()] *)
Definition strip (s : text) : text := strip_by isspace s.

(** [s.isspace()] *)
Definition all_space (s : text) : bool :=
  forallb isspace s && negb (bool_decide (s = [])).

(** [f"{index:04d}"]: the decimal digits of the index, filled with
    zeros on the left up to four characters, a minus sign counting as
    one of them and coming first. *)
Fixpoint zeros (k : nat) : string :=
  match k with
  | O => ""
  | S k' => String "0" (zeros k')
  end.

Definition zfill (width : nat) (digits : string) : string :=
  zeros (width - String.length digits) +:+ digits.

Definition format_04d (index : Z) : string :=
  if bool_decide (index < 0)
  then "-" +:+ zfill 3 (pretty (Z.to_N (- index)))
  else zfill 4 (pretty (Z.to_N index)).

End Text.

Module SafeFilename.

Import Text.

Definition underscore : N := 95%N.

(** The class of the first [re.sub]: the characters [<], [>], [:], the
    double quote, [/], the backslash, [|], [?] and the star. *)
Definition forbidden (c : N) : bool :=
  bool_decide (c ∈ [60; 62; 58; 34; 47; 92; 124; 63; 42]%N).

(** The class of the second [re.sub]: the white space and the
    characters [、], [。], [！], [？], [!] and [?]. *)
Definition separator (c : N) : bool :=
  isspace c || bool_decide (c ∈ [12289; 12290; 65281; 65311; 33; 63]%N).

(** [re.sub(r'_+', '_', s)]: an underscore that another one follows is
    dropped. *)
Fixpoint squeeze (s : text) : text :=
  match s with
  | [] => []
  | c :: s' =>
      if bool_decide (c = underscore) && bool_decide (head s' = Some underscore)
      then squeeze s'
      else c :: squeeze s'
  end.

(** The statements of [_create_safe_filename] before the test for an
    empty name. *)
Definition clean (sentence : text) : text :=
  let sentence := strip sentence in
  let sentence :=
    if bool_decide (100 < length sentence)%nat
    then take 97 sentence ++ of_ascii "..."
    else sentence in
  let sentence := filter (fun c => forbidden c = false) sentence in
  let sentence := (fun c => if separator c then underscore else c) <$> sentence in
  let sentence := squeeze sentence in
  strip_by (fun c => bool_decide (c = underscore)) sentence.

(** [_create_safe_filename] *)
Definition _create_safe_filename (sentence : text) (index : Z) : text :=
  let sentence := clean sentence in
  let sentence :=
    if bool_decide (sentence = []) || all_space sentence
    then of_ascii "sentence_" ++ of_ascii (format_04d index)
    else sentence in
  of_ascii (format_04d index) ++ of_ascii "_" ++ sentence.

End SafeFilename.

Module SentenceFile.

Import Text.

(** The text that reading in text mode gives for the decoded content of
    a file: with the default [newline=None] a carriage return, alone or
    followed by a line feed, is read as a line feed. *)
Fixpoint universal_newlines (content : text) : text :=
  match content with
  | [] => []
  | c :: rest =>
      if bool_decide (c = 13%N)
      then 10%N :: match rest with
                   | d :: rest' =>
                       if bool_decide (d = 10%N) then universal_newlines rest'
                       else universal_newlines rest
                   | [] => []
                   end
      else c :: universal_newlines rest
  end.

(** The lines that iterating over the file gives, each with its line
    end; [line] holds the line being read, backwards. *)
Fixpoint lines_from (line : text) (s : text) : list text :=
  match s with
  | [] => match line with [] => [] | _ => [reverse line] end
  | c :: rest =>
      if bool_decide (c = 10%N)
      then reverse (c :: line) :: lines_from [] rest
      else lines_from (c :: line) rest
  end.

Definition readlines (content : text) : list text :=
  lines_from [] (universal_newlines content).

(** [load_sentences], on the decoded content of the file. *)
Definition load_sentences (content : text) : list text :=
  strip <$> filter (fun line => strip line ≠ []) (readlines content).

End SentenceFile.

(** ** The callers of the orchestrator *)

Module Callers.

Import ErrorHandler Pathlib AudioCache CheckpointManager AdvancedTTSProcessor.

(** The parameters of [AdvancedTTSProcessor.__init__] besides [self]. *)
Definition init_parameters : list string :=
  ["credentials_path"; "output_dir"; "config"].

(** The [TypeError] of a call with a keyword that is no parameter of the
    function.  Its text names the function as the interpreter does,
    [callee]: by its qualified name from CPython 3.10 on, by its name
    before. *)
Definition unexpected_keyword (callee k : string) : exn :=
  TypeError (callee +:+ "() got an unexpected keyword argument '" +:+ k +:+ "'").

(** The call [AdvancedTTSProcessor(...)] with the keyword arguments
    named [keywords]: a keyword that is not a parameter of [__init__]
    raises [TypeError] before the body of [__init__] runs. *)
Definition new_processor (callee : string) (keywords : list string)
    (output_dir : string) (config : UltraProcessingConfig) (client : Client)
    : outcome Processor :=
  match filter (fun k => k ∉ init_parameters) keywords with
  | k :: _ => Raise (unexpected_keyword callee k)
  | [] => Return (__init__ output_dir config client)
  end.

(** *** [web_interface.py]: [process_job] *)







(** *** [tts_batch_processor.py]: [main] *)

(** The result of [parser.parse_args()]. *)
Record Args := mkArgs {
  input_file : string;
  credentials : option string;
  language : string;
  arg_output_dir : string;
  voice : string;
  enable_voice_rotation : bool;
  format : string;
  sample_rate : Z;
  arg_delay : Q;
  arg_max_workers : Z;
  arg_batch_size : Z;
  max_concurrent : Z;
  arg_retry_attempts : Z;
  arg_enable_caching : bool;
  arg_intelligent_batching : bool;
  resume_checkpoint : bool;
  max_sentences : option Z
}.

(** [UltraProcessingConfig(voice_name=args.voice, ...)] *)
Definition main_config (args : Args) : UltraProcessingConfig :=
  mkUltraProcessingConfig (voice args) (format args) (sample_rate args)
    (arg_delay args) (arg_max_workers args) (arg_batch_size args)
    (arg_retry_attempts args) (1 # 2) (arg_enable_caching args) true 10
    (max_concurrent args) (arg_intelligent_batching args) (resume_checkpoint args)
    50 (enable_voice_rotation args).

(** [l[:k]] *)
Definition slice_to {B} (k : Z) (l : list B) : list B :=
  if bool_decide (0 <= k) then take (Z.to_nat k) l
  else take (Z.to_nat (Z.of_nat (length l) + k)) l.

(** [if args.max_sentences: sentences = sentences[:args.max_sentences]] *)
Definition limit_sentences (max_sentences : option Z) (sentences : list string)
    : list string :=
  match max_sentences with
  | Some k => if bool_decide (k = 0) then sentences else slice_to k sentences
  | None => sentences
  end.

(** How [main] ends: after its last statement, in the handler of
    [FileNotFoundError] or in the handler of [Exception]. *)
Inductive MainEnd :=
| Completed
| InputFileNotFound
| ProcessingFailed (e : exn).

Section WithExternals.

Variable sha256_hexdigest : string -> string.
Variable _create_safe_filename : string -> Z -> string.
Variable strip : string -> string.

(** The name of [AdvancedTTSProcessor.__init__] in the text of a
    [TypeError]. *)
Variable init_name : string.


(** The statements of [main] that follow [process_batch_ultra]: the
    results are saved and printed. *)
Variable report : Results -> State -> outcome unit * State.

(** [main] after [parse_args]; [loaded] is what
    [load_sentences(args.input_file)] returns or raises. *)
Definition main (args : Args) (loaded : outcome (list string)) (client : Client)
    (sto : Storage) (w : World) : outcome MainEnd * (Storage * World) :=
  let attempt : outcome unit * (Storage * World) :=
    match loaded with
    | Raise e => (Raise e, (sto, w))
    | Return sentences =>
        let sentences := limit_sentences (max_sentences args) sentences in
        match new_processor init_name
                ["credentials_path"; "output_dir"; "config"; "language_code"]
                (arg_output_dir args) (main_config args) client with
        | Raise e => (Raise e, (sto, w))
        | Return processor =>
            match process_batch_ultra sha256_hexdigest _create_safe_filename strip
                    sentences (mkState processor sto w) with
            | (Raise e, st') => (Raise e, (storage st', world st'))
            | (Return results, st') =>
                let '(r, st'') := report results st' in
                (r, (storage st'', world st''))
            end
        end
    end in
  match attempt with
  | (Return _, s) => (Return Completed, s)
  | (Raise e, s) =>
      if isinstance e "FileNotFoundError" then (Return InputFileNotFound, s)
      else if isinstance e "Exception" then (Return (ProcessingFailed e), s)
      else (Raise e, s)
  end.

End WithExternals.

End Callers.

(** * Properties *)

(** ** The circuit breaker *)

Module CircuitBreakerProps.

Import ErrorHandler.

(** The breaker registered as [name], if any. *)
Definition breaker_at (name : string) (w : World) : option CircuitBreaker :=
  circuit_breakers (error_handler w) !! name.

(** A call made when the clock shows [t]. *)
Definition call_at {A} (name : string) (func : Callable A) (t : Q) (w : World)
    : outcome A * World :=
  call name func (set_clock t w).

(** A wrapped function that leaves the error handler alone. *)
Definition quiet {A} (func : Callable A) : Prop :=
  ∀ w, error_handler (snd (func w)) = error_handler w.

Definition open_error : exn :=
  Exception_ "CircuitBreakerOpenException" "Circuit breaker is OPEN".

Lemma breaker_at_set_clock name t w :
  breaker_at name (set_clock t w) = breaker_at name w.
Proof. reflexivity. Qed.

Lemma breaker_at_set_breaker name cb w :
  breaker_at name (set_breaker name cb w) = Some cb.
Proof. unfold breaker_at, set_breaker; simpl. apply lookup_insert_eq. Qed.

Lemma scripted_quiet {A} (script : nat -> outcome A) : quiet (scripted script).
Proof. intros w. reflexivity. Qed.

(** What a call does to a breaker that lets it through. *)
Lemma call_let_through {A} name (func : Callable A) w cb cb1 :
  quiet func →
  breaker_at name w = Some cb →
  gate_call (clock w) cb = inl cb1 →
  let w1 := set_breaker name cb1 w in
  call name func w =
    match fst (func w1) with
    | Return r =>
        (Return r, set_breaker name (_on_success cb1) (snd (func w1)))
    | Raise e =>
        if isinstance e (expected_exception (config cb))
        then (Raise e, set_breaker name (_on_failure (clock (snd (func w1))) cb1)
                         (snd (func w1)))
        else (Raise e, snd (func w1))
    end.
Proof.
  intros Hq Hcb Hadm w1. unfold call. unfold breaker_at in Hcb.
  rewrite Hcb, Hadm. fold w1.
  assert (Hb : circuit_breakers (error_handler (snd (func w1))) !! name = Some cb1).
  { rewrite Hq. apply (breaker_at_set_breaker name cb1 w). }
  destruct (func w1) as [[r|e] w2]; simpl in *.
  - unfold update_breaker. by rewrite Hb.
  - destruct (isinstance e _); [|done].
    unfold update_breaker. by rewrite Hb.
Qed.

(** A breaker that is not open lets every call through, as it is. *)
Lemma gate_not_open now cb : state cb ≠ OPEN → gate_call now cb = inl cb.
Proof. intros H. unfold gate_call. by destruct (decide (state cb = OPEN)). Qed.

(** A failed call through a closed breaker counts one failure. *)
Lemma closed_call_failure {A} name (func : Callable A) w cb e :
  quiet func →
  breaker_at name w = Some cb →
  state cb = CLOSED →
  fst (call name func w) = Raise e →
  isinstance e (expected_exception (config cb)) = true →
  ∃ t, breaker_at name (snd (call name func w)) = Some (_on_failure t cb).
Proof.
  intros Hq Hcb Hst Hres Hexp.
  rewrite (call_let_through name func w cb cb Hq Hcb) in *;
    [|apply gate_not_open; congruence..].
  destruct (func (set_breaker name cb w)) as [[r|e'] w2]; simpl in *; [done|].
  destruct (isinstance e' _) eqn:He'; simpl in *.
  - eexists. apply breaker_at_set_breaker.
  - congruence.
Qed.

Definition half_open (cb : CircuitBreaker) : CircuitBreaker :=
  mkCircuitBreaker (config cb) (failure_count cb) (last_failure_time cb) HALF_OPEN.

Lemma gate_open_early now cb t :
  state cb = OPEN → last_failure_time cb = Some t →
  (now - t <= recovery_timeout (config cb))%Q →
  gate_call now cb = inr open_error.
Proof.
  intros Hst Hl Hle. unfold gate_call. rewrite Hl.
  destruct (decide (state cb = OPEN)); [|done].
  destruct (Qlt_le_dec _ _) as [Hlt|_]; [|done].
  exfalso. apply (Qlt_not_le _ _ Hlt Hle).
Qed.

Lemma gate_open_late now cb t :
  state cb = OPEN → last_failure_time cb = Some t →
  (recovery_timeout (config cb) < now - t)%Q →
  gate_call now cb = inl (half_open cb).
Proof.
  intros Hst Hl Hlt. unfold gate_call. rewrite Hl.
  destruct (decide (state cb = OPEN)); [|done].
  destruct (Qlt_le_dec _ _) as [_|Hle]; [unfold half_open; by rewrite Hl|].
  exfalso. apply (Qlt_not_le _ _ Hlt Hle).
Qed.

(** A breaker that is not closed has counted at least
    [failure_threshold] failures and has a time of last failure.  The
    property holds of a new breaker and is kept by every call (of a
    function that leaves the error handler alone). *)
Definition tripped_by_count (cb : CircuitBreaker) : Prop :=
  state cb ≠ CLOSED →
  failure_threshold (config cb) <= failure_count cb ∧ is_Some (last_failure_time cb).

Lemma tripped_by_count_init cfg : tripped_by_count (CircuitBreaker_init cfg).
Proof. by intros H. Qed.

Lemma call_keeps_tripped_by_count {A} name (func : Callable A) w cb :
  quiet func →
  breaker_at name w = Some cb →
  tripped_by_count cb →
  ∃ cb', breaker_at name (snd (call name func w)) = Some cb' ∧
         config cb' = config cb ∧ tripped_by_count cb'.
Proof.
  intros Hq Hcb Hwf.
  destruct (gate_call (clock w) cb) as [cb1|e] eqn:Hgate.
  - assert (H1 : config cb1 = config cb ∧ state cb1 ≠ OPEN ∧ tripped_by_count cb1).
    { unfold gate_call in Hgate. destruct (decide (state cb = OPEN)) as [Ho|Hno].
      - destruct (last_failure_time cb) eqn:Hl; [|done].
        destruct (Qlt_le_dec _ _); [|done]. injection Hgate as <-.
        split; [done|]. split; [done|]. intros _. simpl.
        destruct Hwf as [Hc _]; [by rewrite Ho|]. split; [done|by eexists].
      - injection Hgate as <-. done. }
    destruct H1 as (Hcfg & Hno & Hwf1).
    rewrite (call_let_through name func w cb cb1 Hq Hcb Hgate).
    destruct (fst (func (set_breaker name cb1 w))) as [r|e].
    + eexists. split; [apply breaker_at_set_breaker|]. split; [done|].
      unfold tripped_by_count, _on_success; simpl.
      destruct (decide (state cb1 = HALF_OPEN)); [done|].
      intros Hs. by destruct (state cb1).
    + destruct (isinstance e _).
      * eexists. split; [apply breaker_at_set_breaker|]. split; [done|].
        unfold tripped_by_count, _on_failure; simpl.
        destruct (decide (_ <= _)) as [Hge|Hlt].
        -- intros _. split; [done|by eexists].
        -- intros Hs. destruct (Hwf1 Hs) as [Hc _]. lia.
      * exists cb1. split; [|done]. cbn [snd]. unfold breaker_at. rewrite Hq.
        apply (breaker_at_set_breaker name cb1 w).
  - exists cb. split; [|done]. unfold call. unfold breaker_at in Hcb.
    by rewrite Hcb, Hgate.
Qed.

(** C1.  A breaker with [failure_threshold = 3] that starts closed is
    open after three consecutive failed calls (and closed before the
    third).  While it is open and [now - last_failure_time] does not
    exceed [recovery_timeout], every call raises the circuit-open error
    and leaves the world as it is, whatever the wrapped function: the
    function is not invoked.  Once [now - last_failure_time] exceeds
    [recovery_timeout], the next call sets the breaker half-open and
    runs the wrapped function once as a probe; the outcome of the probe
    fixes the next state: a success resets [failure_count] to 0 and
    closes the breaker, a failure opens it again, the failure count
    being at or above the threshold when the breaker became half-open.
    A failed call is one that raises an instance of the breaker's
    [expected_exception]. *)
Theorem circuit_breaker_state_machine {A} (name : string)
    (cfg : CircuitBreakerConfig) :
  failure_threshold cfg = 3 →
  (∀ (f1 f2 f3 : Callable A) t1 t2 t3 e1 e2 e3 w0,
     quiet f1 → quiet f2 → quiet f3 →
     breaker_at name w0 = Some (CircuitBreaker_init cfg) →
     let w1 := snd (call_at name f1 t1 w0) in
     let w2 := snd (call_at name f2 t2 w1) in
     let w3 := snd (call_at name f3 t3 w2) in
     fst (call_at name f1 t1 w0) = Raise e1 →
     isinstance e1 (expected_exception cfg) = true →
     fst (call_at name f2 t2 w1) = Raise e2 →
     isinstance e2 (expected_exception cfg) = true →
     fst (call_at name f3 t3 w2) = Raise e3 →
     isinstance e3 (expected_exception cfg) = true →
     state <$> breaker_at name w1 = Some CLOSED ∧
     state <$> breaker_at name w2 = Some CLOSED ∧
     ∃ t, breaker_at name w3 = Some (mkCircuitBreaker cfg 3 (Some t) OPEN)) ∧
  (∀ (func : Callable A) w cb t,
     breaker_at name w = Some cb → config cb = cfg →
     state cb = OPEN → last_failure_time cb = Some t →
     (clock w - t <= recovery_timeout cfg)%Q →
     call name func w = (Raise open_error, w)) ∧
  (∀ (func : Callable A) w cb t,
     quiet func →
     breaker_at name w = Some cb → config cb = cfg →
     state cb = OPEN → last_failure_time cb = Some t →
     (recovery_timeout cfg < clock w - t)%Q →
     let probe := func (set_breaker name (half_open cb) w) in
     (∀ r, fst probe = Return r →
        call name func w =
          (Return r, set_breaker name (mkCircuitBreaker cfg 0 (Some t) CLOSED)
                       (snd probe))) ∧
     (∀ e, fst probe = Raise e →
        isinstance e (expected_exception cfg) = true →
        failure_threshold cfg <= failure_count cb →
        call name func w =
          (Raise e,
           set_breaker name
             (mkCircuitBreaker cfg (failure_count cb + 1)
                (Some (clock (snd probe))) OPEN)
             (snd probe)))).
Proof.
  intros Hthr. split; [|split].
  - intros f1 f2 f3 t1 t2 t3 e1 e2 e3 w0 Hq1 Hq2 Hq3 Hcb w1 w2 w3
      Hr1 He1 Hr2 He2 Hr3 He3.
    destruct (closed_call_failure name f1 (set_clock t1 w0) _ e1 Hq1 Hcb
                eq_refl Hr1 He1) as [s1 Hb1].
    fold (call_at name f1 t1 w0) in Hb1. fold w1 in Hb1.
    assert (Hone : _on_failure s1 (CircuitBreaker_init cfg)
                   = mkCircuitBreaker cfg 1 (Some s1) CLOSED).
    { unfold _on_failure, CircuitBreaker_init; simpl. rewrite Hthr.
      case_decide; (done || lia). }
    rewrite Hone in Hb1.
    destruct (closed_call_failure name f2 (set_clock t2 w1) _ e2 Hq2 Hb1
                eq_refl Hr2 He2) as [s2 Hb2].
    fold (call_at name f2 t2 w1) in Hb2. fold w2 in Hb2.
    assert (Htwo : _on_failure s2 (mkCircuitBreaker cfg 1 (Some s1) CLOSED)
                   = mkCircuitBreaker cfg 2 (Some s2) CLOSED).
    { unfold _on_failure; simpl. rewrite Hthr.
      case_decide; (done || lia). }
    rewrite Htwo in Hb2.
    destruct (closed_call_failure name f3 (set_clock t3 w2) _ e3 Hq3 Hb2
                eq_refl Hr3 He3) as [s3 Hb3].
    fold (call_at name f3 t3 w2) in Hb3. fold w3 in Hb3.
    assert (Hthree : _on_failure s3 (mkCircuitBreaker cfg 2 (Some s2) CLOSED)
                     = mkCircuitBreaker cfg 3 (Some s3) OPEN).
    { unfold _on_failure; simpl. rewrite Hthr.
      case_decide; (done || lia). }
    rewrite Hthree in Hb3.
    rewrite Hb1, Hb2. repeat split; eauto.
  - intros func w cb t Hcb Hcfg Hst Hl Hle. subst cfg.
    unfold call. unfold breaker_at in Hcb. rewrite Hcb.
    by rewrite (gate_open_early _ _ t Hst Hl Hle).
  - intros func w cb t Hq Hcb Hcfg Hst Hl Hlt probe. subst cfg.
    pose proof (call_let_through name func w cb (half_open cb) Hq Hcb
                  (gate_open_late _ _ t Hst Hl Hlt)) as Hcall.
    simpl in Hcall. fold probe in Hcall. split.
    + intros r Hr. rewrite Hcall, Hr.
      unfold _on_success, half_open; simpl. by rewrite Hl.
    + intros e He Hexp Hge. rewrite Hcall, He, Hexp.
      unfold _on_failure, half_open; simpl.
      case_decide; (done || lia).
Qed.

Ltac run := vm_compute; first [reflexivity | discriminate | done].

(** A breaker with threshold 3 and a recovery timeout of 60 seconds,
    registered as "tts_api" in a world whose clock shows 0. *)
Definition cfg3 : CircuitBreakerConfig := mkCircuitBreakerConfig 3 60 "Exception" 10.

Definition world0 : World :=
  mkWorld 0 (fun _ => 0%Q) 0 [] 0
    (mkErrorHandler {[ "tts_api" := CircuitBreaker_init cfg3 ]} ∅).

Definition boom : exn := Exception_ "RuntimeError" "boom".
Definition failing : Callable Z := scripted (fun _ => Raise boom).
Definition working : Callable Z := scripted (fun _ => Return 7).

(** The world after failed calls at times 1, 2 and 3. *)
Definition world3 : World :=
  snd (call_at "tts_api" failing 3
         (snd (call_at "tts_api" failing 2
                 (snd (call_at "tts_api" failing 1 world0))))).

Lemma circuit_breaker_state_machine_witness :
  (state <$> breaker_at "tts_api" world3 = Some OPEN ∧ invoked world3 = 3%nat) ∧
  call "tts_api" working (set_clock 63 world3)
    = (Raise open_error, set_clock 63 world3) ∧
  (fst (call "tts_api" working (set_clock 64 world3)) = Return 7 ∧
   breaker_at "tts_api" (snd (call "tts_api" working (set_clock 64 world3)))
     = Some (mkCircuitBreaker cfg3 0 (Some 3%Q) CLOSED) ∧
   invoked (snd (call "tts_api" working (set_clock 64 world3))) = 4%nat) ∧
  (fst (call "tts_api" failing (set_clock 64 world3)) = Raise boom ∧
   breaker_at "tts_api" (snd (call "tts_api" failing (set_clock 64 world3)))
     = Some (mkCircuitBreaker cfg3 4 (Some 64%Q) OPEN)).
Proof.
  destruct (circuit_breaker_state_machine (A := Z) "tts_api" cfg3 eq_refl)
    as (Hopen & Hfast & Hprobe).
  pose (cb3 := mkCircuitBreaker cfg3 3 (Some 3%Q) OPEN).
  assert (H0 : breaker_at "tts_api" world0 = Some (CircuitBreaker_init cfg3)) by run.
  assert (H63 : breaker_at "tts_api" (set_clock 63 world3) = Some cb3) by run.
  assert (H64 : breaker_at "tts_api" (set_clock 64 world3) = Some cb3) by run.
  assert (Hi : isinstance boom (expected_exception cfg3) = true) by run.
  split; [|split; [|split]].
  - pose proof (Hopen failing failing failing 1%Q 2%Q 3%Q boom boom boom world0
                  (scripted_quiet _) (scripted_quiet _) (scripted_quiet _) H0) as H'.
    cbv zeta in H'.
    specialize (H' ltac:(run) Hi ltac:(run) Hi ltac:(run) Hi).
    destruct H' as (_ & _ & t & Ht).
    split; [|run].
    change (breaker_at "tts_api" world3 = Some (mkCircuitBreaker cfg3 3 (Some t) OPEN)) in Ht.
    rewrite Ht. reflexivity.
  - apply (Hfast working (set_clock 63 world3) cb3 3%Q H63 eq_refl eq_refl eq_refl).
    run.
  - pose proof (Hprobe working (set_clock 64 world3) cb3 3%Q (scripted_quiet _)
                H64 eq_refl eq_refl eq_refl ltac:(run)) as H'.
    cbv zeta in H'. 
    destruct H' as (Hok & _).
    specialize (Hok 7 ltac:(run)).
    rewrite Hok. split; [reflexivity|].
    split; [apply breaker_at_set_breaker | run].
  - pose proof (Hprobe failing (set_clock 64 world3) cb3 3%Q (scripted_quiet _)
                H64 eq_refl eq_refl eq_refl ltac:(run)) as H'.
    cbv zeta in H'. destruct H' as (_ & Hko).
    specialize (Hko boom ltac:(run) Hi ltac:(run)).
    rewrite Hko.
    split; [reflexivity | apply breaker_at_set_breaker].
Defined.

End CircuitBreakerProps.

(** ** Retry with backoff *)

Module RetryProps.

Import ErrorHandler.

(** A wrapped function that raises at every invocation, [script k] at its
    [k]-th. *)
Definition always_failing {A} (script : nat -> exn) : Callable A :=
  scripted (fun k => Raise (script k)).

(** The delay slept after the failure of attempt [attempt] when
    [random.random()] gives [r]. *)
Definition slept_delay (cfg : RetryConfig) (attempt : Z) (r : Q) : Q :=
  if jitter cfg then (backoff_delay cfg attempt * jitter_factor r)%Q
  else backoff_delay cfg attempt.


Lemma backoff_delay_nonneg cfg attempt :
  (0 <= base_delay cfg)%Q → (0 <= max_delay cfg)%Q →
  (0 <= exponential_base cfg)%Q →
  (0 <= backoff_delay cfg attempt)%Q.
Proof.
  intros Hb Hm He. unfold backoff_delay.
  apply Q.min_glb; [|done].
  apply Qmult_le_0_compat; [done|]. by apply Qpower_0_le.
Qed.




Lemma sleep_nonneg d w :
  (0 <= d)%Q →
  sleep d w = (Return tt,
               mkWorld (clock w + d)%Q (entropy w) (drawn w) (slept w ++ [d])
                       (invoked w) (error_handler w)).
Proof.
  intros Hd. unfold sleep. destruct (Qlt_le_dec d 0) as [Hlt|_]; [|done].
  exfalso. apply (Qlt_not_le _ _ Hlt Hd).
Qed.

Section AlwaysFailing.

Context {A : Type} (cfg : RetryConfig) (script : nat -> exn).
Hypothesis script_Exception : ∀ k, isinstance (script k) "Exception" = true.
Hypothesis base_delay_nonneg : (0 <= base_delay cfg)%Q.
Hypothesis max_delay_nonneg : (0 <= max_delay cfg)%Q.
Hypothesis exponential_base_nonneg : (0 <= exponential_base cfg)%Q.


End AlwaysFailing.


Definition boom : exn := Exception_ "RuntimeError" "boom".

Definition quiet_world (ent : nat -> Q) : World :=
  mkWorld 0 ent 0 [] 0 ErrorHandler_init.



End RetryProps.

(** ** The batch planner *)

Module BatcherProps.

Import IntelligentBatcher.

(** The sentences with their 1-based positions. *)
Definition enumerate1 (sentences : list string) : Batch :=
  zip (seqZ 1 (Z.of_nat (length sentences))) sentences.

(** The order of the planner on items: no lower score later. *)
Definition score_desc (a b : Z * string) : Prop :=
  (_calculate_complexity_score (snd b) <= _calculate_complexity_score (snd a))%Q.

Definition stored_desc (a b : Scored) : Prop := (score_of b <= score_of a)%Q.

Lemma score_sentences_items start sentences :
  fst <$> score_sentences start sentences
  = zip (seqZ (start + 1) (Z.of_nat (length sentences))) sentences.
Proof.
  revert start. induction sentences as [|s l IH]; intros start; [done|].
  cbn [score_sentences fmap list_fmap length]. rewrite seqZ_cons by lia.
  cbn [zip zip_with]. f_equal.
  fold (fmap (M := list) (@fst (Z * string) Q)). rewrite IH.
  do 2 f_equal; lia.
Qed.

Lemma score_sentences_scores start sentences :
  Forall (fun x => score_of x = _calculate_complexity_score (snd (fst x)))
         (score_sentences start sentences).
Proof.
  revert start. induction sentences as [|s l IH]; intros start; simpl.
  - constructor.
  - constructor; [done|]. apply IH.
Qed.

Lemma insert_desc_perm x l : insert_desc x l ≡ₚ x :: l.
Proof.
  induction l as [|y l IH]; simpl; [done|].
  destruct (Qlt_le_dec _ _); [|done].
  rewrite IH. apply Permutation_swap.
Qed.

Lemma sort_desc_perm l : sort_desc l ≡ₚ l.
Proof.
  induction l as [|x l IH]; simpl; [done|].
  by rewrite insert_desc_perm, IH.
Qed.

Lemma insert_desc_HdRel y x l :
  stored_desc y x → HdRel stored_desc y l → HdRel stored_desc y (insert_desc x l).
Proof.
  intros Hyx Hyl. destruct l as [|z l]; simpl.
  - by constructor.
  - destruct (Qlt_le_dec _ _); constructor; [|done].
    by apply HdRel_inv in Hyl.
Qed.

Lemma insert_desc_Sorted x l :
  Sorted stored_desc l → Sorted stored_desc (insert_desc x l).
Proof.
  induction 1 as [|y l Hl IH Hy]; simpl.
  - repeat constructor.
  - destruct (Qlt_le_dec (score_of x) (score_of y)) as [Hlt|Hle].
    + constructor; [done|]. apply insert_desc_HdRel; [|done].
      unfold stored_desc. by apply Qlt_le_weak.
    + constructor; [by constructor|]. by constructor.
Qed.

Lemma sort_desc_Sorted l : Sorted stored_desc (sort_desc l).
Proof.
  induction l as [|x l IH]; simpl; [constructor|]. by apply insert_desc_Sorted.
Qed.

Lemma concat_append_if_any batches current :
  concat (append_if_any batches current) = concat batches ++ current.
Proof.
  destruct current as [|x c]; simpl.
  - by rewrite app_nil_r.
  - by rewrite concat_app; simpl; rewrite app_nil_r.
Qed.

(** The loop only cuts the sorted list: the batches, put end to end, are
    the items in the order of the loop. *)
Lemma pack_concat max_batch_size items :
  ∀ batches current score,
    concat (pack max_batch_size items batches current score)
    = concat batches ++ current ++ (fst <$> items).
Proof.
  induction items as [|[[index sentence] sc] items IH];
    intros batches current score; simpl.
  - by rewrite concat_append_if_any, app_nil_r.
  - destruct (_ || _).
    + rewrite IH, concat_append_if_any. by rewrite <- app_assoc.
    + rewrite IH. by rewrite <- !app_assoc.
Qed.

Definition fits (max_batch_size : Z) (b : Batch) : Prop :=
  Z.of_nat (length b) <= max_batch_size.

Lemma append_if_any_fits max_batch_size batches current :
  Forall (fits max_batch_size) batches → fits max_batch_size current →
  Forall (fits max_batch_size) (append_if_any batches current).
Proof.
  intros Hb Hc. destruct current; simpl; [done|].
  apply Forall_app. split; [done|]. by constructor.
Qed.

Lemma pack_fits max_batch_size items :
  1 <= max_batch_size →
  ∀ batches current score,
    Forall (fits max_batch_size) batches → fits max_batch_size current →
    Forall (fits max_batch_size)
           (pack max_batch_size items batches current score).
Proof.
  intros Hmax. induction items as [|[[index sentence] sc] items IH];
    intros batches current score Hb Hc; simpl.
  - by apply append_if_any_fits.
  - destruct (bool_decide (max_batch_size <= Z.of_nat (length current))) eqn:Hfull;
      simpl.
    + apply IH; [by apply append_if_any_fits|]. unfold fits; simpl; lia.
    + apply bool_decide_eq_false in Hfull.
      destruct (Qlt_le_dec 100 score).
      * apply IH; [by apply append_if_any_fits|]. unfold fits; simpl; lia.
      * apply IH; [done|]. unfold fits. rewrite length_app; simpl. lia.
Qed.

Lemma Sorted_items l :
  Forall (fun x => score_of x = _calculate_complexity_score (snd (fst x))) l →
  Sorted stored_desc l → Sorted score_desc (fst <$> l).
Proof.
  intros Hsc Hs.
  apply (Sorted_fmap fst (fun a b => score_desc (fst a) (fst b)) score_desc);
    [done|].
  induction Hs as [|x l Hl IH Hx]; [constructor|].
  apply Forall_cons in Hsc as [Hx' Hl'].
  constructor; [by apply IH|].
  destruct Hx as [|y l' Hxy]; constructor.
  apply Forall_cons in Hl' as [Hy' _].
  unfold score_desc, stored_desc in *. by rewrite <- Hx', <- Hy'.
Qed.

(** An item of a list of batches without repetition lies in one batch. *)
Lemma NoDup_concat_one_batch {B} (batches : list (list B)) :
  NoDup (concat batches) →
  ∀ j1 j2 b1 b2 x,
    batches !! j1 = Some b1 → batches !! j2 = Some b2 →
    x ∈ b1 → x ∈ b2 → j1 = j2.
Proof.
  induction batches as [|b batches IH]; intros Hnd j1 j2 b1 b2 x H1 H2 Hx1 Hx2.
  - by rewrite lookup_nil in H1.
  - simpl in Hnd. apply NoDup_app in Hnd as (_ & Hdisj & Hnd).
    assert (Hin : ∀ j b', batches !! j = Some b' → x ∈ b' → x ∈ concat batches).
    { intros j b' Hj Hb'. apply list_elem_of_In, in_concat. exists b'.
      split; apply list_elem_of_In; [by eapply list_elem_of_lookup_2 | done]. }
    destruct j1 as [|j1], j2 as [|j2]; simpl in *; simplify_eq; [done|..].
    + exfalso. eapply Hdisj; eauto.
    + exfalso. eapply Hdisj; eauto.
    + f_equal. eauto.
Qed.

Lemma create_optimized_batches_concat max_batch_size sentences :
  concat (create_optimized_batches max_batch_size sentences)
  = fst <$> sort_desc (score_sentences 0 sentences).
Proof.
  unfold create_optimized_batches. destruct sentences as [|s l]; [done|].
  by rewrite pack_concat.
Qed.

(** C5.  For every list of sentences and every [max_batch_size >= 1],
    the batches of the planner, put end to end, are a rearrangement of
    the sentences with their 1-based positions; no position occurs
    twice and no item lies in two batches; no batch has more than
    [max_batch_size] items; and over the batches put end to end the
    complexity score never increases. *)
Theorem batch_planning_conservation (max_batch_size : Z) (sentences : list string) :
  1 <= max_batch_size →
  let batches := create_optimized_batches max_batch_size sentences in
  concat batches ≡ₚ enumerate1 sentences ∧
  NoDup (fst <$> concat batches) ∧
  (∀ j1 j2 b1 b2 x,
     batches !! j1 = Some b1 → batches !! j2 = Some b2 →
     x ∈ b1 → x ∈ b2 → j1 = j2) ∧
  Forall (fun b => Z.of_nat (length b) <= max_batch_size) batches ∧
  Sorted score_desc (concat batches).
Proof.
  intros Hmax batches.
  assert (Hperm : concat batches ≡ₚ enumerate1 sentences).
  { subst batches. rewrite create_optimized_batches_concat.
    rewrite sort_desc_perm, score_sentences_items. done. }
  assert (Hnd : NoDup (fst <$> concat batches)).
  { rewrite Hperm. unfold enumerate1. rewrite fst_zip.
    - apply NoDup_seqZ.
    - rewrite length_seqZ. lia. }
  split; [done|]. split; [done|]. split; [|split].
  - apply NoDup_concat_one_batch. by apply NoDup_fmap_1 in Hnd.
  - subst batches. unfold create_optimized_batches.
    destruct sentences as [|s l]; [constructor|].
    apply (pack_fits max_batch_size _ Hmax); [constructor|].
    unfold fits; simpl; lia.
  - subst batches. rewrite create_optimized_batches_concat.
    apply Sorted_items; [|apply sort_desc_Sorted].
    apply Forall_forall. intros x Hx. rewrite sort_desc_perm in Hx.
    revert x Hx. apply Forall_forall, score_sentences_scores.
Qed.

Lemma batch_planning_conservation_witness :
  create_optimized_batches 2 ["a"; "一、二。"; "bcd"; "「x」"]
  = [[(2, "一、二。"); (4, "「x」")]; [(3, "bcd"); (1, "a")]] ∧
  concat (create_optimized_batches 2 ["a"; "一、二。"; "bcd"; "「x」"])
    ≡ₚ enumerate1 ["a"; "一、二。"; "bcd"; "「x」"] ∧
  Forall (fun b => Z.of_nat (length b) <= 2)
         (create_optimized_batches 2 ["a"; "一、二。"; "bcd"; "「x」"]).
Proof.
  split; [vm_compute; reflexivity|].
  destruct (batch_planning_conservation 2 ["a"; "一、二。"; "bcd"; "「x」"])
    as (Hp & _ & _ & Hf & _); [lia|].
  split; [exact Hp | exact Hf].
Defined.

Example complexity_score_example :
  Qred (_calculate_complexity_score "一、二。") = (37 # 5)%Q
  ∧ Qred (_calculate_complexity_score "「x」") = (63 # 10)%Q
  ∧ py_len "一、二。" = 4.
Proof. repeat split; vm_compute; reflexivity. Qed.

End BatcherProps.

(** ** Paths *)

Module PathProps.

Import Pathlib.

Fixpoint has_slash (s : string) : bool :=
  match s with
  | EmptyString => false
  | String a s' => bool_decide (a = "/"%char) || has_slash s'
  end.

(** A part of a path in normal form. *)
Definition good_part (c : string) : Prop :=
  (c ≠ "" ∧ c ≠ ".") ∧ has_slash c = false.

(** A path as [Path] builds it. *)
Definition normal (p : Path) : Prop :=
  (root p = "" ∨ root p = "/" ∨ root p = "//") ∧ Forall good_part (parts p).

Lemma app_cons a s t : String a s +:+ t = String a (s +:+ t).
Proof. reflexivity. Qed.

Lemma app_nil_l t : "" +:+ t = t.
Proof. reflexivity. Qed.

Lemma app_nil_r s : s +:+ "" = s.
Proof. induction s as [|a s IH]; [done|]. by rewrite app_cons, IH. Qed.

Lemma components_nonempty s : components s ≠ [].
Proof.
  destruct s as [|a s]; simpl; [done|].
  case_bool_decide; [done|]. by destruct (components s).
Qed.

Lemma components_no_slash s : Forall (fun c => has_slash c = false) (components s).
Proof.
  induction s as [|a s IH]; simpl.
  - by repeat constructor.
  - case_bool_decide as Ha.
    + by constructor.
    + destruct (components s) as [|c cs]; simpl.
      * repeat constructor. simpl. by rewrite bool_decide_eq_false_2.
      * apply Forall_cons in IH as [Hc Hcs]. constructor; [|done].
        simpl. by rewrite bool_decide_eq_false_2.
Qed.

Lemma components_part c : has_slash c = false → components c = [c].
Proof.
  induction c as [|a c IH]; simpl; [done|].
  intros H. apply orb_false_iff in H as [Ha Hc].
  rewrite Ha. by rewrite (IH Hc).
Qed.

Lemma components_app_slash a b :
  components (a +:+ "/" +:+ b) = components a ++ components b.
Proof.
  induction a as [|x a IH]; [done|].
  rewrite app_cons. simpl. case_bool_decide; simpl.
  - by rewrite IH.
  - rewrite IH. pose proof (components_nonempty a).
    by destruct (components a).
Qed.

Lemma components_join parts :
  Forall good_part parts → parts ≠ [] → components (join_slash parts) = parts.
Proof.
  induction 1 as [|c cs [_ Hc] Hcs IH]; intros Hne; [done|].
  destruct cs as [|c' cs].
  - simpl. by apply components_part.
  - change (join_slash (c :: c' :: cs))
      with (c +:+ "/" +:+ join_slash (c' :: cs)).
    rewrite components_app_slash, (components_part c Hc), IH; done.
Qed.

Lemma leading_slashes_part c rest :
  good_part c → leading_slashes (c +:+ rest) = O.
Proof.
  intros [[Hne _] Hs]. destruct c as [|a c]; [done|].
  rewrite app_cons. simpl in *.
  apply orb_false_iff in Hs as [Ha _]. by rewrite Ha.
Qed.

Lemma leading_slashes_join parts :
  Forall good_part parts → leading_slashes (join_slash parts) = O.
Proof.
  destruct 1 as [|c cs Hc Hcs]; [done|].
  destruct cs as [|c' cs].
  - simpl. rewrite <- (leading_slashes_part c "" Hc). by rewrite app_nil_r.
  - change (join_slash (c :: c' :: cs))
      with (c +:+ "/" +:+ join_slash (c' :: cs)).
    by apply leading_slashes_part.
Qed.

Lemma filter_good parts :
  Forall good_part parts → filter (fun c => c ≠ "" ∧ c ≠ ".") parts = parts.
Proof.
  induction 1 as [|c cs [Hc _] _ IH]; [done|].
  rewrite filter_cons_True by done. by rewrite IH.
Qed.

(** The parts of the text of a list of good parts. *)
Lemma parts_of_join parts :
  Forall good_part parts →
  filter (fun c => c ≠ "" ∧ c ≠ ".") (components (join_slash parts)) = parts.
Proof.
  intros H. destruct parts as [|c cs]; [done|].
  rewrite components_join by done. by apply filter_good.
Qed.

(** [Path(str(p))] is [p] again. *)
Lemma Path_of_str p : normal p → Path_of (str p) = p.
Proof.
  destruct p as [r ps]. intros [Hr Hps]; simpl in *.
  pose proof (parts_of_join ps Hps) as Hparts.
  pose proof (leading_slashes_join ps Hps) as Hlead.
  destruct Hr as [-> | [-> | ->]].
  { destruct ps as [|c cs]; [done|].
    change (str {| root := ""; parts := c :: cs |}) with (join_slash (c :: cs)).
    unfold Path_of. by rewrite Hlead, Hparts. }
  all: unfold str, Path_of; simpl.
  - rewrite app_nil_l, Hlead.
    rewrite filter_cons_False by (by intros [Hn _]). by rewrite Hparts.
  - rewrite app_nil_l, Hlead.
    rewrite !filter_cons_False by (by intros [Hn _]). by rewrite Hparts.
Qed.

Lemma Path_of_normal s : normal (Path_of s).
Proof.
  split.
  - unfold Path_of; simpl. destruct (leading_slashes s) as [|[|[|n]]]; auto.
  - unfold Path_of; simpl. apply Forall_forall. intros c Hc.
    apply list_elem_of_filter in Hc as [Hc Hin]. split; [done|].
    pose proof (components_no_slash s) as Hs.
    rewrite Forall_forall in Hs. by apply Hs.
Qed.

Lemma joinpath_normal p name : normal p → normal (joinpath p name).
Proof.
  intros [Hr Hps]. unfold joinpath. pose proof (Path_of_normal name) as [Hr' Hps'].
  case_bool_decide; [|by split].
  split; simpl; [done|]. by apply Forall_app.
Qed.

(** No path has the empty text. *)
Lemma str_nonempty p : normal p → str p ≠ "".
Proof.
  destruct p as [r ps]. intros [Hr Hps]; simpl in *. unfold str; simpl.
  destruct Hr as [-> | [-> | ->]]; [|by rewrite app_cons..].
  destruct Hps as [|c cs [[Hc _] _] _]; [done|].
  rewrite app_nil_l. destruct cs; simpl; [done|]. by destruct c.
Qed.

Example Path_examples :
  str (Path_of "out//a.mp3") = "out/a.mp3" ∧
  str (Path_of "./out/a.mp3") = "out/a.mp3" ∧
  str (Path_of "out/") = "out" ∧
  str (Path_of "") = "." ∧
  str (Path_of "//srv/x") = "//srv/x" ∧
  str (Path_of "///srv/x") = "/srv/x" ∧
  str (joinpath (Path_of "tts_output_ultra") "0001_a.mp3")
    = "tts_output_ultra/0001_a.mp3".
Proof. repeat split. Qed.

End PathProps.

(** ** The result cache *)

Module CacheProps.

Import Pathlib AudioCache.

Lemma filter_key_delete h (t : Table) :
  filter (fun r => sentence_hash r = h) (delete_where h t) = [].
Proof.
  unfold delete_where. induction t as [|r t IH]; [done|].
  destruct (decide (sentence_hash r = h)) as [Heq|Hne].
  - by rewrite filter_cons_False by (by intros H).
  - rewrite (filter_cons_True (fun r => sentence_hash r ≠ h)) by done.
    by rewrite filter_cons_False.
Qed.

Lemma filter_other_delete h h' (t : Table) :
  h' ≠ h →
  filter (fun r => sentence_hash r = h') (delete_where h t)
  = filter (fun r => sentence_hash r = h') t.
Proof.
  intros Hne. unfold delete_where. induction t as [|r t IH]; [done|].
  destruct (decide (sentence_hash r = h)) as [Heq|Hneq].
  - rewrite (filter_cons_False (fun r => sentence_hash r ≠ h)) by (by intros H).
    rewrite (filter_cons_False (fun r => sentence_hash r = h')) by congruence.
    done.
  - rewrite (filter_cons_True (fun r => sentence_hash r ≠ h)) by done.
    destruct (decide (sentence_hash r = h')).
    + rewrite !(filter_cons_True (fun r => sentence_hash r = h')) by done.
      by rewrite IH.
    + rewrite !(filter_cons_False (fun r => sentence_hash r = h')) by done.
      done.
Qed.

Lemma delete_where_idemp h (t : Table) :
  delete_where h (delete_where h t) = delete_where h t.
Proof.
  unfold delete_where. induction t as [|r t IH]; [done|].
  destruct (decide (sentence_hash r = h)) as [Heq|Hneq].
  - by rewrite (filter_cons_False (fun r => sentence_hash r ≠ h)) by (by intros H).
  - rewrite !(filter_cons_True (fun r => sentence_hash r ≠ h)) by done.
    by rewrite IH.
Qed.

(** After a delete no row holds the key; the rows of other keys stay. *)
Lemma select_one_delete h (t : Table) : select_one h (delete_where h t) = None.
Proof. unfold select_one. by rewrite filter_key_delete. Qed.

Lemma select_one_delete_other h h' (t : Table) :
  h' ≠ h → select_one h' (delete_where h t) = select_one h' t.
Proof. intros Hne. unfold select_one. by rewrite filter_other_delete. Qed.

(** After [INSERT OR REPLACE] exactly one row holds the key: the new
    one. *)
Lemma filter_key_insert r (t : Table) :
  filter (fun r' => sentence_hash r' = sentence_hash r) (insert_or_replace r t) = [r].
Proof.
  unfold insert_or_replace. rewrite filter_app, filter_key_delete.
  by rewrite filter_cons_True.
Qed.

Lemma select_one_insert r (t : Table) :
  select_one (sentence_hash r) (insert_or_replace r t) = Some r.
Proof. unfold select_one. by rewrite filter_key_insert. Qed.

Lemma select_one_insert_other r h' (t : Table) :
  h' ≠ sentence_hash r → select_one h' (insert_or_replace r t) = select_one h' t.
Proof.
  intros Hne. unfold select_one, insert_or_replace.
  rewrite filter_app, filter_other_delete by done.
  rewrite filter_cons_False by (simpl; congruence).
  by rewrite filter_nil, app_nil_r.
Qed.

(** A second write of a key replaces the first. *)
Lemma insert_insert r1 r2 (t : Table) :
  sentence_hash r1 = sentence_hash r2 →
  insert_or_replace r2 (insert_or_replace r1 t) = insert_or_replace r2 t.
Proof.
  intros Heq. unfold insert_or_replace. rewrite <- Heq. f_equal.
  unfold delete_where at 1. rewrite filter_app.
  fold (delete_where (sentence_hash r1) (delete_where (sentence_hash r1) t)).
  rewrite delete_where_idemp.
  rewrite filter_cons_False by (by intros H). by rewrite filter_nil, app_nil_r.
Qed.

(** The primary key stays unique. *)
Lemma insert_or_replace_NoDup r (t : Table) :
  NoDup (sentence_hash <$> t) → NoDup (sentence_hash <$> insert_or_replace r t).
Proof.
  intros Hnd. unfold insert_or_replace, delete_where. rewrite fmap_app.
  apply NoDup_app. split; [|split].
  - induction t as [|r' t IH]; [constructor|].
    apply NoDup_cons in Hnd as [Hr' Hnd].
    destruct (decide (sentence_hash r' ≠ sentence_hash r)).
    + rewrite filter_cons_True by done. rewrite fmap_cons. apply NoDup_cons.
      split; [|by apply IH].
      intros Hin. apply Hr'. apply list_elem_of_fmap in Hin as (x & -> & Hx).
      apply list_elem_of_filter in Hx as [_ Hx].
      apply list_elem_of_fmap. by exists x.
    + rewrite filter_cons_False by done. by apply IH.
  - intros h Hin Hin'. apply list_elem_of_fmap in Hin as (x & -> & Hx).
    apply list_elem_of_filter in Hx as [Hx _].
    apply list_elem_of_singleton in Hin'. done.
  - apply NoDup_singleton.
Qed.

Section WithHash.

Variable sha256_hexdigest : string -> string.

(** C8.  A lookup whose key has an entry in the index while the file the
    entry refers to is missing deletes the entry (and no other) and
    returns a miss; when the file exists the lookup returns its path, as
    [pathlib] prints it, and leaves the index as it is; when the key has
    no entry the lookup returns a miss and leaves the index as it is. *)
Theorem cache_self_healing_lookup (sentence voice_name audio_format : string)
    (sample_rate : Z) (fs : Files) (t : Table) :
  let h := _get_sentence_hash sha256_hexdigest sentence voice_name audio_format
             sample_rate in
  let lookup := get_cached_audio sha256_hexdigest sentence voice_name audio_format
                  sample_rate fs t in
  (∀ row, select_one h t = Some row →
          exists_ fs (Path_of (file_path row)) = false →
          lookup = (None, delete_where h t) ∧
          select_one h (snd lookup) = None ∧
          ∀ h', h' ≠ h → select_one h' (snd lookup) = select_one h' t) ∧
  (∀ row, select_one h t = Some row →
          exists_ fs (Path_of (file_path row)) = true →
          lookup = (Some (str (Path_of (file_path row))), t)) ∧
  (select_one h t = None → lookup = (None, t)).
Proof.
  intros h lookup. subst lookup. unfold get_cached_audio. fold h.
  split; [|split].
  - intros row Hrow Hmiss. rewrite Hrow, Hmiss. simpl.
    split; [done|]. split; [apply select_one_delete|].
    intros h' Hne. by apply select_one_delete_other.
  - intros row Hrow Hhit. by rewrite Hrow, Hhit.
  - intros Hnone. by rewrite Hnone.
Qed.

End WithHash.

(** A cache whose index holds a stale entry (for "hello") and a live one
    (for "bye"); the digest is replaced by the text it is computed
    from. *)
Definition demo_table : Table :=
  [ mkCacheRow "hello|v|MP3|24000" "v" "MP3" 24000 "out/gone.mp3" 0;
    mkCacheRow "bye|v|MP3|24000" "v" "MP3" 24000 "out//kept.mp3" 0 ].

Definition demo_files : Files := {[ "out/kept.mp3" := "ID3" ]}.

Lemma cache_self_healing_lookup_witness :
  get_cached_audio id "hello" "v" "MP3" 24000 demo_files demo_table
    = (None, [mkCacheRow "bye|v|MP3|24000" "v" "MP3" 24000 "out//kept.mp3" 0]) ∧
  get_cached_audio id "bye" "v" "MP3" 24000 demo_files demo_table
    = (Some "out/kept.mp3", demo_table) ∧
  get_cached_audio id "other" "v" "MP3" 24000 demo_files demo_table
    = (None, demo_table).
Proof.
  split; [|split].
  - destruct (cache_self_healing_lookup id "hello" "v" "MP3" 24000 demo_files
                demo_table) as (Hstale & _ & _).
    destruct (Hstale (mkCacheRow "hello|v|MP3|24000" "v" "MP3" 24000 "out/gone.mp3" 0))
      as (Hl & _); [vm_compute; reflexivity..|].
    rewrite Hl. vm_compute. reflexivity.
  - destruct (cache_self_healing_lookup id "bye" "v" "MP3" 24000 demo_files
                demo_table) as (_ & Hlive & _).
    rewrite (Hlive (mkCacheRow "bye|v|MP3|24000" "v" "MP3" 24000 "out//kept.mp3" 0));
      [|vm_compute; reflexivity..].
    vm_compute. reflexivity.
  - destruct (cache_self_healing_lookup id "other" "v" "MP3" 24000 demo_files
                demo_table) as (_ & _ & Hnone).
    apply Hnone. vm_compute. reflexivity.
Defined.

End CacheProps.

(** ** The checkpoint store *)

Module CheckpointProps.

Import CheckpointManager.

Lemma load_save processed_indices total_count now file :
  load_checkpoint (save_checkpoint processed_indices total_count now file)
  = (processed_indices, total_count).
Proof. simpl. by rewrite list_to_set_elements_L. Qed.

(** C10, as the code has it.  [save_checkpoint] writes the file in place:
    it is emptied, then written.  A save that runs to its end leaves the
    new state.  A load made after a stop of the process at any point of a
    save returns the state that was there before, or no checkpoint (the
    empty set and 0), or the new state; it never returns a part of a
    state.  A stop between the opening and the end of the write loses the
    state that was there before. *)
Theorem checkpoint_save_steps (processed_indices : gset Z) (total_count : Z)
    (now : Q) (file : CheckpointFile) :
  let steps := save_checkpoint_steps processed_indices total_count now file in
  last steps = Some (save_checkpoint processed_indices total_count now file) ∧
  load_checkpoint (save_checkpoint processed_indices total_count now file)
    = (processed_indices, total_count) ∧
  steps !! 1%nat = Some Unreadable ∧
  ∀ s, s ∈ steps →
       load_checkpoint s = load_checkpoint file ∨
       load_checkpoint s = (∅, 0) ∨
       load_checkpoint s = (processed_indices, total_count).
Proof.
  intros steps. split; [done|]. split; [apply load_save|]. split; [done|].
  intros s Hs. subst steps. unfold save_checkpoint_steps in Hs.
  apply elem_of_cons in Hs as [->|Hs]; [by left|].
  apply elem_of_cons in Hs as [->|Hs]; [by right; left|].
  apply list_elem_of_singleton in Hs as ->. right; right.
  apply (load_save processed_indices total_count now file).
Qed.

Definition old_checkpoint : CheckpointFile :=
  Written (mkCheckpointData [1; 2] 3 0).

Lemma checkpoint_save_steps_witness :
  load_checkpoint Unreadable = load_checkpoint old_checkpoint ∨
  load_checkpoint Unreadable = (∅, 0) ∨
  load_checkpoint Unreadable = ({[1; 2; 3]}, 3).
Proof.
  destruct (checkpoint_save_steps {[1; 2; 3]} 3 10 old_checkpoint)
    as (_ & _ & _ & H).
  apply H. unfold save_checkpoint_steps. apply elem_of_cons. right.
  apply elem_of_cons. by left.
Defined.

(** C10 as stated does not hold.  A checkpoint of two processed indices
    out of three is on the storage; a save of three indices stops after
    the file was opened for writing.  The file is then empty, and the
    next load returns no checkpoint: the state that was persisted before
    is lost. *)
Lemma checkpoint_save_not_atomic :
  save_checkpoint_steps {[1; 2; 3]} 3 10 old_checkpoint !! 1%nat = Some Unreadable ∧
  load_checkpoint old_checkpoint = ({[1; 2]}, 3) ∧
  load_checkpoint Unreadable = (∅, 0) ∧
  load_checkpoint Unreadable ≠ load_checkpoint old_checkpoint.
Proof.
  split; [done|]. split; [|split; [done|]].
  - simpl. f_equal; set_solver.
  - simpl. intros H. by inversion H.
Qed.

End CheckpointProps.

(** ** The orchestrator: synthesis of one sentence *)

Module SynthesisProps.

Import ErrorHandler Pathlib AudioCache CheckpointManager AdvancedTTSProcessor.

(** The voice that the next call of [get_next_voice] returns. *)
Definition next_voice (p : Processor) : option string :=
  match VoiceRotator.get_next_voice (voice_rotator p) with
  | (Return v, _) => Some v
  | (Raise _, _) => None
  end.

Lemma init_no_language_code output_dir cfg client :
  attr_language_code (__init__ output_dir cfg client) = None.
Proof. reflexivity. Qed.

Lemma init_next_voice output_dir cfg client :
  next_voice (__init__ output_dir cfg client) = Some "en-US-Neural2-A".
Proof.
  unfold next_voice, __init__; simpl.
  by destruct (voice_rotation_enabled cfg).
Qed.

Lemma sleep_in_nonneg d st :
  (0 <= d)%Q →
  ∃ w, sleep_in d st = (Return tt, set_world w st) ∧
       invoked w = invoked (world st) ∧
       error_handler w = error_handler (world st).
Proof.
  intros Hd. unfold sleep_in. rewrite RetryProps.sleep_nonneg by done.
  eexists. split; [reflexivity|]. done.
Qed.

Section WithExternals.

Variable sha256_hexdigest : string -> string.
Variable _create_safe_filename : string -> Z -> string.



End WithExternals.

(** A processor as [__init__] builds it from the default configuration,
    with a provider that answers every request, on an empty storage. *)
Definition answering : Client := fun _ _ => Return "audio".

Definition world_start : World := mkWorld 0 (fun _ => 0%Q) 0 [] 0 ErrorHandler_init.

Definition fresh_state (cfg : UltraProcessingConfig) : State :=
  mkState (__init__ "out" cfg answering) (mkStorage ∅ [] Absent) world_start.

(** A stand-in for [_create_safe_filename] that agrees with it on plain
    words and small indices: the index on four digits, an underscore and
    the sentence. *)
Definition plain_name (sentence : string) (index : Z) : string :=
  (if bool_decide (index < 10) then "000"
   else if bool_decide (index < 100) then "00"
   else if bool_decide (index < 1000) then "0" else "")
    +:+ pretty index +:+ "_" +:+ sentence.




End SynthesisProps.

(** ** The orchestrator and the resilience layer *)

Module ResilienceProps.

Import ErrorHandler Pathlib AudioCache CheckpointManager AdvancedTTSProcessor.
Import SynthesisProps.


(** What a step of the synthesis may change. *)
Definition same_frame (st st' : State) : Prop :=
  self st' = self st ∧
  error_handler (world st') = error_handler (world st) ∧
  checkpoint_file (storage st') = checkpoint_file (storage st).

Lemma same_frame_refl st : same_frame st st.
Proof. by repeat split. Qed.

Lemma same_frame_trans st1 st2 st3 :
  same_frame st1 st2 → same_frame st2 st3 → same_frame st1 st3.
Proof. intros (?&?&?) (?&?&?). repeat split; congruence. Qed.

Lemma sleep_in_frame d st r st' :
  sleep_in d st = (r, st') →
  same_frame st st' ∧ storage st' = storage st ∧
  invoked (world st') = invoked (world st).
Proof.
  unfold sleep_in, sleep. destruct (Qlt_le_dec d 0); intros [= <- <-];
    by repeat split.
Qed.

Section WithExternals.

Variable sha256_hexdigest : string -> string.
Variable _create_safe_filename : string -> Z -> string.

(** The file and the cache entry that a successful synthesis leaves. *)
Definition persisted (sentence voice : string) (p : Processor) (path : string)
    (st' : State) : Prop :=
  is_Some (files (storage st') !! path) ∧
  (cache p = true →
   ∃ row,
     select_one
       (_get_sentence_hash sha256_hexdigest sentence voice
          (cfg_audio_format (config p)) (cfg_sample_rate (config p)))
       (audio_cache (storage st')) = Some row
     ∧ file_path row = path).

Lemma try_synthesis_spec sentence voice safe_filename st r st' :
  try_synthesis sha256_hexdigest sentence voice safe_filename st = (r, st') →
  same_frame st st' ∧
  (invoked (world st) <= invoked (world st') <= S (invoked (world st)))%nat ∧
  match r with
  | Raise _ => storage st' = storage st
  | Return path =>
      path = str (output_path_of (self st) safe_filename) ∧
      invoked (world st') = S (invoked (world st)) ∧
      persisted sentence voice (self st) path st'
  end.
Proof.
  unfold try_synthesis.
  destruct (attr_language_code (self st)) as [lc|].
  - unfold synthesize_speech.
    destruct (client (self st) _ _) as [content|e]; intros [= <- <-].
    + split; [by repeat split|]. split; [simpl; lia|].
      split; [done|]. split; [done|]. split.
      * simpl. unfold write_bytes. rewrite lookup_insert_eq. by eexists.
      * intros Hcache. simpl. rewrite Hcache. unfold cache_audio.
        eexists. split;
          [exact (CacheProps.select_one_insert (mkCacheRow _ _ _ _ _ _) _) | done].
    + split; [by repeat split|]. split; [simpl; lia|]. done.
  - intros [= <- <-]. split; [apply same_frame_refl|]. split; [lia|done].
Qed.


(** The retry loop of [synthesize_sentence_ultra] calls the provider
    itself, at most once per attempt, and touches neither a breaker nor
    the error statistics. *)
Lemma synthesis_loop_spec sentence voice safe_filename attempts :
  ∀ st r st',
    synthesis_loop sha256_hexdigest sentence voice safe_filename attempts st
      = (r, st') →
    same_frame st st' ∧
    (invoked (world st') <= invoked (world st) + length attempts)%nat ∧
    ∀ path, r = Return (Some path) →
            path = str (output_path_of (self st) safe_filename) ∧
            (invoked (world st) < invoked (world st'))%nat ∧
            persisted sentence voice (self st) path st'.
Proof.
  induction attempts as [|attempt rest IH]; intros st r st' Hloop.
  - injection Hloop as <- <-. split; [apply same_frame_refl|].
    split; [simpl; lia|]. by intros path.
  - cbn [synthesis_loop] in Hloop.
    destruct (try_synthesis _ _ _ _ st) as [[path|e] st1] eqn:Htry;
      apply try_synthesis_spec in Htry as (Hf1 & Hi1 & Hr1).
    + injection Hloop as <- <-. destruct Hr1 as (-> & Hinv & Hp).
      split; [done|]. split; [simpl; lia|].
      intros path [= <-]. split; [done|]. split; [lia|done].
    + assert (Hcont : ∀ d r2 st2,
                sleep_in d st1 = (r2, st2) →
                match r2 with
                | Return _ =>
                    synthesis_loop sha256_hexdigest sentence voice safe_filename
                      rest st2
                | Raise e' => (Raise e', st2)
                end = (r, st') →
                same_frame st st' ∧
                (invoked (world st') <= invoked (world st) + length (attempt :: rest))%nat ∧
                ∀ path, r = Return (Some path) →
                        path = str (output_path_of (self st) safe_filename) ∧
                        (invoked (world st) < invoked (world st'))%nat ∧
                        persisted sentence voice (self st) path st').
      { intros d r2 st2 Hsl Hk.
        apply sleep_in_frame in Hsl as (Hf2 & Hs2 & Hi2).
        destruct r2 as [u|e'].
        - apply IH in Hk as (Hf3 & Hi3 & Hr3).
          split; [eauto using same_frame_trans|].
          split; [simpl; lia|].
          intros path Hpath. destruct (Hr3 path Hpath) as (Hp1 & Hp2 & Hp3).
          destruct Hf1 as (Hself1 & _), Hf2 as (Hself2 & _).
          rewrite Hself2, Hself1 in Hp1, Hp3. split; [done|]. split; [lia|done].
        - injection Hk as <- <-. split; [eauto using same_frame_trans|].
          split; [simpl; lia|]. by intros path. }
      assert (Hstop : ∀ r0, (r0, st1) = (r, st') →
                (∀ path, r0 ≠ Return (Some path)) →
                same_frame st st' ∧
                (invoked (world st') <= invoked (world st) + length (attempt :: rest))%nat ∧
                ∀ path, r = Return (Some path) →
                        path = str (output_path_of (self st) safe_filename) ∧
                        (invoked (world st) < invoked (world st'))%nat ∧
                        persisted sentence voice (self st) path st').
      { intros r0 [= <- <-] Hno. split; [done|]. split; [simpl; lia|].
        intros path Hpath. by destruct (Hno path). }
      destruct (isinstance e "GoogleAPIError").
      * destruct (_ || _).
        -- destruct (sleep_in _ st1) as [r2 st2] eqn:Hsl. eauto.
        -- by eapply Hstop.
      * destruct (isinstance e "Exception").
        -- case_bool_decide.
           ++ destruct (sleep_in _ st1) as [r2 st2] eqn:Hsl. eauto.
           ++ by eapply Hstop.
        -- by eapply Hstop.
Qed.

(** What [synthesize_sentence_ultra] does to the error handler, to the
    count of provider invocations and, on a miss that ends well, to the
    storage. *)
Lemma synthesize_sentence_ultra_spec (sentence : string) (index : Z) (st : State) :
  let r := synthesize_sentence_ultra sha256_hexdigest _create_safe_filename
             sentence index st in
  error_handler (world (snd r)) = error_handler (world st) ∧
  (invoked (world (snd r))
   <= invoked (world st) + Z.to_nat (retry_attempts (config (self st))))%nat ∧
  ∀ voice path,
    next_voice (self st) = Some voice →
    (cache (self st) = false
     ∨ fst (get_cached_audio sha256_hexdigest sentence voice
              (cfg_audio_format (config (self st)))
              (cfg_sample_rate (config (self st)))
              (files (storage st)) (audio_cache (storage st))) = None) →
    fst r = Return (Some path) →
    path = str (output_path_of (self st) (_create_safe_filename sentence index)) ∧
    (invoked (world st) < invoked (world (snd r)))%nat ∧
    persisted sentence voice (self st) path (snd r).
Proof.
  intros r. subst r. unfold synthesize_sentence_ultra, next_voice.
  destruct (VoiceRotator.get_next_voice (voice_rotator (self st)))
    as [[v|e] rot]; [|simpl; split; [done|]; split; [lia|done]].
  set (st1 := set_self (set_voice_rotator rot (self st)) st).
  assert (Hmiss : ∀ st2 r st',
            self st2 = self st1 → world st2 = world st →
            synthesis_loop sha256_hexdigest sentence v
              (_create_safe_filename sentence index)
              (range (retry_attempts (config (self st1)))) st2 = (r, st') →
            error_handler (world st') = error_handler (world st) ∧
            (invoked (world st')
             <= invoked (world st) + Z.to_nat (retry_attempts (config (self st))))%nat ∧
            ∀ path, r = Return (Some path) →
              path = str (output_path_of (self st)
                            (_create_safe_filename sentence index)) ∧
              (invoked (world st) < invoked (world st'))%nat ∧
              persisted sentence v (self st) path st').
  { intros st2 r st' Hself Hworld Hloop.
    apply synthesis_loop_spec in Hloop as ((_ & Heh & _) & Hinv & Hres).
    unfold range in Hinv. rewrite length_seqZ in Hinv.
    rewrite Hworld in *. split; [done|]. split; [exact Hinv|].
    intros path Hpath. destruct (Hres path Hpath) as (Hp1 & Hp2 & Hp3).
    rewrite Hself in Hp1, Hp3. done. }
  change (cache (self st1)) with (cache (self st)).
  change (config (self st1)) with (config (self st)) in *.
  change (storage st1) with (storage st).
  destruct (cache (self st)) eqn:Hcache.
  - destruct (get_cached_audio _ _ _ _ _ _ _) as [cached tbl] eqn:Hlookup.
    set (st2 := set_storage (mkStorage (files (storage st)) tbl
                                       (checkpoint_file (storage st))) st1).
    assert (Hnohit : ∀ (r : outcome (option string)) st',
              error_handler (world st') = error_handler (world st) →
              invoked (world st') = invoked (world st) →
              cached ≠ None →
              error_handler (world (snd (r, st'))) = error_handler (world st) ∧
              (invoked (world (snd (r, st')))
               <= invoked (world st)
                  + Z.to_nat (retry_attempts (config (self st))))%nat ∧
              ∀ voice path, Some v = Some voice →
                (true = false
                 ∨ fst (get_cached_audio sha256_hexdigest sentence voice
                          (cfg_audio_format (config (self st)))
                          (cfg_sample_rate (config (self st)))
                          (files (storage st)) (audio_cache (storage st))) = None) →
                fst (r, st') = Return (Some path) →
                path = str (output_path_of (self st)
                              (_create_safe_filename sentence index)) ∧
                (invoked (world st) < invoked (world (snd (r, st'))))%nat ∧
                persisted sentence voice (self st) path (snd (r, st'))).
    { intros r st' Heh Hinv Hsome. simpl. split; [done|]. split; [lia|].
      intros voice path [= <-] [?|Hnone]; [done|].
      rewrite Hlookup in Hnone. simpl in Hnone. done. }
    destruct cached as [cached_file|].
    + case_bool_decide.
      * destruct (synthesis_loop _ _ _ _ _ st2) as [r st'] eqn:Hloop.
        destruct (Hmiss st2 r st' eq_refl eq_refl Hloop) as (H1 & H2 & H3).
        split; [done|]. split; [done|].
        intros voice path [= <-] _ Hr. by apply H3.
      * destruct (exists_ _ _); [by apply Hnohit|].
        destruct (copy2 _ _ _) as [[u|e] fs]; by apply Hnohit.
    + destruct (synthesis_loop _ _ _ _ _ st2) as [r st'] eqn:Hloop.
      destruct (Hmiss st2 r st' eq_refl eq_refl Hloop) as (H1 & H2 & H3).
      split; [done|]. split; [done|].
      intros voice path [= <-] _ Hr. by apply H3.
  - destruct (synthesis_loop _ _ _ _ _ st1) as [r st'] eqn:Hloop.
    destruct (Hmiss st1 r st' eq_refl eq_refl Hloop) as (H1 & H2 & H3).
    split; [done|]. split; [done|].
    intros voice path [= <-] _ Hr. by apply H3.
Qed.


End WithExternals.






End ResilienceProps.

(** ** The cache in the pipeline *)

Module CachePipelineProps.

Import ErrorHandler Pathlib AudioCache CheckpointManager AdvancedTTSProcessor.
Import PathProps CacheProps SynthesisProps ResilienceProps.

Section WithExternals.

Variable sha256_hexdigest : string -> string.
Variable _create_safe_filename : string -> Z -> string.

(** The index holds an entry for the key of [(sentence, voice)] whose
    file is on the storage. *)
Definition live_entry (sentence voice : string) (p : Processor) (sto : Storage)
    : Prop :=
  ∃ row,
    select_one
      (_get_sentence_hash sha256_hexdigest sentence voice
         (cfg_audio_format (config p)) (cfg_sample_rate (config p)))
      (audio_cache sto) = Some row
    ∧ exists_ (files sto) (Path_of (file_path row)) = true.

Lemma exists_insert fs p q content :
  exists_ fs p = true → exists_ (<[str q := content]> fs) p = true.
Proof.
  unfold exists_. intros H. apply bool_decide_eq_true in H.
  apply bool_decide_eq_true. destruct (decide (str q = str p)) as [->|Hne].
  - rewrite lookup_insert_eq. by eexists.
  - by rewrite lookup_insert_ne.
Qed.

(** A lookup that finds a live entry: round trip of a store. *)
Lemma lookup_after_store sentence voice_name audio_format sample_rate
    file_path now (fs : Files) (t : Table) :
  exists_ fs (Path_of file_path) = true →
  get_cached_audio sha256_hexdigest sentence voice_name audio_format sample_rate fs
    (cache_audio sha256_hexdigest sentence voice_name audio_format sample_rate
       file_path now t)
  = (Some (str (Path_of file_path)),
     cache_audio sha256_hexdigest sentence voice_name audio_format sample_rate
       file_path now t).
Proof.
  intros Hex. unfold get_cached_audio, cache_audio.
  set (row := mkCacheRow _ _ _ _ _ _).
  change (_get_sentence_hash sha256_hexdigest sentence voice_name audio_format
            sample_rate) with (sentence_hash row).
  rewrite select_one_insert. simpl. by rewrite Hex.
Qed.

(** With a live entry for the voice that comes next, the sentence is
    served from the cache: the output path is returned, the world (and
    with it the count of provider invocations) is as before, and the
    entry stays live. *)
Lemma cache_hit_spec sentence index voice st :
  cache (self st) = true →
  next_voice (self st) = Some voice →
  live_entry sentence voice (self st) (storage st) →
  let r := synthesize_sentence_ultra sha256_hexdigest _create_safe_filename
             sentence index st in
  fst r = Return (Some (str (output_path_of (self st)
                               (_create_safe_filename sentence index)))) ∧
  world (snd r) = world st ∧
  live_entry sentence voice (self st) (storage (snd r)).
Proof.
  intros Hcache Hvoice (row & Hrow & Hex) r. subst r.
  unfold synthesize_sentence_ultra. unfold next_voice in Hvoice.
  destruct (VoiceRotator.get_next_voice (voice_rotator (self st)))
    as [[v|e] rot]; [|done].
  injection Hvoice as ->.
  set (st1 := set_self (set_voice_rotator rot (self st)) st).
  change (cache (self st1)) with (cache (self st)).
  change (config (self st1)) with (config (self st)).
  change (storage st1) with (storage st).
  rewrite Hcache. unfold get_cached_audio. rewrite Hrow, Hex.
  pose proof (Path_of_normal (file_path row)) as Hn.
  rewrite bool_decide_eq_false_2 by (by apply str_nonempty).
  rewrite (Path_of_str _ Hn).
  set (op := output_path_of (self st) (_create_safe_filename sentence index)).
  change (output_path_of (self st1) (_create_safe_filename sentence index)) with op.
  cbn [storage set_storage files].
  destruct (exists_ (files (storage st)) op) eqn:Hout.
  - simpl. split; [done|]. split; [done|]. exists row.
    split; [exact Hrow | exact Hex].
  - unfold copy2. unfold exists_ in Hex. apply bool_decide_eq_true in Hex.
    destruct Hex as [content Hc]. rewrite Hc. simpl.
    split; [done|]. split; [done|]. exists row. split; [done|].
    apply exists_insert. unfold exists_. apply bool_decide_eq_true.
    rewrite Hc. by eexists.
Qed.

(** A sentence for which a path was returned has a live entry
    afterwards. *)
Lemma live_after_success sentence index voice path st :
  normal (output_dir (self st)) →
  cache (self st) = true →
  next_voice (self st) = Some voice →
  let r := synthesize_sentence_ultra sha256_hexdigest _create_safe_filename
             sentence index st in
  fst r = Return (Some path) →
  path = str (output_path_of (self st) (_create_safe_filename sentence index)) ∧
  live_entry sentence voice (self st) (storage (snd r)).
Proof.
  intros Hdir Hcache Hvoice r Hr.
  destruct (get_cached_audio sha256_hexdigest sentence voice
              (cfg_audio_format (config (self st)))
              (cfg_sample_rate (config (self st)))
              (files (storage st)) (audio_cache (storage st)))
    as [cached tbl] eqn:Hlookup.
  destruct cached as [cached_file|].
  - assert (Hlive : live_entry sentence voice (self st) (storage st)).
    { unfold get_cached_audio in Hlookup.
      destruct (select_one _ _) as [row|] eqn:Hrow; [|done].
      destruct (exists_ _ _) eqn:Hex; [|done]. by exists row. }
    destruct (cache_hit_spec sentence index voice st Hcache Hvoice Hlive)
      as (Hr' & _ & Hl).
    fold r in Hr', Hl. rewrite Hr' in Hr. injection Hr as <-. done.
  - destruct (synthesize_sentence_ultra_spec sha256_hexdigest _create_safe_filename
                sentence index st) as (_ & _ & Hok).
    destruct (Hok voice path Hvoice) as (Hp & _ & Hfile & Hentry).
    { right. by rewrite Hlookup. }
    { exact Hr. }
    fold r in Hfile, Hentry. split; [done|].
    destruct (Hentry Hcache) as (row & Hrow & Hpath).
    exists row. split; [done|]. rewrite Hpath, Hp.
    rewrite Path_of_str by (by apply joinpath_normal).
    unfold exists_. apply bool_decide_eq_true. by rewrite <- Hp.
Qed.

(** A synthesis changes nothing of the processor but its voice
    rotator. *)
Lemma synthesize_self sentence index st :
  ∃ rot,
    self (snd (synthesize_sentence_ultra sha256_hexdigest _create_safe_filename
                 sentence index st))
    = set_voice_rotator rot (self st).
Proof.
  unfold synthesize_sentence_ultra.
  destruct (VoiceRotator.get_next_voice (voice_rotator (self st)))
    as [[v|e] rot]; [|by exists rot].
  exists rot.
  set (st1 := set_self (set_voice_rotator rot (self st)) st).
  assert (Hmiss : ∀ st2, self st2 = self st1 →
            self (snd (synthesis_loop sha256_hexdigest sentence v
                         (_create_safe_filename sentence index)
                         (range (retry_attempts (config (self st1)))) st2))
            = set_voice_rotator rot (self st)).
  { intros st2 Hself.
    destruct (synthesis_loop _ _ _ _ _ st2) as [r st'] eqn:Hloop.
    apply synthesis_loop_spec in Hloop as ((Hs & _) & _).
    simpl. by rewrite Hs, Hself. }
  destruct (cache (self st1)); [|by apply Hmiss].
  destruct (get_cached_audio _ _ _ _ _ _ _) as [[cached_file|] tbl];
    [|by apply Hmiss].
  case_bool_decide; [by apply Hmiss|].
  destruct (exists_ _ _); [done|].
  by destruct (copy2 _ _ _) as [[u|e] fs].
Qed.

(** C7, as the code has it.  A store followed by a lookup with the same
    arguments, the file of the stored path being on the storage, is a hit
    that returns the stored path as [pathlib] prints it; this is the
    stored path itself when that is the text of a path object, as the
    paths that the pipeline stores are.  A store is an upsert on the key:
    after it one entry holds the key, with the path written last, and a
    store that follows a store of the same key leaves the index that it
    would leave alone.  And when a pass of the pipeline over a sentence
    returned a path, a second pass over the same sentence with the same
    voice is served from the cache and does not invoke the provider. *)
Theorem cache_round_trip_and_reuse :
  (∀ sentence voice_name audio_format sample_rate file_path now (fs : Files)
     (t : Table),
     exists_ fs (Path_of file_path) = true →
     get_cached_audio sha256_hexdigest sentence voice_name audio_format
       sample_rate fs
       (cache_audio sha256_hexdigest sentence voice_name audio_format sample_rate
          file_path now t)
     = (Some (str (Path_of file_path)),
        cache_audio sha256_hexdigest sentence voice_name audio_format sample_rate
          file_path now t)
     ∧ (∀ p, normal p → file_path = str p → str (Path_of file_path) = file_path)) ∧
  (∀ sentence voice_name audio_format sample_rate path1 path2 now1 now2 (t : Table),
     cache_audio sha256_hexdigest sentence voice_name audio_format sample_rate
       path2 now2
       (cache_audio sha256_hexdigest sentence voice_name audio_format sample_rate
          path1 now1 t)
     = cache_audio sha256_hexdigest sentence voice_name audio_format sample_rate
         path2 now2 t
     ∧ filter (fun r => sentence_hash r
                        = _get_sentence_hash sha256_hexdigest sentence voice_name
                            audio_format sample_rate)
              (cache_audio sha256_hexdigest sentence voice_name audio_format
                 sample_rate path2 now2 t)
       = [ mkCacheRow
             (_get_sentence_hash sha256_hexdigest sentence voice_name audio_format
                sample_rate)
             voice_name audio_format sample_rate path2 now2 ]) ∧
  (∀ sentence index index' voice path st,
     normal (output_dir (self st)) →
     cache (self st) = true →
     next_voice (self st) = Some voice →
     let r1 := synthesize_sentence_ultra sha256_hexdigest _create_safe_filename
                 sentence index st in
     fst r1 = Return (Some path) →
     next_voice (self (snd r1)) = Some voice →
     let r2 := synthesize_sentence_ultra sha256_hexdigest _create_safe_filename
                 sentence index' (snd r1) in
     fst r2 = Return (Some (str (output_path_of (self st)
                                   (_create_safe_filename sentence index')))) ∧
     invoked (world (snd r2)) = invoked (world (snd r1))).
Proof.
  split; [|split].
  - intros sentence voice_name audio_format sample_rate file_path now fs t Hex.
    split; [by apply lookup_after_store|].
    intros p Hp ->. by rewrite Path_of_str.
  - intros. split.
    + unfold cache_audio. by apply insert_insert.
    + unfold cache_audio.
      exact (filter_key_insert (mkCacheRow _ _ _ _ _ _) t).
  - intros sentence index index' voice path st Hdir Hcache Hvoice r1 Hr1 Hvoice2 r2.
    destruct (live_after_success sentence index voice path st Hdir Hcache Hvoice Hr1)
      as (_ & Hlive).
    fold r1 in Hlive.
    destruct (synthesize_self sentence index st) as [rot Hself].
    fold r1 in Hself.
    destruct (cache_hit_spec sentence index' voice (snd r1)) as (Hr2 & Hw & _).
    + by rewrite Hself.
    + exact Hvoice2.
    + unfold live_entry in *. by rewrite Hself.
    + fold r2 in Hr2, Hw. rewrite Hself in Hr2. split; [exact Hr2|]. by rewrite Hw.
Qed.

End WithExternals.

End CachePipelineProps.

Module CacheExamples.

Import ErrorHandler Pathlib AudioCache CheckpointManager AdvancedTTSProcessor.
Import PathProps CacheProps SynthesisProps ResilienceProps CachePipelineProps.

(** A processor with a fixed voice (rotation disabled) on which
    [language_code] was assigned. *)
Definition fixed_voice_config : UltraProcessingConfig :=
  mkUltraProcessingConfig "en-US-Neural2-A" "MP3" 24000 (5 # 100) 5 20 3 (1 # 2)
    true true 10 15 true true 50 false.

Definition fixed_voice_state : State :=
  mkState (set_language_code "en-US" (__init__ "out" fixed_voice_config answering))
          (mkStorage ∅ [] Absent) world_start.

Lemma cache_round_trip_and_reuse_witness :
  get_cached_audio id "hello" "v" "MP3" 24000 {[ "out/a.mp3" := "ID3" ]}
    (cache_audio id "hello" "v" "MP3" 24000 "out/a.mp3" 5 [])
  = (Some "out/a.mp3", [mkCacheRow "hello|v|MP3|24000" "v" "MP3" 24000 "out/a.mp3" 5]) ∧
  (let r1 := synthesize_sentence_ultra id plain_name "hello" 1 fixed_voice_state in
   let r2 := synthesize_sentence_ultra id plain_name "hello" 1 (snd r1) in
   fst r1 = Return (Some "out/0001_hello.mp3") ∧
   fst r2 = Return (Some "out/0001_hello.mp3") ∧
   invoked (world (snd r1)) = 1%nat ∧
   invoked (world (snd r2)) = 1%nat).
Proof.
  destruct (cache_round_trip_and_reuse id plain_name) as (Hround & _ & Hreuse).
  split.
  - destruct (Hround "hello" "v" "MP3" 24000 "out/a.mp3" 5%Q
                ({[ "out/a.mp3" := "ID3" ]} : Files) []) as (Hl & _);
      [vm_compute; reflexivity|].
    rewrite Hl. vm_compute. reflexivity.
  - intros r1 r2.
    assert (H1 : fst r1 = Return (Some "out/0001_hello.mp3"))
      by (vm_compute; reflexivity).
    destruct (Hreuse "hello" 1 1 "en-US-Neural2-A" "out/0001_hello.mp3"
                fixed_voice_state) as (H2 & Hinv).
    + apply Path_of_normal.
    + reflexivity.
    + vm_compute. reflexivity.
    + exact H1.
    + vm_compute. reflexivity.
    + fold r1 in H2, Hinv. fold r2 in H2, Hinv.
      split; [exact H1|]. split; [rewrite H2; vm_compute; reflexivity|].
      split; [vm_compute; reflexivity|]. rewrite Hinv. vm_compute. reflexivity.
Defined.

(** C7 as stated does not hold for every artifact path: the lookup
    returns the text of [Path(file_path)].  After a store of the path
    "out//a.mp3", whose file exists, the lookup returns "out/a.mp3". *)
Lemma cache_returns_normalised_path :
  exists_ ({[ "out/a.mp3" := "ID3" ]} : Files) (Path_of "out//a.mp3") = true ∧
  fst (get_cached_audio id "hello" "v" "MP3" 24000 {[ "out/a.mp3" := "ID3" ]}
         (cache_audio id "hello" "v" "MP3" 24000 "out//a.mp3" 5 []))
  = Some "out/a.mp3" ∧
  fst (get_cached_audio id "hello" "v" "MP3" 24000 {[ "out/a.mp3" := "ID3" ]}
         (cache_audio id "hello" "v" "MP3" 24000 "out//a.mp3" 5 []))
  ≠ Some "out//a.mp3".
Proof.
  split; [vm_compute; reflexivity|]. split; [vm_compute; reflexivity|].
  vm_compute. discriminate.
Qed.

End CacheExamples.

(** ** The orchestrator: a run over the batches *)

Module RunProps.

Import ErrorHandler Pathlib AudioCache CheckpointManager AdvancedTTSProcessor.
Import SynthesisProps ResilienceProps.

(** What a run keeps of the processor: everything but the voice rotator
    and the set of processed indices. *)
Definition same_settings (p p' : Processor) : Prop :=
  config p' = config p ∧
  checkpoint_manager p' = checkpoint_manager p ∧
  batcher p' = batcher p ∧
  attr_sentences p' = attr_sentences p ∧
  client p' = client p.

Lemma same_settings_refl p : same_settings p p.
Proof. by repeat split. Qed.

Lemma same_settings_trans p1 p2 p3 :
  same_settings p1 p2 → same_settings p2 p3 → same_settings p1 p3.
Proof. intros (?&?&?&?&?) (?&?&?&?&?). repeat split; congruence. Qed.

(** The items of a batch that a run still has to process. *)
Definition pending (processed : gset Z) (items : IntelligentBatcher.Batch)
    : IntelligentBatcher.Batch :=
  filter (fun it => fst it ∉ processed) items.

Definition is_success (r : ItemResult) : bool :=
  match r_status r with success => true | failed => false end.

Section WithExternals.

Variable sha256_hexdigest : string -> string.
Variable _create_safe_filename : string -> Z -> string.
Variable strip : string -> string.

Lemma synthesize_frame sentence index st :
  let st' := snd (synthesize_sentence_ultra sha256_hexdigest _create_safe_filename
                    sentence index st) in
  (∃ rot, self st' = set_voice_rotator rot (self st)) ∧
  checkpoint_file (storage st') = checkpoint_file (storage st).
Proof.
  unfold synthesize_sentence_ultra.
  destruct (VoiceRotator.get_next_voice (voice_rotator (self st)))
    as [[v|e] rot]; [|by split; [exists rot|]].
  set (st1 := set_self (set_voice_rotator rot (self st)) st).
  assert (Hmiss : ∀ st2, self st2 = self st1 →
            checkpoint_file (storage st2) = checkpoint_file (storage st) →
            let st' := snd (synthesis_loop sha256_hexdigest sentence v
                              (_create_safe_filename sentence index)
                              (range (retry_attempts (config (self st1)))) st2) in
            (∃ rot, self st' = set_voice_rotator rot (self st)) ∧
            checkpoint_file (storage st') = checkpoint_file (storage st)).
  { intros st2 Hself Hcp.
    destruct (synthesis_loop _ _ _ _ _ st2) as [r st'] eqn:Hloop.
    apply synthesis_loop_spec in Hloop as ((Hs & _ & Hc) & _).
    simpl. split; [exists rot; by rewrite Hs, Hself | by rewrite Hc]. }
  destruct (cache (self st1)); [|by apply Hmiss].
  destruct (get_cached_audio _ _ _ _ _ _ _) as [[cached_file|] tbl];
    [|by apply Hmiss].
  case_bool_decide; [by apply Hmiss|].
  destruct (exists_ _ _); [by split; [exists rot|]|].
  destruct (copy2 _ _ _) as [[u|e] fs]; by split; [exists rot|].
Qed.

Lemma synthesize_settings sentence index st :
  let st' := snd (synthesize_sentence_ultra sha256_hexdigest _create_safe_filename
                    sentence index st) in
  same_settings (self st) (self st') ∧
  processed_indices (self st') = processed_indices (self st) ∧
  checkpoint_file (storage st') = checkpoint_file (storage st).
Proof.
  destruct (synthesize_frame sentence index st) as ([rot Hs] & Hc).
  cbv zeta. rewrite Hs. by repeat split.
Qed.

(** The results of a batch: one per item, in the order of the batch. *)
Lemma collect_results_spec batch todo :
  ∀ acc st rs st',
    collect_results sha256_hexdigest _create_safe_filename batch todo acc st
      = (Return rs, st') →
    r_index <$> rs = (r_index <$> acc) ++ (fst <$> todo) ∧
    same_settings (self st) (self st') ∧
    processed_indices (self st') = processed_indices (self st) ∧
    checkpoint_file (storage st') = checkpoint_file (storage st).
Proof.
  induction todo as [|[index sentence] rest IH]; intros acc st rs st' Hrun.
  - injection Hrun as <- <-. rewrite app_nil_r.
    split; [done|]. split; [apply same_settings_refl|done].
  - cbn [collect_results] in Hrun.
    pose proof (synthesize_settings sentence index st) as (Hs & Hp & Hc).
    destruct (synthesize_sentence_ultra _ _ sentence index st) as [o st1].
    cbv zeta in Hs, Hp, Hc. simpl in Hs, Hp, Hc.
    assert (Hnext : ∀ r,
              collect_results sha256_hexdigest _create_safe_filename batch rest
                (acc ++ [r]) st1 = (Return rs, st') →
              r_index r = index →
              r_index <$> rs = (r_index <$> acc) ++ (fst <$> (index, sentence) :: rest) ∧
              same_settings (self st) (self st') ∧
              processed_indices (self st') = processed_indices (self st) ∧
              checkpoint_file (storage st') = checkpoint_file (storage st)).
    { intros r Hk Hr. apply IH in Hk as (Hi & Hs' & Hp' & Hc').
      split.
      - rewrite Hi, fmap_app. simpl. rewrite Hr. by rewrite <- app_assoc.
      - split; [eauto using same_settings_trans|]. split; congruence. }
    destruct o as [[filepath|]|e].
    + case_bool_decide; by eapply Hnext.
    + by eapply Hnext.
    + destruct (isinstance e "Exception"); [by eapply Hnext | done].
Qed.


(** The merge adds to the processed indices the indices of the
    successes; each result counts as a success or as a failure. *)
Lemma merge_results_spec rs :
  ∀ results processed results' processed',
    merge_results rs results processed = (results', processed') →
    processed'
    = processed ∪ list_to_set (r_index <$> filter (fun r => is_success r = true) rs) ∧
    successful results'
      = successful results
        + Z.of_nat (length (filter (fun r => is_success r = true) rs)) ∧
    failed_count results'
      = failed_count results
        + Z.of_nat (length (filter (fun r => is_success r = false) rs)) ∧
    total results' = total results.
Proof.
  induction rs as [|r rs IH]; intros results processed results' processed' Hm.
  - injection Hm as <- <-. cbn. rewrite (right_id_L ∅ (∪)).
    repeat split; lia.
  - cbn [merge_results] in Hm. destruct (r_status r) eqn:Hst.
    + apply IH in Hm as (-> & -> & -> & ->). cbn [successful failed_count total].
      rewrite filter_cons_True by (unfold is_success; by rewrite Hst).
      rewrite (filter_cons_False (fun r => is_success r = false))
        by (unfold is_success; by rewrite Hst).
      rewrite fmap_cons, list_to_set_cons, length_cons, Nat2Z.inj_succ.
      rewrite (assoc_L (∪)). repeat split; lia.
    + apply IH in Hm as (-> & -> & -> & ->). cbn [successful failed_count total].
      rewrite filter_cons_False by (unfold is_success; by rewrite Hst).
      rewrite (filter_cons_True (fun r => is_success r = false))
        by (unfold is_success; by rewrite Hst).
      rewrite length_cons, Nat2Z.inj_succ. repeat split; lia.
Qed.


(** One turn of the loop over the batches, with a checkpoint manager:
    the items of the batch that are not yet processed get one result
    each, and the results are merged. *)
Lemma process_one_batch_spec n_batches n_sentences batch_num batch results st
    results' st' :
  checkpoint_manager (self st) = true →
  process_one_batch sha256_hexdigest _create_safe_filename n_batches n_sentences
    batch_num batch results st = (Return results', st') →
  ∃ rs,
    r_index <$> rs = fst <$> pending (processed_indices (self st)) batch ∧
    merge_results rs results (processed_indices (self st))
      = (results', processed_indices (self st')) ∧
    same_settings (self st) (self st').
Proof.
  intros Hcm. unfold process_one_batch. rewrite Hcm. cbn [andb].
  fold (pending (processed_indices (self st)) batch).
  set (todo := pending (processed_indices (self st)) batch).
  case_bool_decide as Hempty.
  - intros [= <- <-]. exists []. rewrite Hempty.
    split; [done|]. split; [done|apply same_settings_refl].
  - unfold process_batch_ultra_async.
    destruct (collect_results _ _ todo todo [] st) as [[rs|e] st1] eqn:Hrun;
      [|done].
    apply collect_results_spec in Hrun as (Hidx & Hset & Hproc & _).
    simpl in Hidx.
    destruct (merge_results rs results (processed_indices (self st1)))
      as [results1 processed1] eqn:Hmerge.
    rewrite Hproc in Hmerge.
    set (st2 := set_self (set_processed_indices processed1 (self st1)) st1).
    assert (Hset2 : same_settings (self st) (self st2)).
    { destruct Hset as (?&?&?&?&?). by repeat split. }
    assert (Hcm2 : checkpoint_manager (self st2) = true).
    { destruct Hset2 as (_ & -> & _). done. }
    rewrite Hcm2.
    assert (Hend : ∀ st3, self st3 = self st2 →
              (if (if Qlt_le_dec 0 (delay (config (self st2))) then true else false)
                  && bool_decide (batch_num < n_batches)
               then match sleep_in (delay (config (self st2))) st3 with
                    | (Return _, st4) => (Return results1, st4)
                    | (Raise e, st4) => (Raise e, st4)
                    end
               else (Return results1, st3)) = (Return results', st') →
              ∃ rs0,
                r_index <$> rs0 = fst <$> todo ∧
                merge_results rs0 results (processed_indices (self st))
                  = (results', processed_indices (self st')) ∧
                same_settings (self st) (self st')).
    { intros st3 Hself3 Hk. exists rs.
      destruct (_ && _).
      - destruct (sleep_in _ st3) as [[u|e] st4] eqn:Hsl; [|done].
        injection Hk as <- <-.
        apply sleep_in_frame in Hsl as ((Hs4 & _) & _).
        rewrite Hs4, Hself3.
        split; [exact Hidx|]. split; [exact Hmerge | exact Hset2].
      - injection Hk as <- <-. rewrite Hself3.
        split; [exact Hidx|]. split; [exact Hmerge | exact Hset2]. }
    destruct (bool_decide (checkpoint_interval (config (self st2)) = 0));
      [intros [=]|].
    destruct (bool_decide (batch_num `mod` checkpoint_interval (config (self st2)) = 0));
      by apply Hend.
Qed.


Lemma process_batches_settings n_batches n_sentences batches :
  ∀ batch_num results st results' st',
    checkpoint_manager (self st) = true →
    process_batches sha256_hexdigest _create_safe_filename n_batches n_sentences
      batch_num batches results st = (Return results', st') →
    same_settings (self st) (self st').
Proof.
  induction batches as [|batch rest IH];
    intros batch_num results st results' st' Hcm Hrun.
  - injection Hrun as <- <-. apply same_settings_refl.
  - cbn [process_batches] in Hrun.
    destruct (process_one_batch _ _ _ _ _ batch results st)
      as [[results1|e] st1] eqn:Hone; [|done].
    apply process_one_batch_spec in Hone as (_ & _ & _ & Hset1); [|done].
    apply IH in Hrun; [|by destruct Hset1 as (_ & -> & _)].
    eauto using same_settings_trans.
Qed.

(** *** The plan *)

Lemma imap_indices {B} (g : string → B) (l : list string) :
  ∀ i, fst <$> imap (fun j s => (i + Z.of_nat j + 1, g s)) l
       = seqZ (i + 1) (Z.of_nat (length l)).
Proof.
  induction l as [|x l IH]; intros i; [done|].
  rewrite imap_cons, fmap_cons. rewrite seqZ_cons by (simpl; lia).
  cbn [fst]. f_equal; [lia|].
  rewrite (imap_ext _ (fun j s => ((i + 1) + Z.of_nat j + 1, g s)))
    by (intros j y _; simpl; f_equal; lia).
  rewrite IH. f_equal; simpl; lia.
Qed.

Lemma slice_batches_indices fuel batch_size :
  (1 <= batch_size)%nat →
  ∀ i l, (length l <= fuel)%nat →
    fst <$> concat (slice_batches strip fuel batch_size i l)
    = seqZ (i + 1) (Z.of_nat (length l)).
Proof.
  intros Hbs. induction fuel as [|fuel IH]; intros i l Hlen.
  - destruct l; [done|simpl in Hlen; lia].
  - destruct l as [|x l]; [done|].
    cbn [slice_batches concat]. rewrite fmap_app, imap_indices, IH.
    + rewrite length_take, length_drop.
      destruct (decide (batch_size <= length (x :: l))%nat).
      * rewrite Nat.min_l by done.
        replace (Z.of_nat (length (x :: l)))
          with (Z.of_nat batch_size + Z.of_nat (length (x :: l) - batch_size))
          by lia.
        rewrite seqZ_app by lia. do 2 f_equal. lia.
      * rewrite Nat.min_r by lia.
        replace (length (x :: l) - batch_size)%nat with 0%nat by lia.
        by rewrite app_nil_r.
    + rewrite length_drop. simpl in *. lia.
Qed.

(** A processor whose batches cover the sentences: it has a batcher, or
    its [batch_size] is at least 1. *)
Definition plans (p : Processor) : Prop :=
  is_Some (batcher p) ∨ 1 <= batch_size (config p).

(** [start_run] with a checkpoint manager: the checkpoint is applied when
    it holds indices and its count is the number of sentences, and
    cleared otherwise. *)
Lemma start_run_spec sentences st batches st1 :
  checkpoint_manager (self st) = true →
  start_run strip sentences st = (Return batches, st1) →
  let loaded := load_checkpoint (checkpoint_file (storage st)) in
  let applied := fst loaded ≠ ∅ ∧ snd loaded = Z.of_nat (length sentences) in
  (applied →
   processed_indices (self st1) = fst loaded ∧
   checkpoint_file (storage st1) = checkpoint_file (storage st)) ∧
  (¬ applied →
   processed_indices (self st1) = processed_indices (self st) ∧
   checkpoint_file (storage st1) = Absent) ∧
  checkpoint_manager (self st1) = true ∧
  config (self st1) = config (self st) ∧
  attr_sentences (self st1) = Some sentences ∧
  world st1 = world st ∧
  (plans (self st) →
   fst <$> concat batches ≡ₚ seqZ 1 (Z.of_nat (length sentences))).
Proof.
  intros Hcm. unfold start_run.
  set (st0 := set_self (set_sentences sentences (self st)) st).
  change (checkpoint_manager (self st0)) with (checkpoint_manager (self st)).
  rewrite Hcm.
  change (checkpoint_file (storage st0)) with (checkpoint_file (storage st)).
  destruct (load_checkpoint (checkpoint_file (storage st))) as [P tc].
  set (stc := if bool_decide (P ≠ ∅) && bool_decide (tc = Z.of_nat (length sentences))
              then _ else _).
  assert (Hplan : ∀ batches',
            match batcher (self stc) with
            | Some max_batch_size =>
                (Return (IntelligentBatcher.create_optimized_batches max_batch_size
                           sentences), stc)
            | None => (simple_batches strip (batch_size (config (self stc))) sentences,
                       stc)
            end = (Return batches', st1) →
            batcher (self stc) = batcher (self st) →
            config (self stc) = config (self st) →
            st1 = stc ∧
            (plans (self st) →
             fst <$> concat batches' ≡ₚ seqZ 1 (Z.of_nat (length sentences)))).
  { intros batches' Hb Hbat Hcfg. rewrite Hbat, Hcfg in Hb. unfold plans.
    destruct (batcher (self st)) as [max_batch_size|].
    - injection Hb as <- <-. split; [done|]. intros _.
      rewrite BatcherProps.create_optimized_batches_concat.
      rewrite BatcherProps.sort_desc_perm, BatcherProps.score_sentences_items.
      rewrite fst_zip by (rewrite length_seqZ; lia). done.
    - unfold simple_batches in Hb.
      case_bool_decide as H0; [done|]. case_bool_decide as Hneg.
      + injection Hb as <- <-. split; [done|].
        intros [[? [=]]|Hge]. lia.
      + injection Hb as <- <-. split; [done|]. intros _.
        rewrite slice_batches_indices by lia. done. }
  intros Hrun. cbn [fst snd].
  destruct (decide (P ≠ ∅ ∧ tc = Z.of_nat (length sentences))) as [[HP Htc]|Hn].
  - assert (Hstc : stc = set_self (set_processed_indices P (self st0)) st0).
    { subst stc. by rewrite !bool_decide_eq_true_2 by done. }
    rewrite Hstc in Hrun, Hplan.
    destruct (Hplan batches Hrun eq_refl eq_refl) as [-> Hperm].
    split; [done|]. split; [intros Hn; exfalso; by apply Hn|]. by repeat split.
  - assert (Hstc : stc = set_storage
                           (set_checkpoint_file
                              (clear_checkpoint (checkpoint_file (storage st0)))
                              (storage st0)) st0).
    { subst stc. destruct (bool_decide (P ≠ ∅)) eqn:HP; [|done].
      destruct (bool_decide (tc = _)) eqn:Htc; [|done].
      apply bool_decide_eq_true in HP. apply bool_decide_eq_true in Htc.
      exfalso. by apply Hn. }
    rewrite Hstc in Hrun, Hplan.
    destruct (Hplan batches Hrun eq_refl eq_refl) as [-> Hperm].
    split; [intros Happ; exfalso; by apply Hn|]. split; [done|]. by repeat split.
Qed.




(** C9, as the code has it.  With a checkpoint manager, every run that
    reaches its end leaves no checkpoint, whether items failed or not:
    the checkpoint is deleted at the end of the run whatever the count of
    failed items. *)
Theorem checkpoint_cleared_at_end (sentences : list string) (st : State)
    (results : Results) (st' : State) :
  checkpoint_manager (self st) = true →
  process_batch_ultra sha256_hexdigest _create_safe_filename strip sentences st
    = (Return results, st') →
  checkpoint_file (storage st') = Absent.
Proof.
  intros Hcm. unfold process_batch_ultra.
  destruct (start_run strip sentences st) as [[batches|e] st1] eqn:Hstart; [|done].
  apply start_run_spec in Hstart as (_ & _ & Hcm1 & _); [|done].
  destruct (process_batches _ _ _ _ _ batches _ st1) as [[results2|e] st2] eqn:Hloop;
    [|done].
  apply process_batches_settings in Hloop as (_ & Hcm2 & _); [|done].
  unfold finish_run. intros [= <- <-]. by rewrite Hcm2, Hcm1.
Qed.




End WithExternals.

End RunProps.

(** ** A run reaches its end *)

Module RunTotality.

Import ErrorHandler Pathlib AudioCache CheckpointManager AdvancedTTSProcessor.
Import SynthesisProps ResilienceProps RunProps.

(** A provider whose errors are instances of [Exception]. *)
Definition raises_exceptions (c : Client) : Prop :=
  ∀ req k e, c req k = Raise e → isinstance e "Exception" = true.

Lemma sleep_in_raise d st e st' :
  sleep_in d st = (Raise e, st') → isinstance e "Exception" = true.
Proof.
  unfold sleep_in, sleep. destruct (Qlt_le_dec d 0); [|done].
  by intros [= <- <-].
Qed.

Section WithExternals.

Variable sha256_hexdigest : string -> string.
Variable _create_safe_filename : string -> Z -> string.
Variable strip : string -> string.

Lemma try_synthesis_raise sentence voice safe_filename st e st' :
  raises_exceptions (client (self st)) →
  try_synthesis sha256_hexdigest sentence voice safe_filename st = (Raise e, st') →
  isinstance e "Exception" = true.
Proof.
  intros Hc. unfold try_synthesis.
  destruct (attr_language_code (self st)); [|by intros [= <- <-]].
  unfold synthesize_speech.
  destruct (client (self st) _ _) as [content|e'] eqn:Hcall; [done|].
  intros [= <- <-]. by eapply Hc.
Qed.

Lemma synthesis_loop_raise sentence voice safe_filename attempts :
  ∀ st e st',
    raises_exceptions (client (self st)) →
    synthesis_loop sha256_hexdigest sentence voice safe_filename attempts st
      = (Raise e, st') →
    isinstance e "Exception" = true.
Proof.
  induction attempts as [|attempt rest IH]; intros st e st' Hc Hloop; [done|].
  cbn [synthesis_loop] in Hloop.
  destruct (try_synthesis _ _ _ _ st) as [[path|e1] st1] eqn:Htry; [done|].
  pose proof (try_synthesis_raise _ _ _ _ _ _ Hc Htry) as He1.
  apply try_synthesis_spec in Htry as ((Hself & _) & _).
  assert (Hc1 : ∀ st2, self st2 = self st1 → raises_exceptions (client (self st2)))
    by (intros st2 ->; by rewrite Hself).
  rewrite He1 in Hloop.
  assert (Hcont : ∀ d,
            match sleep_in d st1 with
            | (Return _, st2) =>
                synthesis_loop sha256_hexdigest sentence voice safe_filename rest st2
            | (Raise e', st2) => (Raise e', st2)
            end = (Raise e, st') →
            isinstance e "Exception" = true).
  { intros d Hk. destruct (sleep_in d st1) as [[u|e'] st2] eqn:Hsl.
    - apply sleep_in_frame in Hsl as ((Hs2 & _) & _). eapply IH; [|exact Hk].
      by apply Hc1.
    - injection Hk as <- <-. by eapply sleep_in_raise. }
  destruct (isinstance e1 "GoogleAPIError").
  - destruct (_ || _); [by eapply Hcont | done].
  - case_bool_decide; [by eapply Hcont | done].
Qed.

Lemma get_next_voice_raise r e r' :
  VoiceRotator.get_next_voice r = (Raise e, r') → isinstance e "Exception" = true.
Proof.
  unfold VoiceRotator.get_next_voice.
  destruct (negb _); destruct (VoiceRotator.available_voices r);
    intros [= <- <-] || intros [=]; done.
Qed.

Lemma synthesize_raise sentence index st e st' :
  raises_exceptions (client (self st)) →
  synthesize_sentence_ultra sha256_hexdigest _create_safe_filename sentence index st
    = (Raise e, st') →
  isinstance e "Exception" = true.
Proof.
  intros Hc. unfold synthesize_sentence_ultra.
  destruct (VoiceRotator.get_next_voice (voice_rotator (self st)))
    as [[voice|e'] rot] eqn:Hvoice.
  2:{ intros [= <- <-]. by eapply get_next_voice_raise. }
  set (st1 := set_self (set_voice_rotator rot (self st)) st).
  assert (Hmiss : ∀ st2, self st2 = self st1 →
            synthesis_loop sha256_hexdigest sentence voice
              (_create_safe_filename sentence index)
              (range (retry_attempts (config (self st1)))) st2 = (Raise e, st') →
            isinstance e "Exception" = true).
  { intros st2 Hs2 Hk. eapply synthesis_loop_raise; [|exact Hk]. by rewrite Hs2. }
  destruct (cache (self st1)); [|by apply Hmiss].
  destruct (get_cached_audio _ _ _ _ _ _ _) as [[cached_file|] tbl];
    [|by apply Hmiss].
  case_bool_decide; [by apply Hmiss|].
  destruct (exists_ _ _); [done|].
  unfold copy2. destruct (_ !! _); [done|]. by intros [= <- <-].
Qed.

Lemma collect_results_total batch todo :
  ∀ acc st,
    raises_exceptions (client (self st)) →
    ∃ rs st',
      collect_results sha256_hexdigest _create_safe_filename batch todo acc st
      = (Return rs, st').
Proof.
  induction todo as [|[index sentence] rest IH]; intros acc st Hc; [by eexists _, _|].
  cbn [collect_results].
  pose proof (synthesize_settings sha256_hexdigest _create_safe_filename
                sentence index st) as ((_ & _ & _ & _ & Hcl) & _).
  destruct (synthesize_sentence_ultra _ _ sentence index st) as [o st1] eqn:Hsyn.
  simpl in Hcl.
  assert (Hc1 : raises_exceptions (client (self st1))) by (by rewrite Hcl).
  destruct o as [[filepath|]|e].
  - case_bool_decide; by apply IH.
  - by apply IH.
  - rewrite (synthesize_raise _ _ _ _ _ Hc Hsyn). by apply IH.
Qed.

Lemma process_one_batch_total n_batches n_sentences batch_num batch results st :
  checkpoint_manager (self st) = true →
  checkpoint_interval (config (self st)) ≠ 0 →
  raises_exceptions (client (self st)) →
  ∃ results' st',
    process_one_batch sha256_hexdigest _create_safe_filename n_batches n_sentences
      batch_num batch results st = (Return results', st').
Proof.
  intros Hcm Hint Hc. unfold process_one_batch. rewrite Hcm. cbn [andb].
  case_bool_decide; [by eexists _, _|].
  unfold process_batch_ultra_async.
  destruct (collect_results_total
              (filter (fun it => fst it ∉ processed_indices (self st)) batch)
              (filter (fun it => fst it ∉ processed_indices (self st)) batch)
              [] st Hc) as (rs & st1 & Hrun).
  rewrite Hrun.
  apply collect_results_spec in Hrun as (_ & (Hcfg & Hcm1 & _) & _).
  destruct (merge_results rs results (processed_indices (self st1)))
    as [results1 processed1].
  set (st2 := set_self (set_processed_indices processed1 (self st1)) st1).
  change (checkpoint_manager (self st2)) with (checkpoint_manager (self st1)).
  change (config (self st2)) with (config (self st1)).
  rewrite Hcm1, Hcm, Hcfg.
  rewrite bool_decide_eq_false_2 by done.
  assert (Hend : ∀ st3,
            ∃ results' st',
              (if (if Qlt_le_dec 0 (delay (config (self st))) then true else false)
                  && bool_decide (batch_num < n_batches)
               then match sleep_in (delay (config (self st))) st3 with
                    | (Return _, st4) => (Return results1, st4)
                    | (Raise e, st4) => (Raise e, st4)
                    end
               else (Return results1, st3)) = (Return results', st')).
  { intros st3. destruct (Qlt_le_dec 0 (delay (config (self st)))) as [Hpos|_];
      [|by eexists _, _].
    cbn [andb]. case_bool_decide; [|by eexists _, _].
    destruct (sleep_in_nonneg (delay (config (self st))) st3) as (w & -> & _).
    - by apply Qlt_le_weak.
    - by eexists _, _. }
  destruct (bool_decide (batch_num `mod` checkpoint_interval (config (self st)) = 0));
    apply Hend.
Qed.

Lemma process_batches_total n_batches n_sentences batches :
  ∀ batch_num results st,
    checkpoint_manager (self st) = true →
    checkpoint_interval (config (self st)) ≠ 0 →
    raises_exceptions (client (self st)) →
    ∃ results' st',
      process_batches sha256_hexdigest _create_safe_filename n_batches n_sentences
        batch_num batches results st = (Return results', st').
Proof.
  induction batches as [|batch rest IH]; intros batch_num results st Hcm Hint Hc;
    [by eexists _, _|].
  cbn [process_batches].
  destruct (process_one_batch_total n_batches n_sentences batch_num batch results
              st Hcm Hint Hc) as (results1 & st1 & Hone).
  rewrite Hone.
  apply process_one_batch_spec in Hone as (_ & _ & _ & Hcfg & Hcm1 & _ & _ & Hcl);
    [|done].
  apply IH; [by rewrite Hcm1 | by rewrite Hcfg | by rewrite Hcl].
Qed.

(** With a checkpoint manager, a checkpoint interval other than 0, a plan
    and a provider that raises nothing but instances of [Exception], a
    run reaches its end and returns its results. *)
Lemma run_reaches_end sentences st :
  checkpoint_manager (self st) = true →
  checkpoint_interval (config (self st)) ≠ 0 →
  plans (self st) →
  raises_exceptions (client (self st)) →
  ∃ results st',
    process_batch_ultra sha256_hexdigest _create_safe_filename strip sentences st
    = (Return results, st').
Proof.
  intros Hcm Hint Hplans Hc. unfold process_batch_ultra.
  assert (Hstart : ∃ batches st1,
            start_run strip sentences st = (Return batches, st1) ∧
            self st1 = set_processed_indices (processed_indices (self st1))
                         (set_sentences sentences (self st))).
  { unfold start_run.
    set (st0 := set_self (set_sentences sentences (self st)) st).
    change (checkpoint_manager (self st0)) with (checkpoint_manager (self st)).
    rewrite Hcm. destruct (load_checkpoint _) as [P tc].
    set (stc := if _ && _ then _ else _).
    assert (Hstc : self stc = set_processed_indices (processed_indices (self stc))
                                (set_sentences sentences (self st))).
    { subst stc. destruct (_ && _); [done|]. simpl. by destruct (self st). }
    assert (Hbat : batcher (self stc) = batcher (self st)) by (by rewrite Hstc).
    assert (Hcfg : config (self stc) = config (self st)) by (by rewrite Hstc).
    rewrite Hbat, Hcfg. destruct Hplans as [[m Hm]|Hge].
    - rewrite Hm. by eexists _, _.
    - destruct (batcher (self st)); [by eexists _, _|].
      unfold simple_batches. rewrite !bool_decide_eq_false_2 by lia.
      by eexists _, _. }
  destruct Hstart as (batches & st1 & -> & Hself1).
  destruct (process_batches_total (Z.of_nat (length batches))
              (Z.of_nat (length sentences)) batches 1 (empty_results sentences) st1)
    as (results & st2 & ->); try (by rewrite Hself1).
  unfold finish_run. by eexists _, _.
Qed.

End WithExternals.

End RunTotality.

(** ** Runs on a small input *)

Module RunExamples.

Import ErrorHandler Pathlib AudioCache CheckpointManager AdvancedTTSProcessor.
Import SynthesisProps ResilienceProps RunProps.

(** Batches of one sentence, a checkpoint after every batch, no delay
    between the batches, a fixed voice. *)
Definition one_by_one : UltraProcessingConfig :=
  mkUltraProcessingConfig "en-US-Neural2-A" "MP3" 24000 0 5 1 3 (1 # 2)
    true true 10 15 true true 1 false.

(** A provider that refuses the text "bad". *)
Definition picky : Client :=
  fun req _ =>
    if bool_decide (req_text req = "bad")
    then Raise (GoogleAPIError "400 invalid argument")
    else Return "audio".

Definition run_state (c : Client) : State :=
  mkState (set_language_code "en-US" (__init__ "out" one_by_one c))
          (mkStorage ∅ [] Absent) world_start.

(** The state of a run when its loop has ended, before the statements
    that follow the loop. *)
Definition state_after_loop (sentences : list string) (st : State) : State :=
  match start_run id sentences st with
  | (Return batches, st1) =>
      snd (process_batches id plain_name (Z.of_nat (length batches))
             (Z.of_nat (length sentences)) 1 batches (empty_results sentences) st1)
  | (Raise _, st1) => st1
  end.

Definition run_good_bad : outcome Results * State :=
  process_batch_ultra id plain_name id ["good"; "bad"] (run_state picky).

Lemma checkpoint_cleared_at_end_witness :
  checkpoint_file (storage (snd run_good_bad)) = Absent.
Proof.
  destruct run_good_bad as [o st'] eqn:Hrun.
  assert (Ho : ∃ results, o = Return results).
  { replace o with (fst run_good_bad) by (by rewrite Hrun).
    eexists. vm_compute. reflexivity. }
  destruct Ho as [results ->].
  apply (checkpoint_cleared_at_end id plain_name id ["good"; "bad"]
           (run_state picky) results st').
  - reflexivity.
  - exact Hrun.
Defined.

(** C9 as stated does not hold.  Of the sentences "good" and "bad" the
    provider refuses the second.  When the loop of the run has ended the
    checkpoint on the storage holds index 1 of 2; the run reaches its end
    with one failed item, and the checkpoint is deleted. *)
Lemma checkpoint_cleared_despite_failure :
  (cp_processed_indices <$>
     match checkpoint_file (storage (state_after_loop ["good"; "bad"]
                                       (run_state picky))) with
     | Written data => Some data
     | _ => None
     end) = Some [1] ∧
  (failed_count <$> match fst run_good_bad with
                    | Return results => Some results
                    | Raise _ => None
                    end) = Some 1 ∧
  (successful <$> match fst run_good_bad with
                  | Return results => Some results
                  | Raise _ => None
                  end) = Some 1 ∧
  checkpoint_file (storage (snd run_good_bad)) = Absent.
Proof. repeat split; vm_compute; reflexivity. Qed.





End RunExamples.

(** ** More on the retry decorator *)

Module RetryMoreProps.

Import ErrorHandler RetryProps.

(** [retry_with_backoff] with no attempt to make: the loop body never
    runs, [last_exception] is still [None] and [raise last_exception]
    raises [TypeError]; the wrapped function is not called. *)
Theorem retry_without_attempts {A} (cfg : RetryConfig) (func : Callable A)
    (w : World) :
  max_attempts cfg <= 0 →
  retry_with_backoff cfg func w
  = (Raise (TypeError "exceptions must derive from BaseException"), w).
Proof.
  intros Hmax. unfold retry_with_backoff, range.
  by rewrite seqZ_nil by lia.
Qed.

Lemma retry_without_attempts_witness :
  retry_with_backoff (mkRetryConfig 0 1 60 2 true)
    (scripted (fun _ => Return 7)) (quiet_world (fun _ => 0%Q))
  = (Raise (TypeError "exceptions must derive from BaseException"),
     quiet_world (fun _ => 0%Q)).
Proof.
  apply (retry_without_attempts (mkRetryConfig 0 1 60 2 true)). simpl. lia.
Defined.

Section FirstSuccess.

Context {A : Type} (cfg : RetryConfig) (script : nat -> outcome A).
Hypothesis base_delay_nonneg : (0 <= base_delay cfg)%Q.
Hypothesis max_delay_nonneg : (0 <= max_delay cfg)%Q.
Hypothesis exponential_base_nonneg : (0 <= exponential_base cfg)%Q.


End FirstSuccess.




End RetryMoreProps.

(** ** The error statistics *)

Module ErrorStatsProps.

Import ErrorHandler CircuitBreakerProps.

(** The statistics kept for an error type; those of a type never seen
    are the ones [record_error] starts from. *)
Definition stats_of (error_type : string) (w : World) : ErrorStats :=
  default (mkErrorStats 0 None []) (error_stats (error_handler w) !! error_type).

Lemma last_100_length {B} (l : list B) :
  (100 < length l)%nat → length (last_100 l) = 100%nat.
Proof. intros H. unfold last_100. rewrite length_drop. lia. Qed.

Lemma stats_of_record error_type e ctx w :
  stats_of error_type (record_error error_type e ctx w)
  = let errs := errors (stats_of error_type w)
                  ++ [mkErrorEntry (clock w) (message e) ctx] in
    mkErrorStats (count (stats_of error_type w) + 1) (Some (clock w))
      (if decide (100 < length errs)%nat then last_100 errs else errs).
Proof.
  unfold stats_of at 1, record_error. cbn [error_handler set_error_handler error_stats].
  by rewrite lookup_insert_eq.
Qed.

Lemma stats_of_record_ne error_type other e ctx w :
  other ≠ error_type →
  stats_of other (record_error error_type e ctx w) = stats_of other w.
Proof.
  intros Hne. unfold stats_of, record_error.
  cbn [error_handler set_error_handler error_stats].
  by rewrite lookup_insert_ne.
Qed.

(** [record_error] counts every error of a type and keeps the last 100
    of them.  After a call the count of the type is one more than before
    and its last occurrence is the time of the call; the list of the type
    holds at most 100 entries, ends with the entry of this error and is
    the end of the old list followed by that entry; the statistics of
    the other types and the circuit breakers are as before. *)
Theorem record_error_bounded_history (error_type : string) (e : exn)
    (ctx : list (string * string)) (w : World) :
  let entry := mkErrorEntry (clock w) (message e) ctx in
  let old := stats_of error_type w in
  let new := stats_of error_type (record_error error_type e ctx w) in
  error_stats (error_handler (record_error error_type e ctx w)) !! error_type
    = Some new ∧
  count new = count old + 1 ∧
  last_occurrence new = Some (clock w) ∧
  (length (errors new) <= 100)%nat ∧
  last (errors new) = Some entry ∧
  errors new `suffix_of` errors old ++ [entry] ∧
  ((length (errors old) < 100)%nat → errors new = errors old ++ [entry]) ∧
  (∀ other, other ≠ error_type →
     error_stats (error_handler (record_error error_type e ctx w)) !! other
     = error_stats (error_handler w) !! other) ∧
  circuit_breakers (error_handler (record_error error_type e ctx w))
    = circuit_breakers (error_handler w).
Proof.
  intros entry old new.
  assert (Hnew : new = mkErrorStats (count old + 1) (Some (clock w))
            (if decide (100 < length (errors old ++ [entry]))%nat
             then last_100 (errors old ++ [entry]) else errors old ++ [entry]))
    by apply stats_of_record.
  split.
  { rewrite Hnew. unfold record_error.
    cbn [error_handler set_error_handler error_stats].
    by rewrite lookup_insert_eq. }
  rewrite Hnew. cbn [count last_occurrence errors].
  split; [done|]. split; [done|].
  destruct (decide (100 < length (errors old ++ [entry]))%nat) as [Hlong|Hshort].
  - split; [by rewrite last_100_length|]. split.
    + unfold last_100. rewrite length_app in *. simpl in *.
      rewrite drop_app_le by lia. by rewrite last_snoc.
    + split; [apply suffix_drop|]. split.
      * intros Hlt. rewrite length_app in Hlong. simpl in Hlong. lia.
      * split; [|done]. intros other Hne. unfold record_error.
        cbn [error_handler set_error_handler error_stats].
        by rewrite lookup_insert_ne.
  - split; [lia|]. split; [by rewrite last_snoc|]. split; [done|].
    split; [done|]. split; [|done]. intros other Hne. unfold record_error.
    cbn [error_handler set_error_handler error_stats].
    by rewrite lookup_insert_ne.
Qed.

(** [handle_tts_errors] is transparent: the decorated function returns
    or raises what the function does.  A result, or an exception that is
    not an [Exception], leaves the world as the function left it.  An
    [Exception] is counted once, under the name of its type; the clock,
    the delays slept, the count of invocations and the circuit breakers
    are those the function left. *)
Theorem handle_tts_errors_transparent {A} (fname args kwargs : string)
    (func : Callable A) (w : World) :
  let plain := func w in
  let handled := handle_tts_errors fname args kwargs func w in
  fst handled = fst plain ∧
  clock (snd handled) = clock (snd plain) ∧
  slept (snd handled) = slept (snd plain) ∧
  invoked (snd handled) = invoked (snd plain) ∧
  circuit_breakers (error_handler (snd handled))
    = circuit_breakers (error_handler (snd plain)) ∧
  match fst plain with
  | Return _ => snd handled = snd plain
  | Raise e =>
      if isinstance e "Exception"
      then count (stats_of (type_name e) (snd handled))
           = count (stats_of (type_name e) (snd plain)) + 1
           ∧ ∀ other, other ≠ type_name e →
               stats_of other (snd handled) = stats_of other (snd plain)
      else snd handled = snd plain
  end.
Proof.
  intros plain handled. subst plain handled. unfold handle_tts_errors.
  destruct (func w) as [[r|e] w1]; [done|].
  destruct (isinstance e "Exception") eqn:He; cbn [fst snd].
  2: { rewrite He. done. }
  rewrite He. repeat split; try done.
  - by rewrite stats_of_record.
  - intros other Hne. by apply stats_of_record_ne.
Qed.

End ErrorStatsProps.

(** ** The life of a circuit breaker *)

Module BreakerLifeProps.

Import ErrorHandler CircuitBreakerProps RetryProps.

(** What is done to a breaker over its life: a call of a function when
    the clock shows [t], or a reset. *)
Inductive BreakerOp (A : Type) : Type :=
| DoCall (t : Q) (func : Callable A)
| DoReset.
Arguments DoCall {A} t func.
Arguments DoReset {A}.

Definition run_op {A} (name : string) (w : World) (op : BreakerOp A) : World :=
  match op with
  | DoCall t func => snd (call_at name func t w)
  | DoReset => reset_circuit_breaker name w
  end.

Definition run_ops {A} (name : string) (ops : list (BreakerOp A)) (w : World)
    : World :=
  foldl (run_op name) w ops.

Definition quiet_op {A} (op : BreakerOp A) : Prop :=
  match op with
  | DoCall _ func => quiet func
  | DoReset => True
  end.

Lemma run_op_keeps_tripped_by_count {A} name (op : BreakerOp A) w cb :
  quiet_op op →
  breaker_at name w = Some cb →
  tripped_by_count cb → 0 <= failure_count cb →
  ∃ cb', breaker_at name (run_op name w op) = Some cb' ∧
         config cb' = config cb ∧ tripped_by_count cb' ∧ 0 <= failure_count cb'.
Proof.
  intros Hq Hcb Hwf Hpos. destruct op as [t func|]; simpl in *.
  - unfold call_at.
    destruct (gate_call (clock (set_clock t w)) cb) as [cb1|e] eqn:Hgate.
    + assert (H1 : config cb1 = config cb ∧ tripped_by_count cb1
                   ∧ failure_count cb1 = failure_count cb).
      { unfold gate_call in Hgate. destruct (decide (state cb = OPEN)) as [Ho|Hno].
        - destruct (last_failure_time cb) eqn:Hl; [|done].
          destruct (Qlt_le_dec _ _); [|done]. injection Hgate as <-.
          split; [done|]. split; [|done]. intros _. simpl.
          destruct Hwf as [Hc _]; [by rewrite Ho|]. split; [done|by eexists].
        - injection Hgate as <-. done. }
      destruct H1 as (Hcfg & Hwf1 & Hfc).
      rewrite (call_let_through name func (set_clock t w) cb cb1 Hq Hcb Hgate).
      destruct (fst (func (set_breaker name cb1 (set_clock t w)))) as [r|e].
      * eexists. split; [apply breaker_at_set_breaker|]. split; [done|].
        split; [|simpl; lia].
        unfold tripped_by_count, _on_success; simpl.
        destruct (decide (state cb1 = HALF_OPEN)); [done|].
        intros Hs. destruct (Hwf1 Hs) as [Hc Hl]. split; [|done].
        unfold gate_call in Hgate.
        destruct (decide (state cb = OPEN)) as [Ho|Hno].
        -- destruct (last_failure_time cb); [|done].
           destruct (Qlt_le_dec _ _); [|done]. injection Hgate as <-. done.
        -- injection Hgate as <-. by destruct (state cb).
      * destruct (isinstance e _).
        -- eexists. split; [apply breaker_at_set_breaker|]. split; [done|].
           split; [|simpl; lia].
           unfold tripped_by_count, _on_failure; simpl.
           destruct (decide (_ <= _)) as [Hge|Hlt].
           ++ intros _. split; [done|by eexists].
           ++ intros Hs. destruct (Hwf1 Hs) as [Hc _]. lia.
        -- exists cb1. split; [|split; [done|split; [done|lia]]].
           cbn [snd]. unfold breaker_at. rewrite Hq.
           apply (breaker_at_set_breaker name cb1 (set_clock t w)).
    + exists cb. split; [|done]. unfold call. unfold breaker_at in Hcb.
      cbn [error_handler set_clock]. by rewrite Hcb, Hgate.
  - unfold reset_circuit_breaker, update_breaker. unfold breaker_at in Hcb.
    rewrite Hcb. eexists. split; [apply breaker_at_set_breaker|].
    split; [done|]. split; [by intros H|simpl; lia].
Qed.

(** Over the life of a breaker, whatever the calls made through it and
    the resets, as long as the wrapped functions leave the error handler
    alone: the breaker stays registered with its configuration, its
    failure count is never negative, and when it is open or half-open it
    has counted at least [failure_threshold] failures and holds the time
    of the last one.  So the test [time.time() - self.last_failure_time]
    of [call] never meets [None]: a call is let through or refused with
    the circuit-open error. *)
Theorem breaker_invariant {A} (name : string) (cfg : CircuitBreakerConfig)
    (ops : list (BreakerOp A)) (w : World) :
  breaker_at name w = Some (CircuitBreaker_init cfg) →
  Forall quiet_op ops →
  ∃ cb, breaker_at name (run_ops name ops w) = Some cb ∧
        config cb = cfg ∧
        0 <= failure_count cb ∧
        (state cb ≠ CLOSED →
         failure_threshold cfg <= failure_count cb ∧ is_Some (last_failure_time cb)) ∧
        ∀ now, (∃ cb1, gate_call now cb = inl cb1) ∨ gate_call now cb = inr open_error.
Proof.
  intros Hcb Hq.
  assert (Hinv : ∃ cb, breaker_at name (run_ops name ops w) = Some cb ∧
                   config cb = cfg ∧ tripped_by_count cb ∧ 0 <= failure_count cb).
  { revert w Hcb Hq.
    assert (Hgen : ∀ w cb0, breaker_at name w = Some cb0 → config cb0 = cfg →
              tripped_by_count cb0 → 0 <= failure_count cb0 → Forall quiet_op ops →
              ∃ cb, breaker_at name (run_ops name ops w) = Some cb ∧
                config cb = cfg ∧ tripped_by_count cb ∧ 0 <= failure_count cb).
    { induction ops as [|op ops IH]; intros w cb0 Hcb Hcfg Hwf Hpos Hq.
      - by exists cb0.
      - apply Forall_cons in Hq as [Hq1 Hq2].
        destruct (run_op_keeps_tripped_by_count name op w cb0 Hq1 Hcb Hwf Hpos)
          as (cb1 & Hcb1 & Hcfg1 & Hwf1 & Hpos1).
        apply (IH _ cb1); [done|congruence|done..]. }
    intros w Hcb Hq. eapply Hgen; [done|done| |simpl; lia|done].
    apply tripped_by_count_init. }
  destruct Hinv as (cb & Hcb' & Hcfg & Hwf & Hpos).
  exists cb. split; [done|]. split; [done|]. split; [done|].
  split; [by rewrite <- Hcfg|].
  intros now. unfold gate_call.
  destruct (decide (state cb = OPEN)) as [Ho|Hno]; [|left; by eexists].
  destruct Hwf as [_ [t Ht]]; [by rewrite Ho|]. rewrite Ht.
  destruct (Qlt_le_dec _ _); [left; by eexists|by right].
Qed.

End BreakerLifeProps.

(** ** The protected call *)

Module ProtectedCallProps.

Import ErrorHandler CircuitBreakerProps RetryProps ErrorStatsProps.

(** A wrapped function that leaves the circuit breakers alone (it may
    record errors). *)
Definition keeps_breakers {A} (func : Callable A) : Prop :=
  ∀ w, circuit_breakers (error_handler (snd (func w)))
       = circuit_breakers (error_handler w).

Lemma handle_keeps_breakers {A} fname args kwargs (func : Callable A) :
  keeps_breakers func → keeps_breakers (handle_tts_errors fname args kwargs func).
Proof.
  intros Hk w. unfold handle_tts_errors. specialize (Hk w).
  destruct (func w) as [[r|e] w1]; [done|].
  by destruct (isinstance e "Exception").
Qed.

Lemma scripted_keeps_breakers {A} (script : nat -> outcome A) :
  keeps_breakers (scripted script).
Proof. by intros w. Qed.

Lemma call_through {A} name (func : Callable A) w cb cb1 :
  keeps_breakers func →
  breaker_at name w = Some cb →
  gate_call (clock w) cb = inl cb1 →
  let w1 := set_breaker name cb1 w in
  call name func w =
    match fst (func w1) with
    | Return r =>
        (Return r, set_breaker name (_on_success cb1) (snd (func w1)))
    | Raise e =>
        if isinstance e (expected_exception (config cb))
        then (Raise e, set_breaker name (_on_failure (clock (snd (func w1))) cb1)
                         (snd (func w1)))
        else (Raise e, snd (func w1))
    end.
Proof.
  intros Hq Hcb Hadm w1. unfold call. unfold breaker_at in Hcb.
  rewrite Hcb, Hadm. fold w1.
  assert (Hb : circuit_breakers (error_handler (snd (func w1))) !! name = Some cb1).
  { rewrite Hq. apply (breaker_at_set_breaker name cb1 w). }
  destruct (func w1) as [[r|e] w2]; simpl in *.
  - unfold update_breaker. by rewrite Hb.
  - destruct (isinstance e _); [|done].
    unfold update_breaker. by rewrite Hb.
Qed.

Lemma set_breaker_same name cb w :
  breaker_at name w = Some cb → set_breaker name cb w = w.
Proof.
  intros Hcb. unfold set_breaker, set_error_handler. unfold breaker_at in Hcb.
  rewrite insert_id by done. by destruct w as [? ? ? ? ? []].
Qed.

(** The function as [safe_tts_call] wraps it below the retry. *)
Definition protected {A} (func : Callable A) : Callable A :=
  call "tts_api" (handle_tts_errors "safe_func" "()" "{}" func).

(** The world after the delay slept when attempt [a] failed. *)
Definition after_backoff (cfg : RetryConfig) (a : Z) (w : World) : World :=
  let d := slept_delay cfg a (entropy w (drawn w)) in
  mkWorld (clock w + d)%Q (entropy w)
          (if jitter cfg then S (drawn w) else drawn w)
          (slept w ++ [d]) (invoked w) (error_handler w).

Lemma backoff_then {A} cfg a w (k : World → outcome A * World) :
  (0 <= slept_delay cfg a (entropy w (drawn w)))%Q →
  (let '(delay, w2) :=
     if jitter cfg
     then let '(r, w') := random w in
          ((backoff_delay cfg a * jitter_factor r)%Q, w')
     else (backoff_delay cfg a, w) in
   match sleep delay w2 with
   | (Return _, w3) => k w3
   | (Raise e', w3) => (Raise e', w3)
   end) = k (after_backoff cfg a w).
Proof.
  unfold slept_delay, after_backoff, slept_delay. intros Hd.
  destruct (jitter cfg); simpl; by rewrite sleep_nonneg by done.
Qed.

Definition tts_retry : RetryConfig := mkRetryConfig 3 1 60 2 true.

Lemma tts_delay_range a r :
  0 <= a → (0 <= r)%Q → (r < 1)%Q →
  (0 <= slept_delay tts_retry a r)%Q ∧
  (a <= 1 → (slept_delay tts_retry a r <= 2)%Q).
Proof.
  intros Ha Hr0 Hr1. unfold slept_delay, tts_retry; simpl. split.
  - apply Qmult_le_0_compat; [|unfold jitter_factor; lra].
    apply Q.min_glb; [|done].
    apply Qmult_le_0_compat; [done|]. by apply Qpower_0_le.
  - intros Ha1.
    assert (Hb : (backoff_delay (mkRetryConfig 3 1 60 2 true) a <= 2)%Q).
    { unfold backoff_delay; simpl. eapply Qle_trans; [apply Q.le_min_l|].
      assert (a = 0 ∨ a = 1) as [-> | ->] by lia; done. }
    assert (Hb0 : (0 <= backoff_delay (mkRetryConfig 3 1 60 2 true) a)%Q).
    { apply backoff_delay_nonneg; done. }
    unfold jitter_factor.
    set (b := backoff_delay _ a) in *.
    assert (b * ((1 # 2) + r * (1 # 2)) <= b * 1)%Q.
    { rewrite !(Qmult_comm b). apply Qmult_le_compat_r; [lra|done]. }
    lra.
Qed.

(** One failed attempt through a closed breaker: the error is recorded,
    the breaker counts it. *)
Lemma protected_failure {A} (script : nat -> exn) w cb :
  breaker_at "tts_api" w = Some cb →
  state cb ≠ OPEN →
  isinstance (script (invoked w)) "Exception" = true →
  isinstance (script (invoked w)) (expected_exception (config cb)) = true →
  ∃ w', protected (A := A) (always_failing script) w
          = (Raise (script (invoked w)), w') ∧
        clock w' = clock w ∧ entropy w' = entropy w ∧ drawn w' = drawn w ∧
        slept w' = slept w ∧ invoked w' = S (invoked w) ∧
        breaker_at "tts_api" w' = Some (_on_failure (clock w) cb) ∧
        (∀ T, count (stats_of T w')
              = count (stats_of T w)
                + (if decide (T = type_name (script (invoked w))) then 1 else 0)).
Proof.
  intros Hcb Hst Hexc Hexp. unfold protected.
  rewrite (call_through "tts_api" _ w cb cb);
    [|apply handle_keeps_breakers, scripted_keeps_breakers | done
     |by apply gate_not_open].
  rewrite (set_breaker_same _ _ _ Hcb).
  unfold handle_tts_errors, always_failing, scripted. rewrite Hexc.
  cbn [fst snd]. rewrite Hexp. eexists. split; [reflexivity|].
  split; [done|]. split; [done|]. split; [done|]. split; [done|].
  split; [done|]. split; [apply breaker_at_set_breaker|].
  intros T. unfold set_breaker, stats_of.
  cbn [error_handler set_error_handler error_stats].
  destruct (decide (T = _)) as [->|Hne].
  - pose proof (stats_of_record (type_name (script (invoked w))) (script (invoked w))
      [("function", "safe_func"); ("args", "()"); ("kwargs", "{}")]
      (mkWorld (clock w) (entropy w) (drawn w) (slept w) (S (invoked w))
         (error_handler w))) as Hrec.
    unfold stats_of in Hrec. rewrite Hrec. done.
  - pose proof (stats_of_record_ne (type_name (script (invoked w))) T
      (script (invoked w))
      [("function", "safe_func"); ("args", "()"); ("kwargs", "{}")]
      (mkWorld (clock w) (entropy w) (drawn w) (slept w) (S (invoked w))
         (error_handler w)) Hne) as Hrec.
    unfold stats_of in Hrec. rewrite Hrec. simpl. lia.
Qed.

End ProtectedCallProps.

Module SafeCallFailureProps.

Import ErrorHandler CircuitBreakerProps RetryProps ErrorStatsProps ProtectedCallProps.

Lemma retry_step_failure {A} (script : nat -> exn) a rest last w cb :
  breaker_at "tts_api" w = Some cb →
  state cb ≠ OPEN →
  isinstance (script (invoked w)) "Exception" = true →
  isinstance (script (invoked w)) (expected_exception (config cb)) = true →
  0 <= a → a ≠ 2 →
  (0 <= entropy w (drawn w))%Q → (entropy w (drawn w) < 1)%Q →
  ∃ w',
    retry_loop (A := A) tts_retry (protected (always_failing script))
      (a :: rest) last w
    = retry_loop tts_retry (protected (always_failing script)) rest
        (Some (script (invoked w))) w' ∧
    (clock w' == clock w + slept_delay tts_retry a (entropy w (drawn w)))%Q ∧
    entropy w' = entropy w ∧ drawn w' = S (drawn w) ∧
    length (slept w') = S (length (slept w)) ∧ invoked w' = S (invoked w) ∧
    breaker_at "tts_api" w' = Some (_on_failure (clock w) cb) ∧
    (∀ T, count (stats_of T w')
          = count (stats_of T w)
            + (if decide (T = type_name (script (invoked w))) then 1 else 0)).
Proof.
  intros Hcb Hst Hexc Hexp Ha Ha2 Hr0 Hr1.
  destruct (protected_failure (A := A) script w cb Hcb Hst Hexc Hexp)
    as (w1 & Hcall & Hc & He & Hd & Hs & Hi & Hb & Hstats).
  cbn [retry_loop]. rewrite Hcall, Hexc.
  destruct (decide (a = max_attempts tts_retry - 1)) as [Heq|_];
    [simpl in Heq; lia|].
  rewrite (backoff_then tts_retry a w1
             (fun w3 => retry_loop tts_retry (protected (always_failing script))
                          rest (Some (script (invoked w))) w3)).
  2: { rewrite He, Hd. by apply tts_delay_range. }
  eexists. split; [reflexivity|]. unfold after_backoff. cbn.
  rewrite He, Hd, Hc, Hs, Hi. split; [reflexivity|]. split; [done|].
  split; [done|]. split; [rewrite length_app; simpl; lia|]. split; [done|].
  split; [exact Hb|]. exact Hstats.
Qed.


Lemma retry_last_failure {A} (script : nat -> exn) last w cb :
  breaker_at "tts_api" w = Some cb →
  state cb ≠ OPEN →
  isinstance (script (invoked w)) "Exception" = true →
  isinstance (script (invoked w)) (expected_exception (config cb)) = true →
  ∃ w',
    retry_loop (A := A) tts_retry (protected (always_failing script)) [2] last w
    = (Raise (script (invoked w)), w') ∧
    clock w' = clock w ∧ entropy w' = entropy w ∧ drawn w' = drawn w ∧
    slept w' = slept w ∧ invoked w' = S (invoked w) ∧
    breaker_at "tts_api" w' = Some (_on_failure (clock w) cb) ∧
    (∀ T, count (stats_of T w')
          = count (stats_of T w)
            + (if decide (T = type_name (script (invoked w))) then 1 else 0)).
Proof.
  intros Hcb Hst Hexc Hexp.
  destruct (protected_failure (A := A) script w cb Hcb Hst Hexc Hexp)
    as (w1 & Hcall & Hrest).
  cbn [retry_loop]. rewrite Hcall, Hexc. simpl. by exists w1.
Qed.

Lemma retry_last_refused {A} (func : Callable A) last w cb t :
  breaker_at "tts_api" w = Some cb →
  state cb = OPEN → last_failure_time cb = Some t →
  (clock w - t <= recovery_timeout (config cb))%Q →
  retry_loop tts_retry (protected func) [2] last w = (Raise open_error, w).
Proof.
  intros Hcb Hst Hl Hle. cbn [retry_loop]. unfold protected, call.
  unfold breaker_at in Hcb. rewrite Hcb.
  by rewrite (gate_open_early _ _ t Hst Hl Hle).
Qed.

(** A round of [safe_tts_call] whose three attempts all fail, through a
    breaker that is closed and stays closed up to the last attempt. *)
Lemma failing_round {A} (script : nat -> exn) w cb :
  breaker_at "tts_api" w = Some cb →
  state cb = CLOSED →
  failure_count cb + 2 < failure_threshold (config cb) →
  (∀ k, isinstance (script k) "Exception" = true) →
  (∀ k, isinstance (script k) (expected_exception (config cb)) = true) →
  (∀ i, 0 <= entropy w i ∧ entropy w i < 1)%Q →
  ∃ w' t,
    retry_with_backoff (A := A) tts_retry (protected (always_failing script)) w
    = (Raise (script (invoked w + 2)%nat), w') ∧
    entropy w' = entropy w ∧ drawn w' = (drawn w + 2)%nat ∧
    length (slept w') = (length (slept w) + 2)%nat ∧
    invoked w' = (invoked w + 3)%nat ∧
    breaker_at "tts_api" w'
    = Some (mkCircuitBreaker (config cb) (failure_count cb + 3) (Some t)
              (if decide (failure_threshold (config cb) <= failure_count cb + 3)
               then OPEN else CLOSED)) ∧
    (∀ T, count (stats_of T w')
          = count (stats_of T w)
            + Z.of_nat (length (filter (fun k => type_name (script (invoked w + k)%nat) = T)
                                       [0; 1; 2]%nat))).
Proof.
  intros Hcb Hst Hcount Hexc Hexp Hent.
  unfold retry_with_backoff. change (range (max_attempts tts_retry)) with [0; 1; 2].
  destruct (retry_step_failure (A := A) script 0 [1; 2] None w cb)
    as (w1 & -> & Hc1 & He1 & Hd1 & Hs1 & Hi1 & Hb1 & Hst1);
    [done | congruence | done | done | lia | lia | apply Hent | apply Hent |].
  assert (Hcb1 : _on_failure (clock w) cb
                 = mkCircuitBreaker (config cb) (failure_count cb + 1)
                     (Some (clock w)) CLOSED).
  { unfold _on_failure. rewrite Hst.
    destruct (decide (_ <= _)); [lia|done]. }
  rewrite Hcb1 in Hb1.
  destruct (retry_step_failure (A := A) script 1 [2] (Some (script (invoked w))) w1
              (mkCircuitBreaker (config cb) (failure_count cb + 1)
                 (Some (clock w)) CLOSED))
    as (w2 & -> & Hc2 & He2 & Hd2 & Hs2 & Hi2 & Hb2 & Hst2);
    [exact Hb1 | done | done | apply Hexp | lia | lia
    | rewrite He1; apply Hent | rewrite He1; apply Hent |].
  assert (Hcb2 : _on_failure (clock w1)
                   (mkCircuitBreaker (config cb) (failure_count cb + 1)
                      (Some (clock w)) CLOSED)
                 = mkCircuitBreaker (config cb) (failure_count cb + 2)
                     (Some (clock w1)) CLOSED).
  { unfold _on_failure. simpl.
    destruct (decide (_ <= _)); [lia|]. f_equal. lia. }
  rewrite Hcb2 in Hb2.
  destruct (retry_last_failure (A := A) script (Some (script (invoked w1))) w2
              (mkCircuitBreaker (config cb) (failure_count cb + 2)
                 (Some (clock w1)) CLOSED))
    as (w3 & -> & Hc3 & He3 & Hd3 & Hs3 & Hi3 & Hb3 & Hst3);
    [exact Hb2 | done | done | apply Hexp |].
  exists w3, (clock w2). rewrite Hi2, Hi1.
  replace (S (S (invoked w))) with (invoked w + 2)%nat by lia.
  split; [done|]. split; [congruence|]. split; [lia|].
  split; [rewrite Hs3; lia|]. split; [lia|]. split.
  - rewrite Hb3. unfold _on_failure. simpl.
    replace (failure_count cb + 2 + 1) with (failure_count cb + 3) by lia. done.
  - intros T. rewrite Hst3, Hst2, Hst1, Hi2, Hi1. cbn [filter list_filter].
    rewrite !Nat.add_0_r.
    replace (invoked w + 1)%nat with (S (invoked w)) by lia.
    replace (invoked w + 2)%nat with (S (S (invoked w))) by lia.
    repeat case_decide; simpl; try lia; congruence.
Qed.

Lemma get_circuit_breaker_new w :
  breaker_at "tts_api" w = None →
  let w0 := get_circuit_breaker "tts_api" None w in
  breaker_at "tts_api" w0 = Some (CircuitBreaker_init CircuitBreakerConfig_default) ∧
  clock w0 = clock w ∧ entropy w0 = entropy w ∧ drawn w0 = drawn w ∧
  slept w0 = slept w ∧ invoked w0 = invoked w ∧
  error_stats (error_handler w0) = error_stats (error_handler w).
Proof.
  intros Hcb w0. subst w0. unfold get_circuit_breaker. unfold breaker_at in Hcb.
  rewrite Hcb. split; [apply breaker_at_set_breaker|done].
Qed.

Lemma get_circuit_breaker_old w cb :
  breaker_at "tts_api" w = Some cb → get_circuit_breaker "tts_api" None w = w.
Proof.
  intros Hcb. unfold get_circuit_breaker. unfold breaker_at in Hcb. by rewrite Hcb.
Qed.

Lemma safe_tts_call_first_round {A} (script : nat -> exn) (w : World) :
  breaker_at "tts_api" w = None →
  (∀ k, isinstance (script k) "Exception" = true) →
  (∀ i, 0 <= entropy w i ∧ entropy w i < 1)%Q →
  ∃ w' t,
    safe_tts_call (A := A) (always_failing script) w
    = (Raise (script (invoked w + 2)%nat), w') ∧
    entropy w' = entropy w ∧
    invoked w' = (invoked w + 3)%nat ∧
    length (slept w') = (length (slept w) + 2)%nat ∧
    breaker_at "tts_api" w'
    = Some (mkCircuitBreaker CircuitBreakerConfig_default 3 (Some t) CLOSED) ∧
    (∀ T, count (stats_of T w')
          = count (stats_of T w)
            + Z.of_nat (length (filter (fun k => type_name (script (invoked w + k)%nat) = T)
                                       [0; 1; 2]%nat))).
Proof.
  intros Hnone Hexc Hent. unfold safe_tts_call.
  destruct (get_circuit_breaker_new w Hnone) as (Hcb & Hc & He & Hd & Hs & Hi & Hst).
  set (w0 := get_circuit_breaker "tts_api" None w) in *.
  destruct (failing_round (A := A) script w0
              (CircuitBreaker_init CircuitBreakerConfig_default) Hcb)
    as (w' & t & Hrun & He' & _ & Hs' & Hi' & Hb' & Hst');
    [done | simpl; lia | done | done | by rewrite He |].
  change (mkRetryConfig 3 1 60 2 true) with tts_retry.
  fold (protected (A := A) (always_failing script)).
  rewrite Hrun. rewrite Hi in *. exists w', t.
  split; [done|]. split; [congruence|]. split; [done|].
  split; [by rewrite Hs', Hs|]. split; [exact Hb'|].
  intros T. rewrite Hst'. unfold stats_of. by rewrite Hst.
Qed.

(** [safe_tts_call] on a function that raises an [Exception] at every
    call, when no breaker ["tts_api"] exists yet: the function is called
    three times, with two delays slept in between, and the error of the
    third call is raised; each of the three errors is recorded under the
    name of its type; the breaker is created, has counted three failures
    and is still closed, its threshold being 5. *)
Theorem safe_tts_call_gives_up_after_three {A} (script : nat -> exn) (w : World) :
  breaker_at "tts_api" w = None →
  (∀ k, isinstance (script k) "Exception" = true) →
  (∀ i, 0 <= entropy w i ∧ entropy w i < 1)%Q →
  let res := safe_tts_call (A := A) (always_failing script) w in
  fst res = Raise (script (invoked w + 2)%nat) ∧
  invoked (snd res) = (invoked w + 3)%nat ∧
  length (slept (snd res)) = (length (slept w) + 2)%nat ∧
  (∃ t, breaker_at "tts_api" (snd res)
        = Some (mkCircuitBreaker CircuitBreakerConfig_default 3 (Some t) CLOSED)) ∧
  (∀ T, count (stats_of T (snd res))
        = count (stats_of T w)
          + Z.of_nat (length (filter (fun k => type_name (script (invoked w + k)%nat) = T)
                                     [0; 1; 2]%nat))).
Proof.
  intros Hnone Hexc Hent res. subst res.
  destruct (safe_tts_call_first_round (A := A) script w Hnone Hexc Hent)
    as (w' & t & -> & _ & Hi & Hs & Hb & Hst).
  cbn [fst snd]. split; [done|]. split; [done|]. split; [done|].
  split; [by exists t|done].
Qed.

(** A second [safe_tts_call] on a function that keeps failing, right
    after the first (the only time that passes is that of the delays
    slept): its first two attempts bring the failure count of the
    breaker to 5, which opens it; its third attempt is refused by the
    open breaker without a call of the function, and the caller gets the
    circuit-open error in place of the error of the function.  Over the
    two protected calls the function was called five times. *)
Theorem second_safe_tts_call_opens_breaker {A} (script : nat -> exn) (w : World) :
  breaker_at "tts_api" w = None →
  (∀ k, isinstance (script k) "Exception" = true) →
  (∀ i, 0 <= entropy w i ∧ entropy w i < 1)%Q →
  let res1 := safe_tts_call (A := A) (always_failing script) w in
  let res2 := safe_tts_call (A := A) (always_failing script) (snd res1) in
  fst res2 = Raise open_error ∧
  invoked (snd res2) = (invoked w + 5)%nat ∧
  ∃ t, breaker_at "tts_api" (snd res2)
       = Some (mkCircuitBreaker CircuitBreakerConfig_default 5 (Some t) OPEN).
Proof.
  intros Hnone Hexc Hent res1 res2. subst res1 res2.
  destruct (safe_tts_call_first_round (A := A) script w Hnone Hexc Hent)
    as (w1 & t1 & -> & He1 & Hi1 & _ & Hb1 & _).
  cbn [snd]. unfold safe_tts_call.
  rewrite (get_circuit_breaker_old w1 _ Hb1).
  change (mkRetryConfig 3 1 60 2 true) with tts_retry.
  fold (protected (A := A) (always_failing script)).
  unfold retry_with_backoff. change (range (max_attempts tts_retry)) with [0; 1; 2].
  destruct (retry_step_failure (A := A) script 0 [1; 2] None w1
              (mkCircuitBreaker CircuitBreakerConfig_default 3 (Some t1) CLOSED))
    as (w2 & -> & Hc2 & He2 & Hd2 & _ & Hi2 & Hb2 & _);
    [done | done | done | done | lia | lia
    | rewrite He1; apply Hent | rewrite He1; apply Hent |].
  change (_on_failure (clock w1)
            (mkCircuitBreaker CircuitBreakerConfig_default 3 (Some t1) CLOSED))
    with (mkCircuitBreaker CircuitBreakerConfig_default 4 (Some (clock w1)) CLOSED)
    in Hb2.
  destruct (retry_step_failure (A := A) script 1 [2] (Some (script (invoked w1))) w2
              (mkCircuitBreaker CircuitBreakerConfig_default 4 (Some (clock w1)) CLOSED))
    as (w3 & -> & Hc3 & He3 & Hd3 & _ & Hi3 & Hb3 & _);
    [done | done | done | done | lia | lia
    | rewrite He2, He1; apply Hent | rewrite He2, He1; apply Hent |].
  change (_on_failure (clock w2)
            (mkCircuitBreaker CircuitBreakerConfig_default 4 (Some (clock w1)) CLOSED))
    with (mkCircuitBreaker CircuitBreakerConfig_default 5 (Some (clock w2)) OPEN)
    in Hb3.
  rewrite (retry_last_refused (always_failing script) _ w3 _ (clock w2) Hb3);
    [|done|done|].
  - cbn [fst snd]. split; [done|]. split; [lia|]. by exists (clock w2).
  - simpl. rewrite Hc3.
    destruct (tts_delay_range 1 (entropy w2 (drawn w2))) as [H0 H2];
      [lia | rewrite He2, He1; apply Hent | rewrite He2, He1; apply Hent|].
    specialize (H2 ltac:(lia)). lra.
Qed.

End SafeCallFailureProps.

Module SafeCallOutcomeProps.

Import ErrorHandler CircuitBreakerProps RetryProps ErrorStatsProps ProtectedCallProps.

(** [safe_tts_call] on a function that returns at once: the function is
    called once, on the world in which the breaker ["tts_api"] is
    registered, and its result is returned; nothing is slept and no error
    is recorded beyond what the function does itself.  The breaker, which
    was not open, is closed afterwards with a failure count of 0. *)
Theorem safe_tts_call_success {A} (func : Callable A) (w w1 : World)
    (cb : CircuitBreaker) (r : A) :
  keeps_breakers func →
  breaker_at "tts_api" (get_circuit_breaker "tts_api" None w) = Some cb →
  state cb ≠ OPEN →
  func (get_circuit_breaker "tts_api" None w) = (Return r, w1) →
  safe_tts_call func w
  = (Return r,
     set_breaker "tts_api"
       (mkCircuitBreaker (config cb) 0 (last_failure_time cb) CLOSED) w1).
Proof.
  intros Hk Hcb Hst Hf. unfold safe_tts_call.
  set (w0 := get_circuit_breaker "tts_api" None w) in *.
  unfold retry_with_backoff. change (range _) with [0; 1; 2].
  cbn [retry_loop].
  rewrite (call_through "tts_api" _ w0 cb cb);
    [|by apply handle_keeps_breakers | done | by apply gate_not_open].
  rewrite (set_breaker_same _ _ _ Hcb).
  unfold handle_tts_errors. rewrite Hf. cbn [fst snd]. do 2 f_equal.
  unfold _on_success. f_equal.
  destruct (decide (state cb = HALF_OPEN)); [done|]. by destruct (state cb).
Qed.

(** [safe_tts_call] lets an exception that is not an [Exception] (a
    [KeyboardInterrupt], a [SystemExit]) through all its layers: the
    function is called once and the exception reaches the caller; it is
    not recorded, not counted by the breaker and not retried. *)
Theorem safe_tts_call_base_exception {A} (func : Callable A) (w w1 : World)
    (cb : CircuitBreaker) (e : exn) :
  keeps_breakers func →
  breaker_at "tts_api" (get_circuit_breaker "tts_api" None w) = Some cb →
  state cb ≠ OPEN →
  func (get_circuit_breaker "tts_api" None w) = (Raise e, w1) →
  isinstance e "Exception" = false →
  isinstance e (expected_exception (config cb)) = false →
  safe_tts_call func w = (Raise e, w1).
Proof.
  intros Hk Hcb Hst Hf Hexc Hexp. unfold safe_tts_call.
  set (w0 := get_circuit_breaker "tts_api" None w) in *.
  unfold retry_with_backoff. change (range _) with [0; 1; 2].
  cbn [retry_loop].
  rewrite (call_through "tts_api" _ w0 cb cb);
    [|by apply handle_keeps_breakers | done | by apply gate_not_open].
  rewrite (set_breaker_same _ _ _ Hcb).
  unfold handle_tts_errors. rewrite Hf, Hexc. cbn [fst snd].
  by rewrite Hexp, Hexc.
Qed.

(** [reset_circuit_breaker] closes the breaker of the name, with no
    failure counted and no time of failure, whatever its state was; a
    call made through it right after runs the function.  The other
    breakers are untouched, and the reset of a name that has no breaker
    changes nothing. *)
Theorem reset_lets_next_call_through (name : string) (w : World) :
  let w' := reset_circuit_breaker name w in
  match breaker_at name w with
  | None => w' = w
  | Some cb =>
      breaker_at name w' = Some (mkCircuitBreaker (config cb) 0 None CLOSED) ∧
      ∀ A (func : Callable A),
        keeps_breakers func → fst (call name func w') = fst (func w')
  end ∧
  ∀ other, other ≠ name → breaker_at other w' = breaker_at other w.
Proof.
  intros w'. subst w'. unfold reset_circuit_breaker, update_breaker.
  unfold breaker_at at 1. destruct (circuit_breakers (error_handler w) !! name)
    as [cb|] eqn:Hcb.
  - split.
    + split; [apply breaker_at_set_breaker|].
      intros A func Hk.
      set (cb0 := mkCircuitBreaker (config cb) 0 None CLOSED).
      rewrite (call_through name func _ cb0 cb0 Hk);
        [|apply breaker_at_set_breaker | by apply gate_not_open].
      rewrite set_breaker_same by apply breaker_at_set_breaker.
      destruct (func _) as [[r|e] w2]; [done|]. cbn [fst].
      by destruct (isinstance e _).
    + intros other Hne. unfold breaker_at, set_breaker.
      cbn [error_handler set_error_handler circuit_breakers].
      by rewrite lookup_insert_ne.
  - done.
Qed.

(** Calls, made at the times [ts], of a function that fails at every
    call. *)
Definition fail_run {A} (name : string) (script : nat -> exn) (ts : list Q)
    (w : World) : World :=
  foldl (fun w t => snd (call_at (A := A) name (always_failing script) t w)) w ts.

Lemma fail_run_closed {A} name cfg (script : nat -> exn) (ts : list Q) :
  (∀ k, isinstance (script k) (expected_exception cfg) = true) →
  ∀ w c lf,
    breaker_at name w = Some (mkCircuitBreaker cfg c lf CLOSED) →
    ts ≠ [] →
    c + Z.of_nat (length ts) <= failure_threshold cfg →
    let w' := fail_run (A := A) name script ts w in
    invoked w' = (invoked w + length ts)%nat ∧
    breaker_at name w'
    = Some (mkCircuitBreaker cfg (c + Z.of_nat (length ts)) (last ts)
              (if decide (c + Z.of_nat (length ts) = failure_threshold cfg)
               then OPEN else CLOSED)).
Proof.
  intros Hexp. induction ts as [|t rest IH]; intros w c lf Hcb Hne Hle w';
    [done|]. subst w'. cbn [fail_run foldl].
  assert (Hstep : invoked (snd (call_at (A := A) name (always_failing script) t w))
                  = S (invoked w) ∧
                  breaker_at name (snd (call_at (A := A) name (always_failing script) t w))
                  = Some (mkCircuitBreaker cfg (c + 1) (Some t)
                            (if decide (failure_threshold cfg <= c + 1)
                             then OPEN else CLOSED))).
  { unfold call_at, always_failing.
    rewrite (call_let_through name _ (set_clock t w)
               (mkCircuitBreaker cfg c lf CLOSED) (mkCircuitBreaker cfg c lf CLOSED)
               (scripted_quiet _) Hcb);
      [|by apply gate_not_open].
    unfold scripted. cbn [fst snd config]. rewrite Hexp.
    cbn [snd]. split; [done|]. apply breaker_at_set_breaker. }
  destruct Hstep as [Hi Hb].
  destruct rest as [|t' rest'].
  - cbn [foldl length last]. split; [lia|]. rewrite Hb.
    simpl in Hle. do 2 f_equal. repeat case_decide; (done || lia).
  - destruct (decide (failure_threshold cfg <= c + 1)) as [Hge|Hlt];
      [simpl in Hle; lia|].
    destruct (IH _ (c + 1) (Some t) Hb) as [Hi' Hb']; [done|simpl in *; lia|].
    unfold fail_run in Hi', Hb'. rewrite Hi', Hb', Hi.
    split; [simpl; lia|]. do 2 f_equal.
    + simpl length. lia.
    + simpl length.
      replace (c + 1 + Z.of_nat (S (length rest')))
        with (c + Z.of_nat (S (S (length rest')))) by lia.
      done.
Qed.

(** A new breaker opens at the failure that brings its count to
    [failure_threshold], and not before: after [k] calls that all failed,
    [k] being between 1 and the threshold, the function was called [k]
    times, the failure count is [k], the time of the last failure is that
    of the last call, and the breaker is open when [k] is the threshold
    and closed otherwise. *)
Theorem breaker_opens_at_threshold {A} (name : string) (cfg : CircuitBreakerConfig)
    (script : nat -> exn) (ts : list Q) (w : World) :
  breaker_at name w = Some (CircuitBreaker_init cfg) →
  (∀ k, isinstance (script k) (expected_exception cfg) = true) →
  ts ≠ [] →
  Z.of_nat (length ts) <= failure_threshold cfg →
  let w' := fail_run (A := A) name script ts w in
  invoked w' = (invoked w + length ts)%nat ∧
  breaker_at name w'
  = Some (mkCircuitBreaker cfg (Z.of_nat (length ts)) (last ts)
            (if decide (Z.of_nat (length ts) = failure_threshold cfg)
             then OPEN else CLOSED)).
Proof.
  intros Hcb Hexp Hne Hle.
  exact (fail_run_closed name cfg script ts Hexp w 0 None Hcb Hne Hle).
Qed.

End SafeCallOutcomeProps.

Module ErrorHandlerExamples.

Import ErrorHandler CircuitBreakerProps RetryProps ErrorStatsProps ProtectedCallProps.
Import BreakerLifeProps SafeCallFailureProps SafeCallOutcomeProps.

(** Three failures, a refused call, a reset and a success on the breaker
    of threshold 3. *)
Definition life : list (BreakerOp Z) :=
  [DoCall 0 failing; DoCall 1 failing; DoCall 2 failing; DoCall 3 working;
   DoReset; DoCall 4 working].

Lemma breaker_invariant_witness :
  ∃ cb, breaker_at "tts_api" (run_ops "tts_api" life world0) = Some cb ∧
        config cb = cfg3 ∧
        0 <= failure_count cb ∧
        (state cb ≠ CLOSED →
         failure_threshold cfg3 <= failure_count cb ∧ is_Some (last_failure_time cb)) ∧
        ∀ now, (∃ cb1, gate_call now cb = inl cb1) ∨ gate_call now cb = inr open_error.
Proof.
  apply (breaker_invariant "tts_api" cfg3 life world0).
  - vm_compute. reflexivity.
  - repeat constructor; apply scripted_quiet.
Defined.

Lemma safe_tts_call_gives_up_after_three_witness :
  let res := safe_tts_call (A := Z) (always_failing (fun _ => boom))
               (quiet_world (fun _ => 0%Q)) in
  fst res = Raise boom ∧ invoked (snd res) = 3%nat ∧
  count (stats_of "RuntimeError" (snd res)) = 3.
Proof.
  intros res.
  destruct (safe_tts_call_gives_up_after_three (A := Z) (fun _ => boom)
              (quiet_world (fun _ => 0%Q))) as (H1 & H2 & _ & _ & H5).
  - vm_compute. reflexivity.
  - intros k. vm_compute. reflexivity.
  - intros i. simpl. split; lra.
  - fold res in H1, H2, H5. split; [exact H1|]. split; [exact H2|].
    rewrite (H5 "RuntimeError"). vm_compute. reflexivity.
Defined.

Lemma second_safe_tts_call_opens_breaker_witness :
  let res1 := safe_tts_call (A := Z) (always_failing (fun _ => boom))
                (quiet_world (fun _ => 0%Q)) in
  let res2 := safe_tts_call (A := Z) (always_failing (fun _ => boom)) (snd res1) in
  fst res2 = Raise open_error ∧ invoked (snd res2) = 5%nat.
Proof.
  intros res1 res2.
  destruct (second_safe_tts_call_opens_breaker (A := Z) (fun _ => boom)
              (quiet_world (fun _ => 0%Q))) as (H1 & H2 & _).
  - vm_compute. reflexivity.
  - intros k. vm_compute. reflexivity.
  - intros i. simpl. split; lra.
  - fold res1 in H1, H2. fold res2 in H1, H2. split; [exact H1 | exact H2].
Defined.

Definition interrupting : Callable Z := scripted (fun _ => Raise KeyboardInterrupt).

Lemma safe_tts_call_success_witness :
  fst (safe_tts_call working (quiet_world (fun _ => 0%Q))) = Return 7 ∧
  invoked (snd (safe_tts_call working (quiet_world (fun _ => 0%Q)))) = 1%nat.
Proof.
  rewrite (safe_tts_call_success working (quiet_world (fun _ => 0%Q))
             (snd (working (get_circuit_breaker "tts_api" None
                              (quiet_world (fun _ => 0%Q)))))
             (CircuitBreaker_init CircuitBreakerConfig_default) 7).
  - split; vm_compute; reflexivity.
  - apply scripted_keeps_breakers.
  - vm_compute. reflexivity.
  - vm_compute. discriminate.
  - vm_compute. reflexivity.
Defined.

Lemma safe_tts_call_base_exception_witness :
  fst (safe_tts_call interrupting (quiet_world (fun _ => 0%Q)))
    = Raise KeyboardInterrupt ∧
  invoked (snd (safe_tts_call interrupting (quiet_world (fun _ => 0%Q)))) = 1%nat ∧
  slept (snd (safe_tts_call interrupting (quiet_world (fun _ => 0%Q)))) = [].
Proof.
  rewrite (safe_tts_call_base_exception interrupting (quiet_world (fun _ => 0%Q))
             (snd (interrupting (get_circuit_breaker "tts_api" None
                                   (quiet_world (fun _ => 0%Q)))))
             (CircuitBreaker_init CircuitBreakerConfig_default) KeyboardInterrupt).
  - repeat split; vm_compute; reflexivity.
  - apply scripted_keeps_breakers.
  - vm_compute. reflexivity.
  - vm_compute. discriminate.
  - vm_compute. reflexivity.
  - vm_compute. reflexivity.
  - vm_compute. reflexivity.
Defined.

Lemma breaker_opens_at_threshold_witness :
  let w' := fail_run (A := Z) "tts_api" (fun _ => boom) [0%Q; 1%Q; 2%Q] world0 in
  invoked w' = 3%nat ∧
  breaker_at "tts_api" w' = Some (mkCircuitBreaker cfg3 3 (Some 2%Q) OPEN).
Proof.
  intros w'.
  destruct (breaker_opens_at_threshold (A := Z) "tts_api" cfg3 (fun _ => boom)
              [0%Q; 1%Q; 2%Q] world0) as (H1 & H2).
  - vm_compute. reflexivity.
  - intros k. vm_compute. reflexivity.
  - discriminate.
  - simpl. lia.
  - fold w' in H1, H2. split; [exact H1 | exact H2].
Defined.

End ErrorHandlerExamples.

(** ** The voice rotation *)

Module VoiceRotatorProps.

Import VoiceRotator.

(** What a caller does with a rotator. *)
Inductive RotatorOp :=
| Next
| SetRotation (enabled : bool).

Definition run_op (r : VoiceRotator) (op : RotatorOp) : VoiceRotator :=
  match op with
  | Next => snd (get_next_voice r)
  | SetRotation enabled => set_rotation_enabled enabled r
  end.

Definition run_ops (ops : list RotatorOp) (r : VoiceRotator) : VoiceRotator :=
  foldl run_op r ops.

(** [k] calls of [get_next_voice] in a row: what each returned, and the
    rotator they leave. *)
Fixpoint next_voices (k : nat) (r : VoiceRotator)
    : list (outcome string) * VoiceRotator :=
  match k with
  | O => ([], r)
  | S k' =>
      let '(v, r1) := get_next_voice r in
      let '(vs, r2) := next_voices k' r1 in
      (v :: vs, r2)
  end.

(** The index and the cycle go together, over the voices the rotator was
    built with. *)
Definition in_step (voices : list string) (r : VoiceRotator) : Prop :=
  available_voices r = voices ∧
  current_voice_index r = Z.of_nat (cycle_position r mod length voices).

Lemma voices_of_Some language_code voices :
  voices_of language_code = Some voices → (language_code, voices) ∈ voice_sets.
Proof.
  unfold voices_of. intros H.
  destruct (head (filter _ voice_sets)) as [[k v]|] eqn:Hhead; [|done].
  injection H as <-. apply head_Some_elem_of in Hhead.
  apply list_elem_of_filter in Hhead as [Hk Hin]. simpl in Hk. by subst k.
Qed.

Lemma voices_of_cases language_code :
  default (default [] (voices_of "en-US")) (voices_of language_code)
  ∈ (snd <$> voice_sets).
Proof.
  destruct (voices_of language_code) as [voices|] eqn:Hv.
  - apply voices_of_Some in Hv. cbn [default].
    by apply (list_elem_of_fmap_2 snd _ (language_code, voices)).
  - cbn [default]. apply list_elem_of_here.
Qed.

Lemma init_voices b language_code :
  available_voices (VoiceRotator_init b language_code) ∈ (snd <$> voice_sets).
Proof. apply voices_of_cases. Qed.

Lemma voice_sets_shape voices :
  voices ∈ (snd <$> voice_sets) → NoDup voices ∧ (4 <= length voices)%nat.
Proof.
  unfold voice_sets. cbn [fmap list_fmap snd]. intros H.
  repeat (apply elem_of_cons in H as [-> | H];
          [split; [apply (bool_decide_unpack _); vm_compute; exact I | simpl; lia]|]).
  by apply elem_of_nil in H.
Qed.

Lemma in_step_init b language_code :
  in_step (available_voices (VoiceRotator_init b language_code))
          (VoiceRotator_init b language_code).
Proof.
  split; [done|]. simpl. by rewrite Nat.Div0.mod_0_l.
Qed.

Lemma in_step_run_op voices r op :
  voices ≠ [] → in_step voices r → in_step voices (run_op r op).
Proof.
  intros Hne [Hv Hi]. destruct op as [|enabled]; [|by split].
  unfold run_op, get_next_voice. rewrite Hv.
  destruct (rotation_enabled r); cbn [negb].
  - destruct voices as [|v0 vs] eqn:Hvoices; [done|]. rewrite <- Hvoices in *.
    cbn [snd]. split; [done|].
    cbn [current_voice_index cycle_position]. rewrite Hi.
    rewrite !Nat2Z.inj_mod, Nat2Z.inj_succ, Zplus_mod_idemp_l.
    by f_equal.
  - destruct voices; by split.
Qed.

Lemma in_step_run_ops voices ops :
  voices ≠ [] → ∀ r, in_step voices r → in_step voices (run_ops ops r).
Proof.
  intros Hne. induction ops as [|op ops IH]; intros r Hr; [done|].
  simpl. apply IH. by apply in_step_run_op.
Qed.

Lemma py_getitem_nat {B} (l : list B) (i : nat) :
  py_getitem l (Z.of_nat i) = l !! i.
Proof.
  unfold py_getitem. rewrite bool_decide_eq_true_2 by lia. by rewrite Nat2Z.id.
Qed.

Lemma in_step_current voices r :
  voices ≠ [] → in_step voices r →
  get_current_voice r = fst (get_next_voice r) ∧
  ∃ v, get_current_voice r = Return v ∧ v ∈ voices.
Proof.
  intros Hne [Hv Hi]. unfold get_current_voice, get_next_voice. rewrite Hv, Hi.
  destruct voices as [|v0 vs]; [done|].
  set (n := length (v0 :: vs)).
  assert (Hn : (0 < n)%nat) by (subst n; simpl; lia).
  destruct (rotation_enabled r); cbn [negb fst].
  - rewrite py_getitem_nat.
    destruct (lookup_lt_is_Some_2 (v0 :: vs) (cycle_position r mod n))
      as [v Hlook].
    { apply Nat.mod_upper_bound. lia. }
    rewrite Hlook. cbn [default]. split; [done|]. exists v. split; [done|].
    by eapply list_elem_of_lookup_2.
  - split; [done|]. exists v0. split; [done|]. by left.
Qed.

Lemma get_next_voice_enabled voices r :
  voices ≠ [] → available_voices r = voices → rotation_enabled r = true →
  ∃ v, voices !! (cycle_position r mod length voices)%nat = Some v ∧
       get_next_voice r
       = (Return v,
          mkVoiceRotator true (language_code r) voices (S (cycle_position r))
            ((current_voice_index r + 1) `mod` Z.of_nat (length voices))).
Proof.
  intros Hne Hv Hrot. unfold get_next_voice. rewrite Hv, Hrot. cbn [negb].
  destruct (lookup_lt_is_Some_2 voices (cycle_position r mod length voices))
    as [v Hlook].
  { apply Nat.mod_upper_bound. by destruct voices. }
  exists v. split; [done|]. rewrite Hlook. by destruct voices.
Qed.

(** [get_current_voice] tells the voice that the next [get_next_voice]
    call returns, not the voice that the last call returned.  On a
    rotator as [__init__] builds it and after any sequence of
    [get_next_voice] and [set_rotation_enabled] calls, [get_current_voice]
    returns a voice of the rotator, the one that [get_next_voice] returns
    when called next; and when rotation is enabled, the voice that a
    [get_next_voice] call returned differs from what [get_current_voice]
    returns after it. *)
Theorem current_voice_is_next_voice (enabled : bool) (language_code : string)
    (ops : list RotatorOp) :
  let r := run_ops ops (VoiceRotator_init enabled language_code) in
  get_current_voice r = fst (get_next_voice r) ∧
  (∃ v, get_current_voice r = Return v ∧ v ∈ available_voices r) ∧
  (rotation_enabled r = true →
   get_current_voice (snd (get_next_voice r)) ≠ fst (get_next_voice r)).
Proof.
  intros r.
  set (voices := available_voices (VoiceRotator_init enabled language_code)).
  destruct (voice_sets_shape voices (init_voices _ _)) as [Hnd Hlen].
  assert (Hne : voices ≠ []) by (intros H; rewrite H in Hlen; simpl in Hlen; lia).
  assert (Hstep : in_step voices r)
    by (apply in_step_run_ops; [done | apply in_step_init]).
  destruct (in_step_current voices r Hne Hstep) as [Hcur Hin].
  split; [done|]. split; [by rewrite (proj1 Hstep)|].
  intros Hrot.
  assert (Hstep' : in_step voices (snd (get_next_voice r)))
    by (apply (in_step_run_op voices r Next); done).
  destruct (in_step_current voices _ Hne Hstep') as [-> _].
  destruct (get_next_voice_enabled voices r Hne (proj1 Hstep) Hrot)
    as (v & Hlook & ->).
  cbn [fst snd].
  destruct (get_next_voice_enabled voices
              (mkVoiceRotator true (VoiceRotator.language_code r) voices
                 (S (cycle_position r))
                 ((current_voice_index r + 1) `mod` Z.of_nat (length voices)))
              Hne eq_refl eq_refl) as (v' & Hlook' & ->).
  cbn [fst cycle_position] in *. intros [= ->].
  pose proof (NoDup_lookup _ _ _ _ Hnd Hlook' Hlook) as Heq.
  set (n := length voices) in *.
  replace (S (cycle_position r)) with (cycle_position r + 1)%nat in Heq by lia.
  rewrite <- Nat.Div0.add_mod_idemp_l in Heq.
  pose proof (Nat.mod_upper_bound (cycle_position r) n ltac:(lia)) as Hlt.
  set (m := (cycle_position r mod n)%nat) in *.
  destruct (decide (m + 1 = n)%nat) as [Hlast|Hnl].
  - rewrite Hlast, Nat.Div0.mod_same in Heq. lia.
  - rewrite Nat.mod_small in Heq by lia. lia.
Qed.

Lemma next_voices_spec voices k :
  voices ≠ [] →
  ∀ r, available_voices r = voices → rotation_enabled r = true →
    fst (next_voices k r)
    = (fun i => Return (default "" (voices !! ((cycle_position r + i) mod length voices)%nat)))
        <$> seq 0 k
    ∧ cycle_position (snd (next_voices k r)) = (cycle_position r + k)%nat
    ∧ available_voices (snd (next_voices k r)) = voices
    ∧ rotation_enabled (snd (next_voices k r)) = true.
Proof.
  intros Hne. induction k as [|k IH]; intros r Hv Hrot.
  - simpl. by rewrite Nat.add_0_r.
  - cbn [next_voices].
    destruct (get_next_voice_enabled voices r Hne Hv Hrot) as (v & Hlook & ->).
    set (r1 := mkVoiceRotator _ _ _ _ _).
    destruct (IH r1 eq_refl eq_refl) as (H1 & H2 & H3 & H4).
    destruct (next_voices k r1) as [vs' r2]. cbn [fst snd] in *.
    subst vs'. split; [|split; [rewrite H2; subst r1; simpl; lia|done]].
    cbn [seq fmap list_fmap]. f_equal.
    + by rewrite Nat.add_0_r, Hlook.
    + rewrite <- seq_shift, <- list_fmap_compose. apply list_fmap_ext.
      intros _ i _. subst r1. cbn [cycle_position compose].
      by replace (S (cycle_position r) + i)%nat
        with (cycle_position r + S i)%nat by lia.
Qed.

(** With rotation enabled the voices are handed out round-robin.  On a
    rotator built for any language code, [get_next_voice] never raises:
    its [i]-th call (from 0) returns the voice at position [i mod n] of
    the [n] available voices, so [n] calls in a row return every
    available voice once, in order, and the calls after them repeat this
    sequence. *)
Theorem voices_rotate (language_code : string) (k : nat) :
  let r := VoiceRotator_init true language_code in
  let voices := available_voices r in
  let n := length voices in
  (0 < n)%nat ∧
  (∀ i, (i < k)%nat →
     ∃ v, voices !! (i mod n)%nat = Some v ∧
          fst (next_voices k r) !! i = Some (Return v)) ∧
  fst (next_voices n r) = Return <$> voices ∧
  fst (next_voices (n + k) r) = (Return <$> voices) ++ fst (next_voices k r).
Proof.
  intros r voices n.
  destruct (voice_sets_shape voices (init_voices _ _)) as [Hnd Hlen].
  assert (Hne : voices ≠ []) by (intros H; rewrite H in Hlen; simpl in Hlen; lia).
  assert (Hall : ∀ k', fst (next_voices k' r)
            = (fun i => Return (default "" (voices !! (i mod n)%nat))) <$> seq 0 k').
  { intros k'. destruct (next_voices_spec voices k' Hne r) as [H _]; [done..|].
    rewrite H. done. }
  split; [subst n; lia|]. split; [|split].
  - intros i Hi.
    destruct (lookup_lt_is_Some_2 voices (i mod n)) as [v Hlook].
    { apply Nat.mod_upper_bound. subst n. lia. }
    exists v. split; [done|]. rewrite Hall, list_lookup_fmap, lookup_seq_lt by done.
    simpl. by rewrite Hlook.
  - rewrite Hall. apply list_eq. intros i.
    rewrite !list_lookup_fmap. destruct (decide (i < n)%nat) as [Hlt|Hge].
    + rewrite lookup_seq_lt by done. simpl. rewrite Nat.mod_small by done.
      destruct (lookup_lt_is_Some_2 voices i Hlt) as [v ->]. done.
    + rewrite lookup_seq_ge by lia. rewrite lookup_ge_None_2 by (subst n; lia). done.
  - rewrite !Hall. rewrite seq_app, fmap_app. f_equal.
    + apply list_eq. intros i.
      rewrite !list_lookup_fmap. destruct (decide (i < n)%nat) as [Hlt|Hge].
      * rewrite lookup_seq_lt by done. simpl. rewrite Nat.mod_small by done.
        destruct (lookup_lt_is_Some_2 voices i Hlt) as [v ->]. done.
      * rewrite lookup_seq_ge by lia. rewrite lookup_ge_None_2 by (subst n; lia). done.
    + simpl. rewrite <- (Nat.add_0_r n) at 1.
      rewrite <- fmap_add_seq, <- list_fmap_compose. apply list_fmap_ext.
      intros _ i _. simpl. do 3 f_equal.
      rewrite Nat.add_comm, <- Nat.Div0.add_mod_idemp_r, Nat.Div0.mod_same.
      by rewrite Nat.add_0_r.
Qed.

(** An unknown language code is not an error: the rotator falls back on
    the voices of "en-US".  The voices of a rotator are never empty, hold
    no voice twice, and each of them is a voice of the language asked
    for, its name starting with the language code, or, when the language
    has no voice set, a voice of "en-US". *)
Theorem voices_match_language (enabled : bool) (language_code : string) :
  let voices := available_voices (VoiceRotator_init enabled language_code) in
  voices ≠ [] ∧ NoDup voices ∧
  (voices_of language_code = None → Some voices = voices_of "en-US") ∧
  (is_Some (voices_of language_code) →
   Forall (fun v => is_prefix language_code v = true) voices).
Proof.
  intros voices.
  destruct (voice_sets_shape voices (init_voices _ _)) as [Hnd Hlen].
  split; [intros H; rewrite H in Hlen; simpl in Hlen; lia|]. split; [done|].
  subst voices. unfold VoiceRotator_init. cbn [available_voices].
  split; [by intros ->|].
  intros [vs Hvs]. rewrite Hvs. simpl. apply voices_of_Some in Hvs.
  unfold voice_sets in Hvs.
  repeat (apply elem_of_cons in Hvs as [[= -> ->] | Hvs];
          [apply (bool_decide_unpack _); vm_compute; exact I|]).
  by apply elem_of_nil in Hvs.
Qed.

End VoiceRotatorProps.

(** ** Texts, file names and input files *)

Module TextProps.

Import Text.

Lemma of_ascii_cons a s : of_ascii (String a s) = N_of_ascii a :: of_ascii s.
Proof. reflexivity. Qed.

Lemma of_ascii_app a b : of_ascii (a +:+ b) = of_ascii a ++ of_ascii b.
Proof.
  induction a as [|c a IH]; [by rewrite PathProps.app_nil_l|].
  rewrite PathProps.app_cons, !of_ascii_cons, IH. done.
Qed.

Lemma of_ascii_length s : length (of_ascii s) = String.length s.
Proof. induction s as [|c s IH]; [done|]. rewrite of_ascii_cons. simpl. by rewrite IH. Qed.

Lemma of_ascii_inj a b : of_ascii a = of_ascii b → a = b.
Proof.
  revert b. induction a as [|c a IH]; intros [|d b]; try done.
  rewrite !of_ascii_cons. intros [= Hc Hab]. f_equal; [|by apply IH].
  rewrite <- (ascii_N_embedding c), <- (ascii_N_embedding d). by rewrite Hc.
Qed.

(** *** Stripping *)

Section Strip.

Variable p : N -> bool.

Lemma lstrip_by_split s :
  ∃ a, s = a ++ lstrip_by p s ∧ Forall (fun c => p c = true) a.
Proof.
  induction s as [|c s (a & Ha & Hp)]; [by exists []|]. simpl.
  destruct (p c) eqn:Hc.
  - exists (c :: a). split; [by rewrite Ha at 1|]. by constructor.
  - by exists [].
Qed.

Lemma lstrip_by_head s c : head (lstrip_by p s) = Some c → p c = false.
Proof.
  induction s as [|d s IH]; [done|]. simpl. destruct (p d) eqn:Hd; [done|].
  by intros [= <-].
Qed.

Lemma lstrip_by_id s :
  (∀ c, head s = Some c → p c = false) → lstrip_by p s = s.
Proof. destruct s as [|c s]; [done|]. simpl. intros H. by rewrite H. Qed.

Lemma rstrip_by_split s :
  ∃ b, s = rstrip_by p s ++ b ∧ Forall (fun c => p c = true) b.
Proof.
  unfold rstrip_by. destruct (lstrip_by_split (reverse s)) as (a & Ha & Hp).
  exists (reverse a). split; [|by apply Forall_reverse].
  rewrite <- reverse_app, <- Ha. by rewrite reverse_involutive.
Qed.

Lemma last_reverse {B} (l : list B) : last (reverse l) = head l.
Proof. destruct l as [|x l]; [done|]. by rewrite reverse_cons, last_snoc. Qed.

Lemma head_reverse {B} (l : list B) : head (reverse l) = last l.
Proof. by rewrite <- last_reverse, reverse_involutive. Qed.

Lemma rstrip_by_last s c : last (rstrip_by p s) = Some c → p c = false.
Proof. unfold rstrip_by. rewrite last_reverse. apply lstrip_by_head. Qed.

Lemma rstrip_by_id s :
  (∀ c, last s = Some c → p c = false) → rstrip_by p s = s.
Proof.
  intros H. unfold rstrip_by. rewrite lstrip_by_id; [apply reverse_involutive|].
  intros c. rewrite head_reverse. apply H.
Qed.

Lemma rstrip_by_head s c :
  head (rstrip_by p s) = Some c → head s = Some c.
Proof.
  destruct (rstrip_by_split s) as (b & Hb & _). intros H. rewrite Hb.
  by destruct (rstrip_by p s).
Qed.

Lemma strip_by_split s :
  ∃ a b, s = a ++ strip_by p s ++ b ∧
         Forall (fun c => p c = true) a ∧ Forall (fun c => p c = true) b.
Proof.
  unfold strip_by. destruct (lstrip_by_split s) as (a & Ha & Hpa).
  destruct (rstrip_by_split (lstrip_by p s)) as (b & Hb & Hpb).
  exists a, b. split; [|done]. by rewrite <- Hb.
Qed.

Lemma strip_by_head s c : head (strip_by p s) = Some c → p c = false.
Proof. intros H. apply rstrip_by_head in H. by apply lstrip_by_head in H. Qed.

Lemma strip_by_last s c : last (strip_by p s) = Some c → p c = false.
Proof. apply rstrip_by_last. Qed.

Lemma strip_by_id s :
  (∀ c, head s = Some c → p c = false) →
  (∀ c, last s = Some c → p c = false) →
  strip_by p s = s.
Proof.
  intros Hh Hl. unfold strip_by. rewrite lstrip_by_id by done. by apply rstrip_by_id.
Qed.

Lemma strip_by_idemp s : strip_by p (strip_by p s) = strip_by p s.
Proof. apply strip_by_id; [apply strip_by_head | apply strip_by_last]. Qed.

Lemma strip_by_sublist s : strip_by p s `sublist_of` s.
Proof.
  destruct (strip_by_split s) as (a & b & Hs & _). rewrite Hs at 2.
  apply sublist_inserts_l, sublist_inserts_r. done.
Qed.

Lemma strip_by_length s : (length (strip_by p s) <= length s)%nat.
Proof. apply sublist_length, strip_by_sublist. Qed.

End Strip.

(** *** Decimal digits *)

Definition digit (c : N) : Prop := (48 <= c ∧ c <= 57)%N.

Lemma pretty_N_char_digit d : digit (N_of_ascii (pretty_N_char d)).
Proof. unfold pretty_N_char. repeat case_match; vm_compute; split; discriminate. Qed.

Lemma pretty_N_go_digits x :
  ∀ s, Forall digit (of_ascii s) → Forall digit (of_ascii (pretty_N_go x s)).
Proof.
  induction (N.lt_wf_0 x) as [x _ IH]; intros s Hs.
  assert (x = 0 ∨ 0 < x)%N as [->|Hpos] by lia; [by rewrite pretty_N_go_0|].
  rewrite pretty_N_go_step by done. apply IH.
  - by apply N.div_lt.
  - rewrite of_ascii_cons. constructor; [apply pretty_N_char_digit | done].
Qed.

Lemma pretty_N_digits (n : N) : Forall digit (of_ascii (pretty n)).
Proof.
  unfold pretty, pretty_N. case_decide.
  - repeat constructor; vm_compute; discriminate.
  - apply pretty_N_go_digits. constructor.
Qed.

Lemma pretty_N_go_nonempty x : ∀ s, (0 < x)%N → pretty_N_go x s ≠ "".
Proof.
  induction (N.lt_wf_0 x) as [x _ IH]; intros s Hpos.
  rewrite pretty_N_go_step by done.
  destruct (N.eq_0_gt_0_cases (x `div` 10)) as [->|Hd].
  - by rewrite pretty_N_go_0.
  - apply IH; [by apply N.div_lt | done].
Qed.

Lemma pretty_N_nonempty (n : N) : pretty n ≠ "".
Proof.
  unfold pretty, pretty_N. case_decide; [done|]. apply pretty_N_go_nonempty. lia.
Qed.

(** The digits of a positive number do not start with a zero. *)
Lemma pretty_N_go_head x :
  ∀ s, (0 < x)%N → ∃ c rest, pretty_N_go x s = String c rest ∧ c ≠ "0"%char.
Proof.
  induction (N.lt_wf_0 x) as [x _ IH]; intros s Hpos.
  rewrite pretty_N_go_step by done.
  destruct (N.eq_0_gt_0_cases (x `div` 10)) as [Hz|Hd].
  - rewrite Hz, pretty_N_go_0. eexists _, _. split; [done|].
    assert (Hx : (x < 10)%N) by (by apply N.div_small_iff in Hz).
    rewrite N.mod_small by done.
    change "0"%char with (pretty_N_char 0). intros Heq.
    apply pretty_N_char_inj in Heq; lia.
  - apply IH; [by apply N.div_lt | done].
Qed.

Lemma pretty_N_head_zero (n : N) rest : pretty n = String "0" rest → n = 0%N.
Proof.
  unfold pretty, pretty_N. case_decide as Hn; [done|]. intros Hp.
  destruct (pretty_N_go_head n "") as (c & r & Hc & Hne); [lia|].
  rewrite Hc in Hp. by injection Hp as -> _.
Qed.

End TextProps.

Module FormatProps.

Import Text TextProps.

Lemma of_ascii_zeros k : of_ascii (zeros k) = replicate k 48%N.
Proof. induction k as [|k IH]; [done|]. simpl zeros. by rewrite of_ascii_cons, IH. Qed.

Lemma of_ascii_zfill w s :
  of_ascii (zfill w s) = replicate (w - String.length s) 48%N ++ of_ascii s.
Proof. unfold zfill. by rewrite of_ascii_app, of_ascii_zeros. Qed.

Lemma zfill_pretty_inj w (a b : N) : zfill w (pretty a) = zfill w (pretty b) → a = b.
Proof.
  assert (Hgen : ∀ a b : N,
            (String.length (pretty a) <= String.length (pretty b))%nat →
            zfill w (pretty a) = zfill w (pretty b) → a = b).
  { clear a b. intros a b Hle Heq.
    apply (f_equal of_ascii) in Heq. rewrite !of_ascii_zfill in Heq.
    pose proof (f_equal length Heq) as Hlen.
    rewrite !length_app, !length_replicate, !of_ascii_length in Hlen.
    destruct (decide (String.length (pretty a) = String.length (pretty b)))
      as [Hsame|Hdiff].
    - rewrite Hsame in Heq. apply app_inv_head in Heq.
      apply of_ascii_inj in Heq. by apply (inj pretty).
    - exfalso.
      set (la := String.length (pretty a)) in *.
      set (lb := String.length (pretty b)) in *.
      assert (Hla : (1 <= la)%nat).
      { subst la. pose proof (pretty_N_nonempty a). by destruct (pretty a); [|simpl; lia]. }
      replace (w - la)%nat with ((w - lb) + (lb - la))%nat in Heq by lia.
      rewrite replicate_add, <- app_assoc in Heq. apply app_inv_head in Heq.
      destruct (lb - la)%nat as [|k] eqn:Hk; [lia|].
      destruct (pretty b) as [|c rest] eqn:Hb; [by destruct (pretty_N_nonempty b)|].
      rewrite of_ascii_cons in Heq. simpl in Heq. injection Heq as Hc _.
      assert (c = "0"%char) as ->.
      { rewrite <- (ascii_N_embedding c), <- Hc. done. }
      pose proof (pretty_N_head_zero _ _ Hb) as Hz. subst b.
      change (pretty 0%N) with "0" in Hb. injection Hb as <-.
      subst lb. simpl in *. lia. }
  intros Heq.
  destruct (decide (String.length (pretty a) <= String.length (pretty b))%nat).
  - by apply Hgen.
  - symmetry. apply Hgen; [lia|done].
Qed.

(** The characters of a formatted index: digits, after a minus sign for
    a negative index. *)
Lemma format_04d_chars index :
  ∃ c rest, of_ascii (format_04d index) = c :: rest ∧
            (index < 0 → c = 45%N) ∧ (0 <= index → digit c) ∧
            Forall digit rest.
Proof.
  unfold format_04d. case_bool_decide as Hneg.
  - rewrite of_ascii_app, of_ascii_zfill. exists 45%N. eexists.
    split; [reflexivity|]. split; [done|]. split; [lia|].
    apply Forall_app. split; [|apply pretty_N_digits].
    apply Forall_replicate. vm_compute. split; discriminate.
  - rewrite of_ascii_zfill.
    assert (Hall : Forall digit (replicate (4 - String.length (pretty (Z.to_N index))) 48%N
                                 ++ of_ascii (pretty (Z.to_N index)))).
    { apply Forall_app. split; [|apply pretty_N_digits].
      apply Forall_replicate. vm_compute. split; discriminate. }
    destruct (replicate _ _ ++ _) as [|c rest] eqn:Hl.
    + apply app_eq_nil in Hl as [_ Hl].
      pose proof (pretty_N_nonempty (Z.to_N index)) as Hne.
      destruct (pretty (Z.to_N index)); [done|by rewrite of_ascii_cons in Hl].
    + apply Forall_cons in Hall as [Hc Hrest]. exists c, rest.
      split; [done|]. split; [lia|]. done.
Qed.

Lemma format_04d_no_underscore index : 95%N ∉ of_ascii (format_04d index).
Proof.
  destruct (format_04d_chars index) as (c & rest & -> & Hneg & Hpos & Hrest).
  intros [Hc|Hin]%elem_of_cons.
  - destruct (decide (index < 0)) as [Hi|Hi].
    + by rewrite (Hneg Hi) in Hc.
    + destruct (Hpos ltac:(lia)) as [H1 H2]. subst c. lia.
  - rewrite Forall_forall in Hrest. destruct (Hrest _ Hin) as [H1 H2]. lia.
Qed.

Lemma format_04d_inj i j : format_04d i = format_04d j → i = j.
Proof.
  intros Heq.
  destruct (format_04d_chars i) as (c & rest & Hi & Hneg & Hpos & _).
  destruct (format_04d_chars j) as (c' & rest' & Hj & Hneg' & Hpos' & _).
  rewrite Heq, Hj in Hi. injection Hi as <- _.
  assert (Hsign : i < 0 ↔ j < 0).
  { split; intros Hlt.
    - destruct (decide (j < 0)) as [|Hge]; [done|].
      destruct (Hpos' ltac:(lia)) as [H1 H2]. rewrite (Hneg Hlt) in H1. lia.
    - destruct (decide (i < 0)) as [|Hge]; [done|].
      destruct (Hpos ltac:(lia)) as [H1 H2]. rewrite (Hneg' Hlt) in H1. lia. }
  unfold format_04d in Heq. case_bool_decide as Hi; case_bool_decide as Hj'; try lia.
  - apply (f_equal of_ascii) in Heq. rewrite !of_ascii_app in Heq.
    apply app_inv_head, of_ascii_inj, zfill_pretty_inj in Heq. lia.
  - apply zfill_pretty_inj in Heq. lia.
Qed.

Lemma pretty_N_go_length (k : nat) :
  ∀ (n : N) s, (n < 10 ^ N.of_nat k)%N →
    (String.length (pretty_N_go n s) <= k + String.length s)%nat.
Proof.
  induction k as [|k IH]; intros n s Hn.
  - assert (n = 0%N) as -> by (simpl in Hn; lia). rewrite pretty_N_go_0. lia.
  - destruct (N.eq_0_gt_0_cases n) as [->|Hpos]; [rewrite pretty_N_go_0; lia|].
    rewrite pretty_N_go_step by done.
    etrans; [apply IH|simpl; lia].
    apply N.Div0.div_lt_upper_bound.
    rewrite Nat2N.inj_succ, N.pow_succ_r' in Hn. lia.
Qed.

Lemma format_04d_length index :
  (4 <= String.length (format_04d index))%nat ∧
  (0 <= index < 10000 → String.length (format_04d index) = 4%nat).
Proof.
  rewrite <- of_ascii_length. unfold format_04d. case_bool_decide as Hneg.
  - rewrite of_ascii_app, of_ascii_zfill, !length_app, length_replicate,
      !of_ascii_length. simpl. split; lia.
  - rewrite of_ascii_zfill, !length_app, length_replicate, !of_ascii_length.
    split; [lia|]. intros Hr.
    assert (Hlen : (String.length (pretty (Z.to_N index)) <= 4)%nat); [|lia].
    unfold pretty, pretty_N. case_decide; [simpl; lia|].
    etrans; [apply (pretty_N_go_length 4)|simpl; lia].
    change (10 ^ N.of_nat 4)%N with 10000%N. lia.
Qed.

End FormatProps.

Module SafeFilenameProps.

Import Text TextProps FormatProps SafeFilename.

(** A character that neither of the two classes holds. *)
Definition safe (c : N) : Prop := forbidden c = false ∧ separator c = false.

(** No underscore is followed by an underscore. *)
Fixpoint single_underscores (s : text) : Prop :=
  match s with
  | [] => True
  | c :: s' => ¬ (c = underscore ∧ head s' = Some underscore) ∧ single_underscores s'
  end.

Lemma single_underscores_lookup s :
  single_underscores s →
  ∀ i, s !! i = Some underscore → s !! S i ≠ Some underscore.
Proof.
  induction s as [|c s IH]; intros Hs i; [done|]. destruct Hs as [Hc Hs].
  destruct i as [|i]; simpl.
  - intros [= ->] Hnext. apply Hc. split; [done|]. by destruct s.
  - by apply IH.
Qed.

Lemma single_underscores_app a b :
  single_underscores (a ++ b) → single_underscores a ∧ single_underscores b.
Proof.
  induction a as [|c a IH]; [done|]. simpl. intros [Hc Hab].
  destruct (IH Hab) as [Ha Hb]. split; [|done]. split; [|done].
  intros [-> Hh]. apply Hc. split; [done|]. by destruct a.
Qed.

Lemma single_underscores_prefix a x :
  underscore ∉ a → single_underscores x → single_underscores (a ++ x).
Proof.
  intros Ha Hx. induction a as [|c a IH]; [done|].
  apply not_elem_of_cons in Ha as [Hc Ha]. simpl. split; [|by apply IH].
  by intros [-> _].
Qed.

Lemma Forall_of_sublist {B} (P : B → Prop) (l1 l2 : list B) :
  Forall P l2 → l1 `sublist_of` l2 → Forall P l1.
Proof.
  rewrite !Forall_forall. intros H Hsub x Hx. apply H.
  by eapply elem_of_sublist.
Qed.

Lemma squeeze_head s : head (squeeze s) = head s.
Proof.
  induction s as [|c s IH]; [done|]. simpl.
  destruct (bool_decide (c = underscore) && bool_decide (head s = Some underscore))
    eqn:Hdrop; [|done].
  apply andb_true_iff in Hdrop as [Hc Hh].
  apply bool_decide_eq_true in Hc, Hh. by rewrite IH, Hh, Hc.
Qed.

Lemma squeeze_single s : single_underscores (squeeze s).
Proof.
  induction s as [|c s IH]; [done|]. simpl.
  destruct (bool_decide (c = underscore) && bool_decide (head s = Some underscore))
    eqn:Hdrop; [done|].
  simpl. split; [|done]. rewrite squeeze_head. intros [Hc Hh].
  apply andb_false_iff in Hdrop as [Hd|Hd]; apply bool_decide_eq_false in Hd; done.
Qed.

Lemma squeeze_sublist s : squeeze s `sublist_of` s.
Proof.
  induction s as [|c s IH]; [done|]. simpl.
  destruct (_ && _); [by apply sublist_cons | by apply sublist_skip].
Qed.

Lemma safe_underscore : safe underscore.
Proof. split; vm_compute; reflexivity. Qed.

Lemma isspace_separator c : isspace c = true → separator c = true.
Proof. unfold separator. by intros ->. Qed.

Lemma digit_safe c : digit c → safe c.
Proof.
  intros [H1 H2].
  assert (Hsp : isspace c = false).
  { unfold isspace. apply orb_false_iff. split.
    - apply bool_decide_eq_false. intros Hin.
      repeat (apply elem_of_cons in Hin as [->|Hin]; [lia|]).
      by apply elem_of_nil in Hin.
    - apply andb_false_iff. left. apply N.leb_gt. lia. }
  split.
  - apply bool_decide_eq_false. intros Hin.
    repeat (apply elem_of_cons in Hin as [->|Hin]; [lia|]).
    by apply elem_of_nil in Hin.
  - unfold separator. rewrite Hsp. simpl.
    apply bool_decide_eq_false. intros Hin.
    repeat (apply elem_of_cons in Hin as [->|Hin]; [lia|]).
    by apply elem_of_nil in Hin.
Qed.

Lemma format_04d_safe index : Forall safe (of_ascii (format_04d index)).
Proof.
  destruct (format_04d_chars index) as (c & rest & -> & Hneg & Hpos & Hrest).
  constructor.
  - destruct (decide (index < 0)) as [Hi|Hi].
    + rewrite (Hneg Hi). split; vm_compute; reflexivity.
    + apply digit_safe, Hpos. lia.
  - eapply Forall_impl; [exact Hrest|]. apply digit_safe.
Qed.

(** The text after the two substitutions of characters. *)
Definition substituted (s : text) : text :=
  (fun c => if separator c then underscore else c)
    <$> filter (fun c => forbidden c = false) s.

Lemma substituted_safe s : Forall safe (substituted s).
Proof.
  unfold substituted. apply Forall_fmap, Forall_forall. intros c Hc.
  apply list_elem_of_filter in Hc as [Hf _]. simpl.
  destruct (separator c) eqn:Hs; [apply safe_underscore | by split].
Qed.

Lemma substituted_length s : (length (substituted s) <= length s)%nat.
Proof. unfold substituted. rewrite length_fmap. apply length_filter. Qed.

Lemma truncated_length (s : text) :
  (length (if bool_decide (100 < length s)%nat
           then take 97 s ++ of_ascii "..." else s) <= 100)%nat.
Proof.
  case_bool_decide; [|lia].
  rewrite length_app, length_take, of_ascii_length. simpl String.length. lia.
Qed.

Lemma clean_unfold s :
  clean s
  = strip_by (fun c => bool_decide (c = underscore))
      (squeeze (substituted
         (if bool_decide (100 < length (strip s))%nat
          then take 97 (strip s) ++ of_ascii "..." else strip s))).
Proof. reflexivity. Qed.

Lemma clean_safe s : Forall safe (clean s).
Proof.
  rewrite clean_unfold.
  eapply Forall_of_sublist; [|apply strip_by_sublist].
  eapply Forall_of_sublist; [|apply squeeze_sublist].
  apply substituted_safe.
Qed.

Lemma clean_length s : (length (clean s) <= 100)%nat.
Proof.
  rewrite clean_unfold.
  etrans; [apply strip_by_length|].
  etrans; [apply sublist_length, squeeze_sublist|].
  etrans; [apply substituted_length|]. apply truncated_length.
Qed.

Lemma clean_ends s :
  head (clean s) ≠ Some underscore ∧ last (clean s) ≠ Some underscore.
Proof.
  rewrite clean_unfold. split; intros H.
  - apply strip_by_head in H. by apply bool_decide_eq_false in H.
  - apply strip_by_last in H. by apply bool_decide_eq_false in H.
Qed.

Lemma clean_single s : single_underscores (clean s).
Proof.
  rewrite clean_unfold.
  destruct (strip_by_split (fun c => bool_decide (c = underscore))
              (squeeze (substituted
                 (if bool_decide (100 < length (strip s))%nat
                  then take 97 (strip s) ++ of_ascii "..." else strip s))))
    as (a & b & Hs & _).
  pose proof (squeeze_single (substituted
                 (if bool_decide (100 < length (strip s))%nat
                  then take 97 (strip s) ++ of_ascii "..." else strip s))) as Hsq.
  rewrite Hs in Hsq. apply single_underscores_app in Hsq as [_ Hsq].
  by apply single_underscores_app in Hsq as [Hsq _].
Qed.

Lemma clean_not_space s : all_space (clean s) = false.
Proof.
  unfold all_space. destruct (clean s) as [|c l] eqn:Hc; [done|].
  pose proof (clean_safe s) as Hsafe. rewrite Hc in Hsafe.
  apply Forall_cons in Hsafe as [[_ Hsep] _]. simpl.
  destruct (isspace c) eqn:Hsp; [|done].
  apply isspace_separator in Hsp. congruence.
Qed.

(** The part of the name after the index and the underscore. *)
Definition body (sentence : text) (index : Z) : text :=
  if bool_decide (clean sentence = [])
  then of_ascii "sentence_" ++ of_ascii (format_04d index)
  else clean sentence.

Lemma name_unfold sentence index :
  _create_safe_filename sentence index
  = of_ascii (format_04d index) ++ underscore :: body sentence index.
Proof.
  unfold _create_safe_filename, body. rewrite clean_not_space, orb_false_r. done.
Qed.

Lemma body_safe sentence index : Forall safe (body sentence index).
Proof.
  unfold body. case_bool_decide; [|apply clean_safe].
  apply Forall_app. split; [|apply format_04d_safe].
  repeat constructor; vm_compute; reflexivity.
Qed.

Lemma body_shape sentence index :
  body sentence index ≠ [] ∧
  head (body sentence index) ≠ Some underscore ∧
  last (body sentence index) ≠ Some underscore ∧
  single_underscores (body sentence index).
Proof.
  unfold body. case_bool_decide as Hc.
  - destruct (format_04d_chars index) as (c & rest & Hf & _ & _ & _).
    pose proof (format_04d_no_underscore index) as Hno.
    split; [done|]. split; [done|]. split.
    + rewrite Hf, last_app_cons. intros Hl.
      apply Hno. rewrite Hf. by apply last_Some_elem_of.
    + change (of_ascii "sentence_") with (of_ascii "sentence" ++ [underscore]).
      rewrite <- app_assoc. apply single_underscores_prefix.
      * vm_compute. intros Hin.
        repeat (apply elem_of_cons in Hin as [Hin|Hin]; [done|]).
        by apply elem_of_nil in Hin.
      * simpl. rewrite Hf. split.
        -- intros [_ [= ->]]. apply Hno. rewrite Hf. by left.
        -- rewrite <- Hf, <- (app_nil_r (of_ascii (format_04d index))).
           by apply single_underscores_prefix.
  - split; [done|]. destruct (clean_ends sentence). split; [done|]. split; [done|].
    apply clean_single.
Qed.

Lemma first_split {B} (u : B) (a b x y : list B) :
  u ∉ a → u ∉ b → a ++ u :: x = b ++ u :: y → a = b ∧ x = y.
Proof.
  revert b. induction a as [|c a IH]; intros [|d b] Ha Hb Heq; simpl in *.
  - by injection Heq as ->.
  - injection Heq as <- _. by apply not_elem_of_cons in Hb as [? _].
  - injection Heq as -> _. by apply not_elem_of_cons in Ha as [? _].
  - injection Heq as -> Heq.
    apply not_elem_of_cons in Ha as [_ Ha]. apply not_elem_of_cons in Hb as [_ Hb].
    destruct (IH b Ha Hb Heq) as [-> ->]. done.
Qed.

(** The file name that [_create_safe_filename] makes holds none of the
    characters that it removes or replaces, whatever the sentence and the
    index: none of the characters that are not allowed in a file name
    (among them the path separators), no white space and none of the
    punctuation marks that it replaces by an underscore. *)
Theorem safe_filename_characters (sentence : text) (index : Z) :
  Forall (fun c => forbidden c = false ∧ separator c = false ∧ isspace c = false)
         (_create_safe_filename sentence index).
Proof.
  assert (Hsafe : Forall safe (_create_safe_filename sentence index)).
  { rewrite name_unfold. apply Forall_app. split; [apply format_04d_safe|].
    constructor; [apply safe_underscore | apply body_safe]. }
  eapply Forall_impl; [exact Hsafe|]. intros c [Hf Hs].
  split; [done|]. split; [done|].
  destruct (isspace c) eqn:Hsp; [|done]. apply isspace_separator in Hsp. congruence.
Qed.

(** The file names of two items differ when their indices differ,
    whatever the sentences: the name starts with the index, filled with
    zeros, up to the first underscore. *)
Theorem safe_filename_injective_in_index (sentence sentence' : text) (index index' : Z) :
  _create_safe_filename sentence index = _create_safe_filename sentence' index' →
  index = index'.
Proof.
  rewrite !name_unfold. intros Heq.
  apply first_split in Heq as [Heq _]; [|apply format_04d_no_underscore..].
  by apply format_04d_inj, of_ascii_inj.
Qed.

(** The shape of a file name: the index on at least four characters, an
    underscore, and a name that is not empty, neither starts nor ends
    with an underscore and holds no two underscores in a row.  The name
    is what is left of the sentence, on at most 100 characters, or, when
    nothing is left, the word "sentence", an underscore and the index. *)
Theorem safe_filename_shape (sentence : text) (index : Z) :
  ∃ name,
    _create_safe_filename sentence index
    = of_ascii (format_04d index) ++ underscore :: name ∧
    (4 <= String.length (format_04d index))%nat ∧
    name ≠ [] ∧
    head name ≠ Some underscore ∧ last name ≠ Some underscore ∧
    (∀ i, _create_safe_filename sentence index !! i = Some underscore →
          _create_safe_filename sentence index !! S i ≠ Some underscore) ∧
    (name = clean sentence ∧ (length name <= 100)%nat
     ∨ clean sentence = []
       ∧ name = of_ascii "sentence_" ++ of_ascii (format_04d index)).
Proof.
  exists (body sentence index).
  destruct (body_shape sentence index) as (Hne & Hh & Hl & Hs).
  split; [apply name_unfold|]. split; [apply format_04d_length|].
  split; [done|]. split; [done|]. split; [done|]. split.
  - apply single_underscores_lookup. rewrite name_unfold.
    apply single_underscores_prefix; [apply format_04d_no_underscore|].
    simpl. split; [|done]. by intros [_ H].
  - unfold body. case_bool_decide as Hc.
    + by right.
    + left. split; [done|]. apply clean_length.
Qed.

(** A character that [_create_safe_filename] keeps as it is, at any
    place of the sentence. *)
Definition plain (c : N) : Prop :=
  forbidden c = false ∧ separator c = false ∧ c ≠ underscore.

Lemma squeeze_plain s : Forall plain s → squeeze s = s.
Proof.
  induction 1 as [|c s (_ & _ & Hc) _ IH]; [done|]. simpl.
  rewrite bool_decide_eq_false_2 by done. simpl. by rewrite IH.
Qed.

Lemma substituted_plain s : Forall plain s → substituted s = s.
Proof.
  induction 1 as [|c s (Hf & Hs & _) _ IH]; [done|]. unfold substituted in *.
  rewrite filter_cons_True by done. rewrite fmap_cons, IH. by rewrite Hs.
Qed.

(** A sentence of at most 100 characters, each of which is kept as it
    is, is the name in the file name. *)
Theorem safe_filename_keeps_plain_sentence (sentence : text) (index : Z) :
  sentence ≠ [] → (length sentence <= 100)%nat → Forall plain sentence →
  _create_safe_filename sentence index
  = of_ascii (format_04d index) ++ underscore :: sentence.
Proof.
  intros Hne Hlen Hplain. rewrite name_unfold. do 2 f_equal.
  assert (Hends : ∀ (s : text) c,
            Forall plain s → (head s = Some c ∨ last s = Some c) →
            isspace c = false ∧ c ≠ underscore).
  { intros s c Hs Hc.
    assert (Hin : c ∈ s).
    { destruct Hc as [Hc|Hc]; [by apply head_Some_elem_of | by apply last_Some_elem_of]. }
    rewrite Forall_forall in Hs. destruct (Hs c Hin) as (_ & Hsep & Hu).
    split; [|done]. destruct (isspace c) eqn:Hsp; [|done].
    apply isspace_separator in Hsp. congruence. }
  assert (Hclean : clean sentence = sentence).
  { rewrite clean_unfold.
    assert (Hstrip : strip sentence = sentence).
    { apply strip_by_id; intros c Hc; by eapply Hends; eauto. }
    rewrite Hstrip. rewrite bool_decide_eq_false_2 by lia.
    rewrite substituted_plain, squeeze_plain by done.
    apply strip_by_id; intros c Hc; apply bool_decide_eq_false;
      by eapply Hends; eauto. }
  unfold body. rewrite Hclean. by rewrite bool_decide_eq_false_2.
Qed.

End SafeFilenameProps.

Module FilenameExamples.

Import Text TextProps FormatProps SafeFilename SafeFilenameProps.

(** A space and an underscore at the same place give the same name. *)
Lemma safe_filename_injective_in_index_witness :
  _create_safe_filename (of_ascii "a b") 3 = _create_safe_filename (of_ascii "a_b") 3 ∧
  (3 : Z) = 3.
Proof.
  split; [vm_compute; reflexivity|].
  apply (safe_filename_injective_in_index (of_ascii "a b") (of_ascii "a_b") 3 3).
  vm_compute. reflexivity.
Defined.

Lemma safe_filename_keeps_plain_sentence_witness :
  _create_safe_filename (of_ascii "Hello,world") 12
  = of_ascii "0012_Hello,world".
Proof.
  rewrite (safe_filename_keeps_plain_sentence (of_ascii "Hello,world") 12).
  - vm_compute. reflexivity.
  - discriminate.
  - vm_compute. lia.
  - repeat constructor; vm_compute; congruence.
Defined.

End FilenameExamples.

Module SentenceFileProps.

Import Text TextProps SentenceFile.

Lemma universal_newlines_no_cr_upto (n : nat) :
  ∀ content, (length content <= n)%nat → 13%N ∉ universal_newlines content.
Proof.
  induction n as [|n IH]; intros content Hlen.
  - destruct content; [apply not_elem_of_nil | simpl in Hlen; lia].
  - destruct content as [|c rest]; [apply not_elem_of_nil|].
    simpl in Hlen. simpl. case_bool_decide as Hc.
    + apply not_elem_of_cons. split; [done|].
      destruct rest as [|d rest']; [apply not_elem_of_nil|].
      case_bool_decide; apply IH; simpl in *; lia.
    + apply not_elem_of_cons. split; [done|]. apply IH. lia.
Qed.

Lemma universal_newlines_no_cr content : 13%N ∉ universal_newlines content.
Proof. by apply (universal_newlines_no_cr_upto (length content)). Qed.

(** A line as the iteration gives it: no line feed but, possibly, at its
    end. *)
Definition one_line (l : text) : Prop :=
  ∃ body tail, l = body ++ tail ∧ (10%N ∉ body) ∧ (tail = [] ∨ tail = [10%N]).

Lemma lines_from_spec s :
  ∀ line, 10%N ∉ line →
    Forall (fun l => one_line l ∧ ∀ c, c ∈ l → c ∈ line ∨ c ∈ s) (lines_from line s).
Proof.
  induction s as [|c rest IH]; intros line Hline; simpl.
  - destruct line as [|d line']; [constructor|]. constructor; [|constructor].
    split.
    + exists (reverse (d :: line')), []. rewrite app_nil_r. split; [done|].
      split; [|by left]. by rewrite elem_of_reverse.
    + intros x Hx. left. by apply elem_of_reverse.
  - case_bool_decide as Hc.
    + constructor.
      * split.
        -- exists (reverse line), [c]. split; [by rewrite reverse_cons|].
           split; [by rewrite elem_of_reverse|]. right. by rewrite Hc.
        -- intros x Hx. apply elem_of_reverse, elem_of_cons in Hx as [->|Hx];
             [right; by left | by left].
      * eapply Forall_impl; [apply IH, not_elem_of_nil|].
        intros l [Hl Hin]. split; [done|]. intros x Hx.
        destruct (Hin x Hx) as [H|H]; [by apply elem_of_nil in H|].
        right. by right.
    + eapply Forall_impl; [apply (IH (c :: line))|].
      * apply not_elem_of_cons. by split.
      * intros l [Hl Hin]. split; [done|]. intros x Hx.
        destruct (Hin x Hx) as [H|H].
        -- apply elem_of_cons in H as [->|H]; [right; by left | by left].
        -- right. by right.
Qed.

Lemma lstrip_by_snoc p (l : text) c :
  p c = true →
  lstrip_by p (l ++ [c])
  = match lstrip_by p l with [] => [] | _ => lstrip_by p l ++ [c] end.
Proof.
  intros Hc. induction l as [|d l IH]; simpl; [by rewrite Hc|].
  destruct (p d); [done|]. done.
Qed.

Lemma rstrip_by_snoc p (l : text) c :
  p c = true → rstrip_by p (l ++ [c]) = rstrip_by p l.
Proof.
  intros Hc. unfold rstrip_by. rewrite reverse_snoc. simpl. by rewrite Hc.
Qed.

Lemma strip_by_snoc p (l : text) c :
  p c = true → strip_by p (l ++ [c]) = strip_by p l.
Proof.
  intros Hc. unfold strip_by. rewrite lstrip_by_snoc by done.
  destruct (lstrip_by p l) as [|d l'] eqn:Hl; [done|].
  by rewrite rstrip_by_snoc.
Qed.

Lemma strip_one_line l : one_line l → 10%N ∉ strip l.
Proof.
  intros (body & tail & -> & Hbody & [->| ->]).
  - rewrite app_nil_r. intros Hin. apply Hbody.
    eapply elem_of_sublist; [done | apply strip_by_sublist].
  - unfold strip. rewrite strip_by_snoc by done. intros Hin. apply Hbody.
    eapply elem_of_sublist; [done | apply strip_by_sublist].
Qed.

(** The sentences that [load_sentences] reads from a file: none is
    empty, none starts or ends with white space (stripping it again
    changes nothing), and none holds a line break; they are the lines of
    the file that hold more than white space, stripped, in the order of
    the file. *)
Theorem loaded_sentences_are_stripped_lines (content : text) :
  Forall (fun s => s ≠ [] ∧ strip s = s ∧
                   (∀ c, head s = Some c ∨ last s = Some c → isspace c = false) ∧
                   (10%N ∉ s) ∧ (13%N ∉ s))
         (load_sentences content) ∧
  load_sentences content
  = filter (fun s => s ≠ []) (strip <$> readlines content) ∧
  (length (load_sentences content) <= length (readlines content))%nat.
Proof.
  split; [|split].
  - unfold load_sentences. apply Forall_fmap, Forall_forall. intros l Hl.
    apply list_elem_of_filter in Hl as [Hne Hin]. simpl.
    pose proof (lines_from_spec (universal_newlines content) [] (not_elem_of_nil _))
      as Hlines.
    rewrite Forall_forall in Hlines. destruct (Hlines l Hin) as [Hone Hchars].
    split; [done|]. split; [apply strip_by_idemp|]. split.
    + intros c [Hc|Hc]; [by eapply strip_by_head | by eapply strip_by_last].
    + split; [by apply strip_one_line|]. intros H13.
      assert (Hl13 : 13%N ∈ l)
        by (eapply elem_of_sublist; [done | apply strip_by_sublist]).
      destruct (Hchars _ Hl13) as [H|H]; [by apply elem_of_nil in H|].
      by apply universal_newlines_no_cr in H.
  - unfold load_sentences. induction (readlines content) as [|l ls IH]; [done|].
    rewrite fmap_cons, !filter_cons. simpl.
    destruct (decide (strip l ≠ [])); [by rewrite fmap_cons, IH | done].
  - unfold load_sentences. rewrite length_fmap. apply length_filter.
Qed.

End SentenceFileProps.

(** ** The rule of the batch planner *)

Module BatchRuleProps.

Import IntelligentBatcher BatcherProps.














Lemma pack_singletons max_batch_size items :
  max_batch_size <= 0 →
  ∀ batches current score,
    pack max_batch_size items batches current score
    = append_if_any batches current ++ ((fun x => [fst x]) <$> items).
Proof.
  intros Hmax. induction items as [|[[index sentence] sc] items IH];
    intros batches current score; simpl.
  - by rewrite app_nil_r.
  - rewrite bool_decide_eq_true_2 by lia. simpl. rewrite IH. simpl.
    by rewrite <- app_assoc.
Qed.

(** A [max_batch_size] of 0 or less does not stop the planner: every
    batch is closed as soon as it holds one item, so each sentence is a
    batch of its own, in the order of the sort. *)
Theorem batches_of_one_without_room (max_batch_size : Z) (sentences : list string) :
  max_batch_size <= 0 →
  let batches := create_optimized_batches max_batch_size sentences in
  batches = (fun it => [it]) <$> concat batches ∧
  length batches = length sentences.
Proof.
  intros Hmax batches.
  assert (Hb : batches = (fun x => [fst x]) <$> sort_desc (score_sentences 0 sentences)).
  { subst batches. unfold create_optimized_batches.
    destruct sentences as [|s l]; [done|]. by rewrite pack_singletons. }
  split.
  - unfold batches at 2.
    rewrite (create_optimized_batches_concat max_batch_size sentences).
    rewrite Hb, <- list_fmap_compose. done.
  - rewrite Hb, length_fmap.
    rewrite (Permutation_length (sort_desc_perm _)).
    clear Hb. generalize 0. induction sentences as [|s l IH]; intros z; [done|].
    simpl. by rewrite IH.
Qed.

Lemma batches_of_one_without_room_witness :
  create_optimized_batches 0 ["a"; "bcd"]
  = (fun it => [it]) <$> concat (create_optimized_batches 0 ["a"; "bcd"]) ∧
  length (create_optimized_batches 0 ["a"; "bcd"]) = 2%nat.
Proof.
  apply (batches_of_one_without_room 0 ["a"; "bcd"]). lia.
Defined.

End BatchRuleProps.

(** ** The simple batching *)

Module SimpleBatchProps.

Import ErrorHandler Pathlib AudioCache CheckpointManager AdvancedTTSProcessor.
Import RunProps.

Section WithExternals.

Variable sha256_hexdigest : string -> string.
Variable _create_safe_filename : string -> Z -> string.
Variable strip : string -> string.

(** The sentences from position [i] on, stripped, with their 1-based
    positions. *)
Definition numbered (i : Z) (sentences : list string) : IntelligentBatcher.Batch :=
  imap (fun j sentence => (i + Z.of_nat j + 1, strip sentence)) sentences.

Lemma numbered_app i l1 l2 :
  numbered i (l1 ++ l2) = numbered i l1 ++ numbered (i + Z.of_nat (length l1)) l2.
Proof.
  unfold numbered. rewrite imap_app. f_equal. apply imap_ext.
  intros j s _. simpl. f_equal. lia.
Qed.

Lemma slice_batches_spec fuel batch_size :
  (1 <= batch_size)%nat →
  ∀ i l, (length l <= fuel)%nat →
    let bs := slice_batches strip fuel batch_size i l in
    concat bs = numbered i l ∧
    Forall (fun b => (1 <= length b <= batch_size)%nat) bs ∧
    (∀ k b, bs !! k = Some b → is_Some (bs !! S k) → length b = batch_size) ∧
    (length l <= length bs * batch_size)%nat ∧
    (length bs * batch_size < length l + batch_size)%nat.
Proof.
  intros Hk. induction fuel as [|fuel IH]; intros i l Hfuel bs; subst bs.
  - destruct l; [|simpl in Hfuel; lia]. simpl. repeat split; try done; lia.
  - destruct l as [|s l']; [simpl; repeat split; try done; lia|].
    cbn [slice_batches]. set (l := s :: l') in *.
    fold (numbered i (take batch_size l)).
    assert (Hdrop : (length (drop batch_size l) <= fuel)%nat).
    { rewrite length_drop. subst l. simpl in *. lia. }
    destruct (IH (i + Z.of_nat batch_size) (drop batch_size l) Hdrop)
      as (Hc & Hall & Hfull & Hlo & Hhi).
    set (rest := slice_batches strip fuel batch_size (i + Z.of_nat batch_size)
                   (drop batch_size l)) in *.
    assert (Hlen : length (numbered i (take batch_size l))
                   = (batch_size `min` length l)%nat).
    { unfold numbered. by rewrite length_imap, length_take. }
    split; [|split; [|split; [|split]]].
    + cbn [concat]. rewrite Hc.
      rewrite <- (take_drop batch_size l) at 3. rewrite numbered_app.
      f_equal. destruct (decide (batch_size <= length l)%nat) as [Hle|Hgt].
      * rewrite length_take. do 2 f_equal. lia.
      * rewrite (drop_ge l) by lia. done.
    + constructor; [|done]. rewrite Hlen. subst l. simpl length. lia.
    + intros k b Hb [b' Hnext]. destruct k as [|k].
      * injection Hb as <-. rewrite Hlen.
        destruct (decide (batch_size <= length l)%nat) as [Hle|Hgt]; [lia|].
        exfalso. subst rest. rewrite (drop_ge l) in Hnext by lia.
        simpl in Hnext. by destruct fuel.
      * apply (Hfull k b Hb). by exists b'.
    + rewrite length_drop in Hlo. rewrite length_cons, Nat.mul_succ_l. lia.
    + rewrite length_drop in Hhi. rewrite length_cons, Nat.mul_succ_l.
      destruct (decide (batch_size <= length l)%nat) as [Hle|Hgt]; [lia|].
      subst rest. rewrite (drop_ge l) by lia.
      replace (slice_batches strip fuel batch_size (i + Z.of_nat batch_size) [])
        with (@nil IntelligentBatcher.Batch) by (by destruct fuel).
      assert (0 < length l)%nat by (subst l; simpl; lia).
      simpl length. lia.
Qed.

(** The simple batching, which [process_batch_ultra] uses without a
    batcher, keeps the order of the input.  With a [batch_size] of 1 or
    more the batches, put end to end, are the sentences, stripped, with
    their 1-based positions, in the order of the input; no batch is
    empty, every batch but the last holds [batch_size] items and the last
    holds at most as many, so there are [ceil(n / batch_size)]
    batches. *)
Theorem simple_batches_keep_order (batch_size : Z) (sentences : list string) :
  1 <= batch_size →
  ∃ batches,
    simple_batches strip batch_size sentences = Return batches ∧
    concat batches = numbered 0 sentences ∧
    Forall (fun b => 1 <= Z.of_nat (length b) <= batch_size) batches ∧
    (∀ k b, batches !! k = Some b → is_Some (batches !! S k) →
            Z.of_nat (length b) = batch_size) ∧
    Z.of_nat (length sentences) <= Z.of_nat (length batches) * batch_size
      < Z.of_nat (length sentences) + batch_size.
Proof.
  intros Hb. unfold simple_batches.
  rewrite !bool_decide_eq_false_2 by lia. eexists. split; [reflexivity|].
  destruct (slice_batches_spec (length sentences) (Z.to_nat batch_size)
              ltac:(lia) 0 sentences (le_n _)) as (Hc & Hall & Hfull & Hlo & Hhi).
  split; [done|]. split; [|split].
  - eapply Forall_impl; [exact Hall|]. intros b ?. simpl in *. lia.
  - intros k b Hk Hn. rewrite (Hfull k b Hk Hn). lia.
  - nia.
Qed.

Lemma start_run_batcher sentences st :
  batcher (self st) = None →
  ∃ st1,
    start_run strip sentences st
    = (simple_batches strip (batch_size (config (self st))) sentences, st1) ∧
    world st1 = world st ∧ files (storage st1) = files (storage st) ∧
    checkpoint_manager (self st1) = checkpoint_manager (self st).
Proof.
  intros Hb. unfold start_run.
  assert (Hend : ∀ stx,
            batcher (self stx) = None → config (self stx) = config (self st) →
            world stx = world st → files (storage stx) = files (storage st) →
            checkpoint_manager (self stx) = checkpoint_manager (self st) →
            ∃ st1,
              match batcher (self stx) with
              | Some max_batch_size =>
                  (Return (IntelligentBatcher.create_optimized_batches
                             max_batch_size sentences), stx)
              | None => (simple_batches strip (batch_size (config (self stx)))
                           sentences, stx)
              end
              = (simple_batches strip (batch_size (config (self st))) sentences, st1) ∧
              world st1 = world st ∧ files (storage st1) = files (storage st) ∧
              checkpoint_manager (self st1) = checkpoint_manager (self st)).
  { intros stx Hbx Hcx Hwx Hfx Hmx. rewrite Hbx, Hcx. by exists stx. }
  cbn [self set_self checkpoint_manager set_sentences].
  destruct (checkpoint_manager (self st)) eqn:Hcm.
  - destruct (load_checkpoint _) as [processed total_count].
    destruct (_ && _); apply Hend; done.
  - apply Hend; done.
Qed.

(** Without a batcher a [batch_size] of 0 or less stops the run before
    its first batch.  With a [batch_size] of 0 the run raises the
    [ValueError] of [range]; with a negative [batch_size] there is no
    batch to process, and the run returns results that count neither a
    success nor a failure.  In both cases the provider is not called,
    nothing is slept and no file is written. *)
Theorem run_without_batches (sentences : list string) (st : State) :
  batcher (self st) = None →
  batch_size (config (self st)) <= 0 →
  let r := process_batch_ultra sha256_hexdigest _create_safe_filename strip
             sentences st in
  world (snd r) = world st ∧
  files (storage (snd r)) = files (storage st) ∧
  fst r = (if bool_decide (batch_size (config (self st)) = 0)
           then Raise (ValueError "range() arg 3 must not be zero")
           else Return (mkResults (Z.of_nat (length sentences)) 0 0 [] [])).
Proof.
  intros Hb Hsize r. subst r. unfold process_batch_ultra.
  destruct (start_run_batcher sentences st Hb) as (st1 & -> & Hw & Hf & Hcm).
  unfold simple_batches. case_bool_decide as Hzero; [done|].
  rewrite bool_decide_eq_true_2 by lia.
  cbn [process_batches length finish_run]. unfold finish_run, empty_results.
  destruct (checkpoint_manager (self st1)); done.
Qed.

End WithExternals.

End SimpleBatchProps.

(** ** The files and the counters of a run *)

Module RunFilesProps.

Import ErrorHandler Pathlib AudioCache CheckpointManager AdvancedTTSProcessor.
Import SynthesisProps ResilienceProps RunProps.

(** No file is removed. *)
Definition files_grow (st st' : State) : Prop :=
  ∀ k, is_Some (files (storage st) !! k) → is_Some (files (storage st') !! k).

Lemma files_grow_refl st : files_grow st st.
Proof. by intros k. Qed.

Lemma files_grow_trans st1 st2 st3 :
  files_grow st1 st2 → files_grow st2 st3 → files_grow st1 st3.
Proof. intros H1 H2 k Hk. by apply H2, H1. Qed.

Lemma files_grow_same st st' :
  files (storage st') = files (storage st) → files_grow st st'.
Proof. intros Heq k. by rewrite Heq. Qed.

Lemma files_grow_insert (fs : Files) k v k' :
  is_Some (fs !! k') → is_Some (<[k := v]> fs !! k').
Proof.
  intros H. destruct (decide (k = k')) as [->|Hne].
  - rewrite lookup_insert_eq. by eexists.
  - by rewrite lookup_insert_ne.
Qed.

(** A result that names a file that is on the storage. *)
Definition on_disk (st : State) (r : ItemResult) : Prop :=
  ∃ path, r_filepath r = Some path ∧ path ≠ "" ∧
          is_Some (files (storage st) !! path).

Lemma on_disk_grow st st' r : files_grow st st' → on_disk st r → on_disk st' r.
Proof. intros Hg (path & ? & ? & ?). exists path. repeat split; auto. Qed.

Section WithExternals.

Variable sha256_hexdigest : string -> string.
Variable _create_safe_filename : string -> Z -> string.
Variable strip : string -> string.

Lemma try_synthesis_files sentence voice safe_filename st r st' :
  try_synthesis sha256_hexdigest sentence voice safe_filename st = (r, st') →
  files_grow st st' ∧
  ∀ path, r = Return path → is_Some (files (storage st') !! path).
Proof.
  unfold try_synthesis.
  destruct (attr_language_code (self st)) as [lc|].
  - unfold synthesize_speech.
    destruct (client (self st) _ _) as [content|e]; intros [= <- <-].
    + split.
      * intros k Hk. simpl. unfold write_bytes. by apply files_grow_insert.
      * intros path [= <-]. simpl. unfold write_bytes.
        rewrite lookup_insert_eq. by eexists.
    + split; [by apply files_grow_same|done].
  - intros [= <- <-]. split; [apply files_grow_refl|done].
Qed.

Lemma sleep_in_files d st r st' :
  sleep_in d st = (r, st') → storage st' = storage st.
Proof. intros H. by apply sleep_in_frame in H as (_ & ? & _). Qed.

Lemma synthesis_loop_files sentence voice safe_filename attempts :
  ∀ st r st',
    synthesis_loop sha256_hexdigest sentence voice safe_filename attempts st
      = (r, st') →
    files_grow st st' ∧
    ∀ path, r = Return (Some path) → is_Some (files (storage st') !! path).
Proof.
  induction attempts as [|attempt rest IH]; intros st r st' Hloop.
  - injection Hloop as <- <-. split; [apply files_grow_refl|done].
  - cbn [synthesis_loop] in Hloop.
    destruct (try_synthesis _ _ _ _ st) as [[path|e] st1] eqn:Htry;
      apply try_synthesis_files in Htry as (Hg1 & Hp1).
    + injection Hloop as <- <-. split; [done|]. intros p [= <-]. by apply Hp1.
    + assert (Hcont : ∀ d r2 st2,
                sleep_in d st1 = (r2, st2) →
                match r2 with
                | Return _ =>
                    synthesis_loop sha256_hexdigest sentence voice safe_filename
                      rest st2
                | Raise e' => (Raise e', st2)
                end = (r, st') →
                files_grow st st' ∧
                ∀ path, r = Return (Some path) →
                        is_Some (files (storage st') !! path)).
      { intros d r2 st2 Hsl Hk. apply sleep_in_files in Hsl.
        assert (Hg2 : files_grow st st2).
        { eapply files_grow_trans; [exact Hg1|]. apply files_grow_same.
          by rewrite Hsl. }
        destruct r2 as [u|e'].
        - apply IH in Hk as (Hg3 & Hp3). split; [|done].
          by eapply files_grow_trans.
        - injection Hk as <- <-. by split. }
      assert (Hstop : ∀ r0, (r0, st1) = (r, st') →
                (∀ path, r0 ≠ Return (Some path)) →
                files_grow st st' ∧
                ∀ path, r = Return (Some path) →
                        is_Some (files (storage st') !! path)).
      { intros r0 [= <- <-] Hno. split; [done|]. intros path Hpath.
        by destruct (Hno path). }
      destruct (isinstance e "GoogleAPIError").
      * destruct (_ || _).
        -- destruct (sleep_in _ st1) as [r2 st2] eqn:Hsl. eauto.
        -- by eapply Hstop.
      * destruct (isinstance e "Exception").
        -- case_bool_decide.
           ++ destruct (sleep_in _ st1) as [r2 st2] eqn:Hsl. eauto.
           ++ by eapply Hstop.
        -- by eapply Hstop.
Qed.

(** A synthesis removes no file, and the path it returns is that of a
    file on the storage. *)
Lemma synthesize_files sentence index st :
  let r := synthesize_sentence_ultra sha256_hexdigest _create_safe_filename
             sentence index st in
  files_grow st (snd r) ∧
  ∀ path, fst r = Return (Some path) → is_Some (files (storage (snd r)) !! path).
Proof.
  intros r. subst r. unfold synthesize_sentence_ultra.
  destruct (VoiceRotator.get_next_voice (voice_rotator (self st)))
    as [[v|e] rot]; [|split; [by apply files_grow_same | done]].
  set (st1 := set_self (set_voice_rotator rot (self st)) st).
  assert (Hmiss : ∀ st2,
            files (storage st2) = files (storage st) →
            let r := synthesis_loop sha256_hexdigest sentence v
                       (_create_safe_filename sentence index)
                       (range (retry_attempts (config (self st1)))) st2 in
            files_grow st (snd r) ∧
            ∀ path, fst r = Return (Some path) →
                    is_Some (files (storage (snd r)) !! path)).
  { intros st2 Hfiles r.
    destruct r as [res st'] eqn:Hloop. subst r.
    apply synthesis_loop_files in Hloop as (Hg & Hp). cbn [fst snd].
    split; [|done]. eapply files_grow_trans; [|exact Hg].
    apply files_grow_same. done. }
  destruct (cache (self st1)); [|by apply Hmiss].
  destruct (get_cached_audio _ _ _ _ _ _ _) as [[cached_file|] tbl];
    [|by apply Hmiss].
  case_bool_decide; [by apply Hmiss|].
  destruct (exists_ _ _) eqn:Hex.
  - cbn [fst snd]. split; [by apply files_grow_same|].
    intros path [= <-]. unfold exists_ in Hex. by apply bool_decide_eq_true in Hex.
  - unfold copy2. cbn [storage set_storage files].
    destruct (files (storage st1) !! str (Path_of cached_file)) as [content|];
      cbn [fst snd].
    + split.
      * intros k Hk. cbn [storage set_storage files]. by apply files_grow_insert.
      * intros path [= <-]. cbn [storage set_storage files].
        rewrite lookup_insert_eq. by eexists.
    + split; [by apply files_grow_same|done].
Qed.

Lemma collect_results_files batch todo :
  ∀ acc st rs st',
    collect_results sha256_hexdigest _create_safe_filename batch todo acc st
      = (Return rs, st') →
    Forall (fun r => r_status r = success → on_disk st r) acc →
    files_grow st st' ∧
    Forall (fun r => r_status r = success → on_disk st' r) rs.
Proof.
  induction todo as [|[index sentence] rest IH]; intros acc st rs st' Hrun Hacc.
  - injection Hrun as <- <-. split; [apply files_grow_refl|done].
  - cbn [collect_results] in Hrun.
    pose proof (synthesize_files sentence index st) as [Hg Hp].
    destruct (synthesize_sentence_ultra _ _ sentence index st)
      as [[[filepath|]|e] st1]; cbn [fst snd] in *.
    + apply IH in Hrun as [Hg' Hrs].
      * split; [by eapply files_grow_trans|done].
      * apply Forall_app. split.
        -- eapply Forall_impl; [exact Hacc|]. intros r Hr Hs.
           by eapply on_disk_grow; [|apply Hr].
        -- constructor; [|constructor]. case_bool_decide as Hempty; [done|].
           intros _. exists filepath. split; [done|]. split; [done|]. by apply Hp.
    + apply IH in Hrun as [Hg' Hrs].
      * split; [by eapply files_grow_trans|done].
      * apply Forall_app. split.
        -- eapply Forall_impl; [exact Hacc|]. intros r Hr Hs.
           by eapply on_disk_grow; [|apply Hr].
        -- by constructor.
    + destruct (isinstance e "Exception"); [|done].
      apply IH in Hrun as [Hg' Hrs].
      * split; [by eapply files_grow_trans|done].
      * apply Forall_app. split.
        -- eapply Forall_impl; [exact Hacc|]. intros r Hr Hs.
           by eapply on_disk_grow; [|apply Hr].
        -- by constructor.
Qed.

Lemma merge_results_files rs :
  ∀ results processed,
    let out := fst (merge_results rs results processed) in
    result_files out
    = result_files results ++ filter (fun r => is_success r = true) rs ∧
    length (result_errors out)
    = (length (result_errors results)
       + length (filter (fun r => is_success r = false) rs))%nat.
Proof.
  induction rs as [|r rs IH]; intros results processed out; subst out.
  - cbn [merge_results fst]. rewrite !filter_nil, (right_id_L [] app).
    simpl. split; [done|lia].
  - cbn [merge_results]. destruct (r_status r) eqn:Hst.
    + destruct (IH (mkResults (total results) (successful results + 1)
                      (failed_count results) (result_files results ++ [r])
                      (result_errors results))
                   (processed ∪ {[ r_index r ]})) as [H1 H2].
      rewrite H1, H2. cbn [result_files result_errors].
      rewrite filter_cons_True by (unfold is_success; by rewrite Hst).
      rewrite (filter_cons_False (fun r => is_success r = false))
        by (unfold is_success; by rewrite Hst).
      by rewrite <- app_assoc.
    + destruct (IH (mkResults (total results) (successful results)
                      (failed_count results + 1) (result_files results)
                      (result_errors results
                         ++ ["Index " +:+ pretty (r_index r) +:+ ": "
                               +:+ r_sentence r]))
                   processed) as [H1 H2].
      rewrite H1, H2. cbn [result_files result_errors].
      rewrite filter_cons_False by (unfold is_success; by rewrite Hst).
      rewrite (filter_cons_True (fun r => is_success r = false))
        by (unfold is_success; by rewrite Hst).
      rewrite length_app. simpl. split; [done|lia].
Qed.

(** What holds of the results of a run at every turn of its loop: each
    listed file is the file of a success and is on the storage, and the
    two counters are the lengths of the two lists. *)
Definition kept (results : Results) (st : State) : Prop :=
  Forall (fun r => r_status r = success ∧ on_disk st r) (result_files results) ∧
  successful results = Z.of_nat (length (result_files results)) ∧
  failed_count results = Z.of_nat (length (result_errors results)).


Lemma merge_results_kept rs results processed st st' :
  kept results st → files_grow st st' →
  Forall (fun r => r_status r = success → on_disk st' r) rs →
  kept (fst (merge_results rs results processed)) st'.
Proof.
  intros (Hfiles & Hs & Hf) Hg Hrs.
  destruct (merge_results rs results processed) as [results1 processed1] eqn:Hm.
  pose proof (merge_results_files rs results processed) as [Hf1 He1].
  pose proof (merge_results_spec rs _ _ _ _ Hm) as (_ & Hs1 & Hc1 & _).
  rewrite Hm in Hf1, He1. cbn [fst] in *. split; [|split].
  - rewrite Hf1. apply Forall_app. split.
    + eapply Forall_impl; [exact Hfiles|]. intros r [? ?]. split; [done|].
      by eapply on_disk_grow.
    + apply Forall_forall. intros r Hr.
      apply list_elem_of_filter in Hr as [Hsucc Hin].
      rewrite Forall_forall in Hrs.
      assert (Hst : r_status r = success).
      { unfold is_success in Hsucc. by destruct (r_status r). }
      split; [done|]. by apply Hrs.
  - rewrite Hs1, Hf1, length_app, Hs. lia.
  - rewrite Hc1, He1, Hf. lia.
Qed.

Lemma kept_same_files results st st' :
  files (storage st') = files (storage st) → kept results st → kept results st'.
Proof.
  intros Heq (Hfiles & Hs & Hf). split; [|done].
  eapply Forall_impl; [exact Hfiles|]. intros r [? ?]. split; [done|].
  eapply on_disk_grow; [|done]. by apply files_grow_same.
Qed.

Lemma process_one_batch_kept n_batches n_sentences batch_num batch results st
    results' st' :
  process_one_batch sha256_hexdigest _create_safe_filename n_batches n_sentences
    batch_num batch results st = (Return results', st') →
  kept results st →
  kept results' st' ∧ files_grow st st' ∧ total results' = total results.
Proof.
  unfold process_one_batch.
  set (todo := if checkpoint_manager (self st)
               then filter (fun it => fst it ∉ processed_indices (self st)) batch
               else batch).
  destruct (checkpoint_manager (self st) && bool_decide (todo = [])).
  { intros [= <- <-] Hk. split; [done|]. split; [apply files_grow_refl|done]. }
  unfold process_batch_ultra_async.
  destruct (collect_results _ _ todo todo [] st) as [[rs|e] st1] eqn:Hrun; [|done].
  apply collect_results_files in Hrun as (Hg & Hrs); [|constructor].
  destruct (merge_results rs results (processed_indices (self st1)))
    as [results1 processed1] eqn:Hmerge.
  set (st2 := set_self (set_processed_indices processed1 (self st1)) st1).
  intros Hk Hkept.
  assert (Hkept1 : kept results1 st1).
  { pose proof (merge_results_kept rs results (processed_indices (self st1))
                  st st1 Hkept Hg Hrs) as H. by rewrite Hmerge in H. }
  assert (Htotal : total results1 = total results).
  { by apply merge_results_spec in Hmerge as (_ & _ & _ & ?). }
  assert (Hend : ∀ st3, files (storage st3) = files (storage st1) →
            (if (if Qlt_le_dec 0 (delay (config (self st2))) then true else false)
                && bool_decide (batch_num < n_batches)
             then match sleep_in (delay (config (self st2))) st3 with
                  | (Return _, st4) => (Return results1, st4)
                  | (Raise e, st4) => (Raise e, st4)
                  end
             else (Return results1, st3)) = (Return results', st') →
            kept results' st' ∧ files_grow st st' ∧ total results' = total results).
  { intros st3 Hfiles3 Hfin.
    assert (Hdone : ∀ st4, files (storage st4) = files (storage st1) →
              kept results1 st4 ∧ files_grow st st4 ∧ total results1 = total results).
    { intros st4 Hf4. split; [by eapply kept_same_files|]. split; [|done].
      eapply files_grow_trans; [exact Hg|]. by apply files_grow_same. }
    destruct (_ && _).
    - destruct (sleep_in _ st3) as [[u|e] st4] eqn:Hsl; [|done].
      injection Hfin as <- <-. apply sleep_in_files in Hsl.
      apply Hdone. by rewrite Hsl.
    - injection Hfin as <- <-. by apply Hdone. }
  revert Hk. destruct (checkpoint_manager (self st2)); [|by apply Hend].
  destruct (bool_decide (checkpoint_interval (config (self st2)) = 0));
    [intros [=]|].
  destruct (bool_decide (batch_num `mod` checkpoint_interval (config (self st2)) = 0));
    by apply Hend.
Qed.

Lemma process_batches_kept n_batches n_sentences batches :
  ∀ batch_num results st results' st',
    process_batches sha256_hexdigest _create_safe_filename n_batches n_sentences
      batch_num batches results st = (Return results', st') →
    kept results st →
    kept results' st' ∧ files_grow st st' ∧ total results' = total results.
Proof.
  induction batches as [|batch rest IH];
    intros batch_num results st results' st' Hrun Hkept.
  - injection Hrun as <- <-. split; [done|]. split; [apply files_grow_refl|done].
  - cbn [process_batches] in Hrun.
    destruct (process_one_batch _ _ _ _ _ batch results st)
      as [[results1|e] st1] eqn:Hone; [|done].
    apply process_one_batch_kept in Hone as (Hk1 & Hg1 & Ht1); [|done].
    apply IH in Hrun as (Hk2 & Hg2 & Ht2); [|done].
    split; [done|]. split; [by eapply files_grow_trans | congruence].
Qed.

Lemma start_run_files sentences st r st1 :
  start_run strip sentences st = (r, st1) →
  files (storage st1) = files (storage st).
Proof.
  unfold start_run. destruct (checkpoint_manager _).
  - destruct (load_checkpoint _) as [processed total_count].
    destruct (_ && _); cbn [self set_self set_storage];
      destruct (batcher _); by intros [= <- <-].
  - cbn [self set_self]. destruct (batcher _); by intros [= <- <-].
Qed.

Lemma run_kept sentences st results st' :
  process_batch_ultra sha256_hexdigest _create_safe_filename strip sentences st
    = (Return results, st') →
  kept results st' ∧ files_grow st st' ∧
  total results = Z.of_nat (length sentences).
Proof.
  unfold process_batch_ultra.
  destruct (start_run strip sentences st) as [[batches|e] st1] eqn:Hstart; [|done].
  apply start_run_files in Hstart.
  destruct (process_batches _ _ _ _ _ batches _ st1) as [[results1|e] st2] eqn:Hloop;
    [|done].
  apply process_batches_kept in Hloop as (Hk & Hg & Ht).
  2: { split; [constructor|done]. }
  unfold finish_run. intros [= <- <-].
  assert (Hfin : ∀ st3, files (storage st3) = files (storage st2) →
            kept results1 st3 ∧ files_grow st st3 ∧
            total results1 = Z.of_nat (length sentences)).
  { intros st3 Hf3. split; [by eapply kept_same_files|]. split; [|done].
    eapply files_grow_trans; [by apply files_grow_same|].
    eapply files_grow_trans; [exact Hg|]. by apply files_grow_same. }
  destruct (checkpoint_manager (self st2)); by apply Hfin.
Qed.

(** The files that a run reports exist.  When [process_batch_ultra]
    returns, every entry of the list [files] of its results is a success
    and names a file that is on the storage at that time; and no file
    that was on the storage when the run began has gone. *)
Theorem reported_files_exist (sentences : list string) (st : State)
    (results : Results) (st' : State) :
  process_batch_ultra sha256_hexdigest _create_safe_filename strip sentences st
    = (Return results, st') →
  Forall (fun r => r_status r = success ∧
                   ∃ path, r_filepath r = Some path ∧ path ≠ "" ∧
                           is_Some (files (storage st') !! path))
         (result_files results) ∧
  ∀ k, is_Some (files (storage st) !! k) → is_Some (files (storage st') !! k).
Proof.
  intros Hrun. apply run_kept in Hrun as ((Hfiles & _) & Hg & _). split; done.
Qed.


End WithExternals.

End RunFilesProps.

(** ** More on the synthesis of one sentence *)

Module SynthesisMoreProps.

Import ErrorHandler Pathlib AudioCache CheckpointManager AdvancedTTSProcessor.
Import PathProps CacheProps SynthesisProps ResilienceProps CachePipelineProps.


Section WithExternals.

Variable sha256_hexdigest : string -> string.
Variable _create_safe_filename : string -> Z -> string.



(** A sentence served from the cache.  With a cache entry for the
    sentence and the voice that comes next, the file of which is on the
    storage, [synthesize_sentence_ultra] returns the output path of the
    item without calling the provider, and leaves the cache table as it
    is.  When no file is at the output path the cached file is copied
    there; a file that is already at the output path is left as it is,
    whatever its content. *)
Theorem cache_hit_copies_once (sentence : string) (index : Z) (voice : string)
    (st : State) (row : CacheRow) (content : string) :
  cache (self st) = true →
  next_voice (self st) = Some voice →
  select_one
    (_get_sentence_hash sha256_hexdigest sentence voice
       (cfg_audio_format (config (self st))) (cfg_sample_rate (config (self st))))
    (audio_cache (storage st)) = Some row →
  files (storage st) !! str (Path_of (file_path row)) = Some content →
  let out := str (output_path_of (self st) (_create_safe_filename sentence index)) in
  let r := synthesize_sentence_ultra sha256_hexdigest _create_safe_filename
             sentence index st in
  fst r = Return (Some out) ∧
  world (snd r) = world st ∧
  audio_cache (storage (snd r)) = audio_cache (storage st) ∧
  files (storage (snd r))
  = match files (storage st) !! out with
    | Some _ => files (storage st)
    | None => <[out := content]> (files (storage st))
    end.
Proof.
  intros Hcache Hvoice Hrow Hfile out r. subst r out.
  unfold synthesize_sentence_ultra. unfold next_voice in Hvoice.
  destruct (VoiceRotator.get_next_voice (voice_rotator (self st)))
    as [[v|e] rot]; [|done].
  injection Hvoice as ->.
  set (st1 := set_self (set_voice_rotator rot (self st)) st).
  change (cache (self st1)) with (cache (self st)).
  change (config (self st1)) with (config (self st)).
  change (storage st1) with (storage st).
  assert (Hex : exists_ (files (storage st)) (Path_of (file_path row)) = true).
  { unfold exists_. apply bool_decide_eq_true. by rewrite Hfile. }
  rewrite Hcache. unfold get_cached_audio. rewrite Hrow, Hex.
  pose proof (Path_of_normal (file_path row)) as Hn.
  rewrite bool_decide_eq_false_2 by (by apply str_nonempty).
  rewrite (Path_of_str _ Hn).
  set (op := output_path_of (self st) (_create_safe_filename sentence index)).
  change (output_path_of (self st1) (_create_safe_filename sentence index)) with op.
  cbn [storage set_storage files].
  destruct (files (storage st) !! str op) as [old|] eqn:Hout.
  - assert (Hop : exists_ (files (storage st)) op = true).
    { unfold exists_. apply bool_decide_eq_true. by rewrite Hout. }
    rewrite Hop. simpl. by repeat split.
  - assert (Hop : exists_ (files (storage st)) op = false).
    { unfold exists_. apply bool_decide_eq_false. rewrite Hout. by intros [? ?]. }
    rewrite Hop. unfold copy2. rewrite Hfile. simpl. by repeat split.
Qed.

End WithExternals.

End SynthesisMoreProps.

Module EncodingProps.

Import AdvancedTTSProcessor.

Lemma upper_lower_ascii a : upper_ascii (lower_ascii a) = upper_ascii a.
Proof.
  destruct a as [[] [] [] [] [] [] [] []]; vm_compute; reflexivity.
Qed.

Lemma upper_upper_ascii a : upper_ascii (upper_ascii a) = upper_ascii a.
Proof.
  destruct a as [[] [] [] [] [] [] [] []]; vm_compute; reflexivity.
Qed.

Lemma upper_lower s : upper (lower s) = upper s.
Proof. induction s as [|a s IH]; [done|]. simpl. by rewrite upper_lower_ascii, IH. Qed.

Lemma upper_upper s : upper (upper s) = upper s.
Proof. induction s as [|a s IH]; [done|]. simpl. by rewrite upper_upper_ascii, IH. Qed.

Definition with_format (f : string) (p : Processor) : Processor :=
  mkProcessor (output_dir p)
    (mkUltraProcessingConfig (cfg_voice_name (config p)) f
       (cfg_sample_rate (config p)) (delay (config p)) (max_workers (config p))
       (batch_size (config p)) (retry_attempts (config p)) (retry_delay (config p))
       (enable_caching (config p)) (enable_async (config p))
       (connection_pool_size (config p)) (max_concurrent_requests (config p))
       (intelligent_batching (config p)) (resume_from_checkpoint (config p))
       (checkpoint_interval (config p)) (voice_rotation_enabled (config p)))
    (cache p) (checkpoint_manager p) (batcher p) (voice_rotator p) (client p)
    (processed_indices p) (attr_language_code p) (attr_sentences p).

(** [get_audio_encoding] does not depend on the case of the format name,
    and never fails: the name "WAV" in any case gives LINEAR16, "OGG" in
    any case gives OGG_OPUS, and every other name, "FLAC" and unknown
    names included, gives MP3.  ([upper] and [lower] act on the ASCII
    letters; no other code point becomes a letter of "WAV" or "OGG" in
    upper case.) *)
Theorem audio_encoding_ignores_case (p : Processor) :
  let f := cfg_audio_format (config p) in
  get_audio_encoding (with_format (lower f) p) = get_audio_encoding p ∧
  get_audio_encoding (with_format (upper f) p) = get_audio_encoding p ∧
  (get_audio_encoding p = LINEAR16 ↔ upper f = "WAV") ∧
  (get_audio_encoding p = OGG_OPUS ↔ upper f = "OGG") ∧
  (get_audio_encoding p = MP3 ↔ upper f ≠ "WAV" ∧ upper f ≠ "OGG").
Proof.
  intros f. unfold get_audio_encoding. cbn [config with_format cfg_audio_format].
  fold f. rewrite upper_lower, upper_upper.
  split; [done|]. split; [done|].
  repeat case_bool_decide; repeat split; try done; try congruence;
    try (intros [? ?]; congruence); try (by intros ?; congruence).
Qed.

End EncodingProps.

Module PipelineExamples.

Import ErrorHandler Pathlib AudioCache CheckpointManager AdvancedTTSProcessor.
Import SynthesisProps ResilienceProps RunProps RunExamples.
Import RunFilesProps SimpleBatchProps SynthesisMoreProps.

Lemma simple_batches_keep_order_witness :
  ∃ batches,
    simple_batches id 2 ["a"; "b"; "c"] = Return batches ∧
    concat batches = numbered id 0 ["a"; "b"; "c"] ∧
    Forall (fun b => 1 <= Z.of_nat (length b) <= 2) batches ∧
    (∀ k b, batches !! k = Some b → is_Some (batches !! S k) →
            Z.of_nat (length b) = 2) ∧
    Z.of_nat (length ["a"; "b"; "c"]) <= Z.of_nat (length batches) * 2
      < Z.of_nat (length ["a"; "b"; "c"]) + 2.
Proof.
  apply (simple_batches_keep_order id 2 ["a"; "b"; "c"]). lia.
Defined.

(** Plain slices of size 0: no batcher. *)
Definition no_room : UltraProcessingConfig :=
  mkUltraProcessingConfig "en-US-Neural2-A" "MP3" 24000 0 5 0 3 (1 # 2)
    true true 10 15 false true 50 false.

Lemma run_without_batches_witness :
  let r := process_batch_ultra id plain_name id ["a"; "b"] (fresh_state no_room) in
  world (snd r) = world (fresh_state no_room) ∧
  files (storage (snd r)) = files (storage (fresh_state no_room)) ∧
  fst r = Raise (ValueError "range() arg 3 must not be zero").
Proof.
  apply (run_without_batches id plain_name id ["a"; "b"] (fresh_state no_room)).
  - reflexivity.
  - simpl. lia.
Defined.

Lemma reported_files_exist_witness :
  Forall (fun r => r_status r = success ∧
                   ∃ path, r_filepath r = Some path ∧ path ≠ "" ∧
                           is_Some (files (storage (snd run_good_bad)) !! path))
         (match fst run_good_bad with
          | Return results => result_files results
          | Raise _ => []
          end).
Proof.
  destruct run_good_bad as [o st'] eqn:Hrun.
  assert (Ho : ∃ results, o = Return results).
  { replace o with (fst run_good_bad) by (by rewrite Hrun).
    eexists. vm_compute. reflexivity. }
  destruct Ho as [results ->].
  apply (reported_files_exist id plain_name id ["good"; "bad"]
           (run_state picky) results st').
  exact Hrun.
Defined.





(** A storage on which the sentence "hello" is cached for the first
    voice, in the file "cache/h.mp3". *)
Definition cached_state : State :=
  mkState (set_language_code "en-US"
             (__init__ "out" UltraProcessingConfig_default answering))
          (mkStorage {[ "cache/h.mp3" := "ID3" ]}
             (cache_audio id "hello" "en-US-Neural2-A" "MP3" 24000 "cache/h.mp3" 5 [])
             Absent)
          world_start.

Lemma cache_hit_copies_once_witness :
  let r := synthesize_sentence_ultra id plain_name "hello" 1 cached_state in
  fst r = Return (Some "out/0001_hello.mp3") ∧
  invoked (world (snd r)) = 0%nat ∧
  files (storage (snd r)) !! "out/0001_hello.mp3" = Some "ID3".
Proof.
  intros r.
  destruct (cache_hit_copies_once id plain_name "hello" 1 "en-US-Neural2-A"
              cached_state
              (mkCacheRow "hello|en-US-Neural2-A|MP3|24000" "en-US-Neural2-A" "MP3"
                 24000 "cache/h.mp3" 5)
              "ID3") as (H1 & H2 & _ & H4).
  - reflexivity.
  - vm_compute. reflexivity.
  - vm_compute. reflexivity.
  - vm_compute. reflexivity.
  - fold r in H1, H2, H4. split; [rewrite H1; vm_compute; reflexivity|].
    split; [rewrite H2; reflexivity|]. rewrite H4. vm_compute. reflexivity.
Defined.

End PipelineExamples.

(** ** The callers *)

Module CallersProps.

Import ErrorHandler Pathlib AudioCache CheckpointManager AdvancedTTSProcessor.
Import Callers.

Lemma new_processor_language_code callee output_dir config client :
  new_processor callee
    ["credentials_path"; "output_dir"; "config"; "language_code"]
    output_dir config client
  = Raise (unexpected_keyword callee "language_code").
Proof. reflexivity. Qed.

Section WithExternals.

Variable sha256_hexdigest : string -> string.
Variable _create_safe_filename : string -> Z -> string.
Variable strip : string -> string.
Variable init_name : string.


Variable report : Results -> State -> outcome unit * State.

(** The command line never processes a sentence.  [main] gives
    [AdvancedTTSProcessor] the keyword argument [language_code] as well,
    so when the input file was read the constructor raises [TypeError],
    which the handler of [Exception] of [main] logs; when reading the
    file raises, [main] ends in one of its two handlers or the exception
    leaves it.  In no case is the provider called or the storage
    changed, and [main] never reaches its last statement. *)
Theorem command_line_never_processes (args : Args) (loaded : outcome (list string))
    (client : Client) (sto : Storage) (w : World) :
  let r := main sha256_hexdigest _create_safe_filename strip init_name report
             args loaded client sto w in
  snd r = (sto, w) ∧
  fst r ≠ Return Completed ∧
  (∀ sentences, loaded = Return sentences →
     fst r = Return (ProcessingFailed
                       (unexpected_keyword init_name "language_code"))).
Proof.
  intros r. subst r. unfold main. rewrite new_processor_language_code.
  destruct loaded as [sentences|e].
  - change (isinstance (unexpected_keyword init_name "language_code")
              "FileNotFoundError") with false.
    change (isinstance (unexpected_keyword init_name "language_code") "Exception")
      with true.
    cbv iota. split; [done|]. split; [done|]. done.
  - destruct (isinstance e "FileNotFoundError"); [by repeat split|].
    destruct (isinstance e "Exception"); by repeat split.
Qed.

End WithExternals.



End CallersProps.
